(** * Knight's tour generator: a shallow embedding of [knights_tour.py]

    The development models [generate_knights_tour_nxn] (the randomized
    Warnsdorff search with bounded restarts) and the move-position
    projection of [KnightTourGUI.start_tour], and proves the properties
    the specification states about them.

    Python integers are [Z]; a Python list is a Rocq [list] indexed with
    Python's rules (a negative index counts from the end, an index out of
    range raises [IndexError]); the process-wide random generator is an
    explicit state threaded through the search. *)

From stdpp Require Import base numbers list gmap.

Local Open Scope Z_scope.
#[local] Set Warnings "-clear-no-such-hyp".

(** ** Python lists *)

Module Py.

(** [range(lo, hi)] *)
Definition range (lo hi : Z) : list Z := seqZ lo (hi - lo).

(** The position a subscript [i] denotes in a list of length [len]:
    [None] stands for [IndexError]. *)
Definition index (len : nat) (i : Z) : option nat :=
  if bool_decide (0 ≤ i < Z.of_nat len) then Some (Z.to_nat i)
  else if bool_decide (- Z.of_nat len ≤ i < 0) then Some (Z.to_nat (Z.of_nat len + i))
  else None.

(** [l[i]] *)
Definition getitem {A} (l : list A) (i : Z) : option A :=
  k ← index (length l) i; l !! k.

(** [l[i] = v] *)
Definition setitem {A} (l : list A) (i : Z) (v : A) : option (list A) :=
  k ← index (length l) i; Some (<[k:=v]> l).

End Py.

(** ** Data model *)

Abbreviation offset := (Z * Z)%type (only parsing).
Abbreviation coord := (Z * Z)%type (only parsing).
Abbreviation Board := (list (list Z)) (only parsing).

(** The cell value of a square that has not been visited. *)
Definition UNVISITED : Z := -1.

(** The literal bound to [KNIGHT_MOVES] at the start of every call. *)
Definition KNIGHT_MOVES : list offset :=
  [(-2, -1); (-1, -2); (1, -2); (2, -1); (2, 1); (1, 2); (-1, 2); (-2, 1)].

(** [board[y][x]] *)
Definition board_get (board : Board) (x y : Z) : option Z :=
  row ← Py.getitem board y; Py.getitem row x.

(** [board[y][x] = v]: the row is fetched first, then updated in place;
    rows are distinct objects, so only one cell changes. *)
Definition board_set (board : Board) (x y v : Z) : option Board :=
  row ← Py.getitem board y;
  row' ← Py.setitem row x v;
  Py.setitem board y row'.

(** [[[-1 for _ in range(board_size)] for _ in range(board_size)]] *)
Definition new_board (board_size : Z) : Board :=
  (λ _, (λ _, UNVISITED) <$> Py.range 0 board_size) <$> Py.range 0 board_size.

(** ** The random source

    [random.shuffle] rearranges a list in place using the process-wide
    generator.  The generator is a state [G]; a shuffle returns the
    rearranged list and the next state. *)

Class RandomSource (G : Type) := {
  shuffle : G → list offset → list offset * G;
  shuffle_perm : ∀ g l, (shuffle g l).1 ≡ₚ l
}.

(** ** Events of a run (ghost state)

    The search is instrumented with a log that records, in order, each
    board allocation and each move step with the state it was decided in. *)

Inductive event :=
| EvAttempt (attempt : Z)
| EvStep (move_no : Z) (moves : list offset) (x y : Z) (board : Board)
         (next_move : option coord).

Record state (G : Type) := State {
  rng : G;                  (* the global random generator *)
  moves : list offset;      (* the current order of KNIGHT_MOVES *)
  trace : list event        (* ghost: what happened so far *)
}.
Arguments State {G}.
Arguments rng {G}.
Arguments moves {G}.
Arguments trace {G}.

Definition log {G} (e : event) (s : state G) : state G :=
  State (rng s) (moves s) (trace s ++ [e]).

(** How one attempt ends. *)
Inductive attempt_result :=
| Completed (board : Board)    (* the inner loop ran to its end *)
| DeadEnd                      (* [break] *)
| Raised.                      (* an [IndexError] escaped *)

(** How a call ends. *)
Inductive outcome :=
| Tour (board : Board)         (* [return board] *)
| NoTour                       (* [return None] *)
| IndexError.                  (* the call raised *)

(** ** generate_knights_tour_nxn *)

Section Generate.

Context {G : Type} `{RandomSource G}.
Variable board_size : Z.

(** [0 <= x < board_size and 0 <= y < board_size and board[y][x] == -1].
    The subscript is evaluated only after both range tests passed; on the
    boards of the search, which are [board_size] by [board_size], it then
    addresses a cell ([is_valid_defined]), so the [None] branch is never
    taken there. *)
Definition is_valid (x y : Z) (board : Board) : bool :=
  bool_decide (0 ≤ x < board_size) && bool_decide (0 ≤ y < board_size) &&
  match board_get board x y with
  | Some v => bool_decide (v = -1)
  | None => false
  end.

(** The loop of [count_onward_moves] runs over the current order of
    [KNIGHT_MOVES]. *)
Definition count_onward_moves (ms : list offset) (x y : Z) (board : Board) : Z :=
  foldl (λ count '(dx, dy), if is_valid (x + dx) (y + dy) board then count + 1 else count)
        0 ms.

(** One iteration of the candidate loop: the pair is [(min_deg, next_move)]. *)
Definition select_step (ms : list offset) (x y : Z) (board : Board)
    (acc : Z * option coord) (d : offset) : Z * option coord :=
  let '(dx, dy) := d in
  let nx := x + dx in
  let ny := y + dy in
  if is_valid nx ny board then
    let deg := count_onward_moves ms nx ny board in
    if bool_decide (deg < acc.1) then (deg, Some (nx, ny)) else acc
  else acc.

Definition select_move (ms : list offset) (x y : Z) (board : Board) : option coord :=
  (foldl (select_step ms x y board) (9, None) ms).2.

(** The body of [for move_no in range(2, board_size * board_size + 1)]. *)
Fixpoint move_loop (move_nos : list Z) (x y : Z) (board : Board) (s : state G)
    : attempt_result * state G :=
  match move_nos with
  | [] => (Completed board, s)
  | move_no :: rest =>
      let '(ms, g) := shuffle (rng s) (moves s) in
      let next_move := select_move ms x y board in
      let s := log (EvStep move_no ms x y board next_move) (State g ms (trace s)) in
      match next_move with
      | None => (DeadEnd, s)
      | Some (nx, ny) =>
          match board_set board nx ny move_no with
          | Some board => move_loop rest nx ny board s
          | None => (Raised, s)
          end
      end
  end.

(** One attempt: a fresh board, the start square marked, then the moves. *)
Definition attempt (attempt_no : Z) (start_x start_y : Z) (s : state G)
    : attempt_result * state G :=
  let s := log (EvAttempt attempt_no) s in
  match board_set (new_board board_size) start_x start_y 1 with
  | None => (Raised, s)
  | Some board =>
      move_loop (Py.range 2 (board_size * board_size + 1)) start_x start_y board s
  end.

(** The body of [for attempt in range(max_attempts)]: the [else] branch of
    the inner loop returns the board, a [break] goes on to the next attempt. *)
Fixpoint attempt_loop (attempts : list Z) (start_x start_y : Z) (s : state G)
    : outcome * state G :=
  match attempts with
  | [] => (NoTour, s)
  | attempt_no :: rest =>
      match attempt attempt_no start_x start_y s with
      | (Completed board, s) => (Tour board, s)
      | (DeadEnd, s) => attempt_loop rest start_x start_y s
      | (Raised, s) => (IndexError, s)
      end
  end.

Definition generate_knights_tour_nxn (start_x start_y max_attempts : Z) (g : G)
    : outcome * state G :=
  attempt_loop (Py.range 0 max_attempts) start_x start_y (State g KNIGHT_MOVES []).

End Generate.

(** ** The move-position projection of [start_tour] *)

Definition project_cell (board : Board) (y : Z)
    (acc : option (list (option coord))) (x : Z) : option (list (option coord)) :=
  move_positions ← acc;
  move_num ← board_get board x y;
  if bool_decide (move_num > 0)
  then Py.setitem move_positions (move_num - 1) (Some (x, y))
  else Some move_positions.

Definition project_row (board : Board) (size : Z)
    (acc : option (list (option coord))) (y : Z) : option (list (option coord)) :=
  foldl (project_cell board y) acc (Py.range 0 size).

(** [None] stands for an [IndexError]; an entry [None] of the list is
    Python's [None]. *)
Definition project (board : Board) (size : Z) : option (list (option coord)) :=
  foldl (project_row board size) (Some (replicate (Z.to_nat (size * size)) None))
        (Py.range 0 size).

(** ** The caller's input checks

    [start_tour] parses three integers and raises [ValueError] (shown as
    an input warning) unless the size is at least 5 and the start lies on
    the board; only then does it call the generator, with the column as
    [start_x], the row as [start_y] and the default of 100 attempts. *)

Definition start_tour_checks (size start_row start_col : Z) : bool :=
  negb (bool_decide (size < 5)) &&
  bool_decide (0 ≤ start_row < size ∧ 0 ≤ start_col < size).

(** [None]: the input was rejected and no call was made. *)
Definition start_tour_call {G : Type} `{RandomSource G}
    (size start_row start_col : Z) (g : G) : option (outcome * state G) :=
  if start_tour_checks size start_row start_col
  then Some (generate_knights_tour_nxn size start_col start_row 100 g)
  else None.

(** ** A concrete random source

    A generator whose raw draws are given in advance; [randbelow n] is the
    next draw reduced modulo [n], and the shuffle is the Fisher-Yates loop
    from the last position down to position 1. *)

Module Draws.

Definition randbelow (n : nat) (g : list nat) : nat * list nat :=
  match g with
  | [] => (0%nat, [])
  | d :: g => ((d `mod` n)%nat, g)
  end.

Definition swap {A} (i j : nat) (l : list A) : list A :=
  match l !! i, l !! j with
  | Some a, Some b => <[j:=a]> (<[i:=b]> l)
  | _, _ => l
  end.

Fixpoint shuffle_from {A} (i : nat) (l : list A) (g : list nat) : list A * list nat :=
  match i with
  | O => (l, g)
  | S i' =>
      let '(j, g) := randbelow (S i) g in
      shuffle_from i' (swap i j l) g
  end.

Definition shuffle {A} (g : list nat) (l : list A) : list A * list nat :=
  shuffle_from (length l - 1) l g.

End Draws.

#[export] Instance draws_source : RandomSource (list nat).
Proof.
  refine {| shuffle g l := Draws.shuffle g l |}.
  intros g l. unfold Draws.shuffle.
  generalize (length l - 1)%nat as i. intros i. revert l g.
  induction i as [|i IH]; intros l g; [done|].
  cbn [Draws.shuffle_from].
  destruct (Draws.randbelow (S (S i)) g) as [j g'].
  rewrite IH. unfold Draws.swap.
  destruct (l !! S i) as [a|] eqn:Hi; [|done].
  destruct (l !! j) as [b|] eqn:Hj; [|done].
  by apply Permutation_insert_swap.
Defined.

(** ** Predicates of the specification *)

(** A board of [N] rows of [N] cells. *)
Definition shaped (N : nat) (b : Board) : Prop :=
  length b = N ∧ Forall (λ row, length row = N) b.

(** The cell in column [i] of row [j], by position. *)
Definition at_cell (b : Board) (i j : nat) : option Z :=
  row ← b !! j; row !! i.

Definition set_cell (b : Board) (i j : nat) (v : Z) : Board :=
  alter (<[i:=v]>) j b.

Definition in_bounds (n : Z) (c : coord) : Prop :=
  0 ≤ c.1 < n ∧ 0 ≤ c.2 < n.

(** A completed board: [n] by [n], its cell values the numbers 1..n² in
    some order. *)
Definition complete_board (n : Z) (b : Board) : Prop :=
  shaped (Z.to_nat n) b ∧ concat b ≡ₚ seqZ 1 (n * n).

(** The onward-degree of a square: how many of the eight knight offsets
    lead from it to a valid square of the board. *)
Definition onward_degree (n : Z) (x y : Z) (b : Board) : Z :=
  Z.of_nat (length (filter (λ d : offset, is_valid n (x + d.1) (y + d.2) b = true) KNIGHT_MOVES)).

(** The square a knight offset leads to. *)
Definition candidate (x y : Z) (d : offset) : coord := (x + d.1, y + d.2).

Definition valid_at (n : Z) (b : Board) (c : coord) : Prop :=
  is_valid n c.1 c.2 b = true.

(** Warnsdorff's rule with first-wins tie-break, for the offsets in the
    order [ms]: no choice exactly when no offset leads to a valid square;
    otherwise the choice is a valid candidate of least onward-degree, and
    every valid candidate earlier in [ms] has a strictly larger one. *)
Definition warnsdorff_choice (n : Z) (ms : list offset) (x y : Z) (b : Board)
    (next_move : option coord) : Prop :=
  match next_move with
  | None => ∀ d, d ∈ ms → ¬ valid_at n b (candidate x y d)
  | Some c =>
      ∃ i d, ms !! i = Some d ∧ c = candidate x y d ∧ valid_at n b c ∧
        (∀ d', d' ∈ ms → valid_at n b (candidate x y d') →
           onward_degree n c.1 c.2 b
           ≤ onward_degree n (candidate x y d').1 (candidate x y d').2 b) ∧
        (∀ i' d', (i' < i)%nat → ms !! i' = Some d' →
           valid_at n b (candidate x y d') →
           onward_degree n c.1 c.2 b
           < onward_degree n (candidate x y d').1 (candidate x y d').2 b)
  end.

(** The square of the [a]-th cell in row-major order. *)
Definition flat (N : nat) (a : nat) : coord :=
  (Z.of_nat (a `mod` N), Z.of_nat (a `div` N)).

(** The invariant of an attempt from an in-range start: [p] lists the
    squares visited so far, in order. *)
Definition path_inv (n : Z) (b : Board) (p : list coord) : Prop :=
  shaped (Z.to_nat n) b ∧ NoDup p ∧ (∀ c, c ∈ p → in_bounds n c) ∧
  (∀ i c, p !! i = Some c → board_get b c.1 c.2 = Some (Z.of_nat i + 1)) ∧
  (∀ c, in_bounds n c → c ∉ p → board_get b c.1 c.2 = Some UNVISITED) ∧
  (∀ i c c', p !! i = Some c → p !! S i = Some c' →
     (c'.1 - c.1, c'.2 - c.2) ∈ KNIGHT_MOVES).

(** *** Shapes of the event log *)

Definition is_move (e : event) : Prop :=
  match e with EvStep _ _ _ _ _ (Some _) => True | _ => False end.

Definition is_dead_end (e : event) : Prop :=
  match e with EvStep _ _ _ _ _ None => True | _ => False end.

(** What a logged move step must satisfy: the offsets it ran over are the
    eight knight offsets in some order, and its decision follows
    Warnsdorff's rule on the position and board it was taken in. *)
Definition step_ok (n : Z) (e : event) : Prop :=
  match e with
  | EvStep _ ms x y b next_move =>
      ms ≡ₚ KNIGHT_MOVES ∧ warnsdorff_choice n ms x y b next_move
  | EvAttempt _ => True
  end.

(** The state an event leaves behind: the board [b'] with the knight on
    [(x, y)].  An allocation leaves the fresh board with the start marked;
    a move leaves the board it was decided on with the destination marked
    by its move number; a dead end leaves nothing to go on with. *)
Definition produces (n start_x start_y : Z) (e : event) (b' : Board) (x y : Z) : Prop :=
  match e with
  | EvAttempt _ =>
      board_set (new_board n) start_x start_y 1 = Some b' ∧ (x, y) = (start_x, start_y)
  | EvStep m _ _ _ b (Some (nx, ny)) =>
      board_set b nx ny m = Some b' ∧ (x, y) = (nx, ny)
  | EvStep _ _ _ _ _ None => False
  end.

(** The number of the move decided next. *)
Definition next_no (e : event) : Z :=
  match e with
  | EvAttempt _ => 2
  | EvStep m _ _ _ _ _ => m + 1
  end.

(** [e'] is what may come right after [e] in the log: after a dead end
    only a new allocation; otherwise the step that decides the next move
    on exactly the board and position [e] left behind. *)
Definition follows (n start_x start_y : Z) (e e' : event) : Prop :=
  match e with
  | EvStep _ _ _ _ _ None => ∃ a, e' = EvAttempt a
  | _ =>
      ∃ ms b x y next_move,
        e' = EvStep (next_no e) ms x y b next_move ∧ produces n start_x start_y e b x y
  end.

Definition chained (n start_x start_y : Z) (evs : list event) : Prop :=
  ∀ i e e', evs !! i = Some e → evs !! S i = Some e' → follows n start_x start_y e e'.

(** The first step of an attempt, if it takes one, decides move 2 at the
    start coordinates, on a fresh board whose only mark is the start. *)
Definition fresh_start (n start_x start_y : Z) (steps : list event) : Prop :=
  match steps with
  | [] => True
  | e :: _ =>
      ∃ ms b next_move,
        board_set (new_board n) start_x start_y 1 = Some b ∧
        e = EvStep 2 ms start_x start_y b next_move
  end.

(** The events of an attempt that was abandoned: its allocation, some
    moves, and the step that found no destination, after which nothing
    more of this attempt happens. *)
Definition dead_segment (n start_x start_y : Z) (a : Z) (seg : list event) : Prop :=
  ∃ steps e, seg = EvAttempt a :: steps ++ [e] ∧ Forall is_move steps ∧
             is_dead_end e ∧ fresh_start n start_x start_y (steps ++ [e]).

(** The events of an attempt that placed every move. *)
Definition live_segment (n start_x start_y : Z) (a : Z) (seg : list event) : Prop :=
  ∃ steps, seg = EvAttempt a :: steps ∧ Forall is_move steps ∧
           length steps = Z.to_nat (n * n - 1) ∧ fresh_start n start_x start_y steps.

(** The move positions after the cells [seen] of board [b] have been
    scanned. *)
Definition projected (n : Z) (b : Board) (seen : coord → Prop)
    (acc : option (list (option coord))) : Prop :=
  ∃ mp, acc = Some mp ∧ length mp = Z.to_nat (n * n) ∧
        ∀ c k, in_bounds n c → seen c → board_get b c.1 c.2 = Some k →
               mp !! Z.to_nat (k - 1) = Some (Some c).

(** *** Boards of concrete runs *)

(** The tour found from the corner of the 5 by 5 board when every draw
    of the random source is 0. *)
Definition tour_5x5 : Board :=
  [[1; 14; 9; 20; 3]; [24; 19; 2; 15; 10]; [13; 8; 25; 4; 21];
   [18; 23; 6; 11; 16]; [7; 12; 17; 22; 5]].

(** What [generate_knights_tour_nxn(-1, 0, 5)] returns when every draw
    of the random source is 0: the start mark went to the last cell of
    row 0, the first move to (1, 1). *)
Definition wrapped_5x5 : Board :=
  [[14; 23; 8; 3; 1]; [7; 2; 13; 24; 9]; [12; 15; 22; 19; 4];
   [21; 6; 17; 10; 25]; [16; 11; 20; 5; 18]].

(** What [generate_knights_tour_nxn(-1, 0, 8)] returns when every draw
    of the random source is 0. *)
Definition wrapped_8x8 : Board :=
  [[52; 47; 8; 3; 26; 29; 6; 1]; [9; 2; 53; 46; 7; 4; 25; 28];
   [48; 51; 10; 33; 56; 27; 30; 5]; [11; 54; 49; 64; 45; 32; 35; 24];
   [50; 61; 44; 55; 34; 57; 20; 31]; [15; 12; 63; 60; 41; 38; 23; 36];
   [62; 43; 14; 17; 58; 21; 40; 19]; [13; 16; 59; 42; 39; 18; 37; 22]].

(** *** Further predicates of the search *)

(** The index a subscript denotes on an axis of length [n], counting from
    the end when it is negative. *)
Definition wrap (n : Z) (x : Z) : Z := if bool_decide (x < 0) then n + x else x.

Definition wrapped (n : Z) (c : coord) : coord := (wrap n c.1, wrap n c.2).

(** The marks of an attempt, whatever square the knight stands on: [p]
    lists the cells marked so far, cell [i] holding [i + 1], every other
    cell unvisited. *)
Definition fill_inv (n : Z) (b : Board) (p : list coord) : Prop :=
  shaped (Z.to_nat n) b ∧ NoDup p ∧ (∀ c, c ∈ p → in_bounds n c) ∧
  (∀ i c, p !! i = Some c → board_get b c.1 c.2 = Some (Z.of_nat i + 1)) ∧
  (∀ c, in_bounds n c → c ∉ p → board_get b c.1 c.2 = Some UNVISITED).

(** A knight's tour of the [n] by [n] board from [start]: every square
    once, each a knight's move from the one before. *)
Definition knights_tour (n : Z) (start : coord) (p : list coord) : Prop :=
  length p = Z.to_nat (n * n) ∧ NoDup p ∧ (∀ c, c ∈ p ↔ in_bounds n c) ∧
  p !! 0%nat = Some start ∧
  (∀ i c c', p !! i = Some c → p !! S i = Some c' →
     (c'.1 - c.1, c'.2 - c.2) ∈ KNIGHT_MOVES).

(** The position of a square in row-major order. *)
Definition unflat (n : Z) (c : coord) : Z := c.2 * n + c.1.

(** *** Further predicates of the projection *)

(** The move positions after the cells [seen] of an arbitrary board have
    been scanned: an entry names a scanned cell that holds its move
    number, and every scanned cell with a positive value has its entry
    filled. *)
Definition projected_any (n : Z) (b : Board) (seen : coord → Prop)
    (acc : option (list (option coord))) : Prop :=
  ∃ mp, acc = Some mp ∧ length mp = Z.to_nat (n * n) ∧
        (∀ i c, mp !! i = Some (Some c) →
           seen c ∧ in_bounds n c ∧ board_get b c.1 c.2 = Some (Z.of_nat i + 1)) ∧
        (∀ c k, seen c → in_bounds n c → board_get b c.1 c.2 = Some k → 0 < k →
           ∃ c', mp !! Z.to_nat (k - 1) = Some (Some c')).

(** ** The widgets

    The two widget classes, as far as their own state goes.  Qt's part is
    reduced to what the methods read back: whether the timer is active,
    and which message box a call ends with.  A timer event is a call of
    [animate_moves]. *)

(** The message boxes. *)
Inductive notice :=
| InputError       (* "Input Error" warning *)
| NoSolution       (* "No Solution" *)
| AnimationDone.   (* "Done" *)

(** A call either returns or lets an exception escape. *)
Inductive call (A : Type) :=
| Returns (a : A)
| Raises.
Arguments Returns {A}.
Arguments Raises {A}.

Module BoardWidget.

Record t := Build {
  board_size : Z;
  square_size : Z;
  board_data : Board;
  current_pos : coord;
  prev_pos : option coord;
  move_numbers : gmap (Z * Z) Z
}.

(** [__init__] *)
Definition init (board_size square_size : Z) (board_data : Board) : t :=
  Build board_size square_size board_data (0, 0) None ∅.

(** [set_knight_position(x, y, prev_x=None, prev_y=None, move_number=None)] *)
Definition set_knight_position (self : t) (x y : Z)
    (prev_x prev_y move_number : option Z) : t :=
  match prev_x, prev_y, move_number with
  | Some px, Some py, Some m =>
      Build (board_size self) (square_size self) (board_data self) (x, y)
            (prev_pos self) (<[(px, py) := m]> (move_numbers self))
  | _, _, _ =>
      Build (board_size self) (square_size self) (board_data self) (x, y)
            (prev_pos self) (move_numbers self)
  end.

(** [self.move_numbers.clear()] *)
Definition clear_move_numbers (self : t) : t :=
  Build (board_size self) (square_size self) (board_data self) (current_pos self)
        (prev_pos self) ∅.

End BoardWidget.

Module KnightTourGUI.

Record t := Build {
  board_size : Z;
  square_size : Z;
  board : option Board;                    (* [None] is Python's [None] *)
  move_positions : list (option coord);
  current_move_index : Z;
  timer_interval : Z;
  is_paused : bool;
  timer_active : bool;                     (* [self.timer.isActive()] *)
  board_widget : option BoardWidget.t
}.

(** [__init__] *)
Definition init : t := Build 5 60 (Some []) [] 0 600 false false None.

Definition play_animation (self : t) : t :=
  match board_widget self with
  | None => self
  | Some _ =>
      Build (board_size self) (square_size self) (board self) (move_positions self)
            (current_move_index self) (timer_interval self) false
            (if timer_active self then timer_active self else true)
            (board_widget self)
  end.

Definition pause_animation (self : t) : t :=
  Build (board_size self) (square_size self) (board self) (move_positions self)
        (current_move_index self) (timer_interval self) true
        (if timer_active self then false else timer_active self)
        (board_widget self).

Definition animate_moves (self : t) : call (t * option notice) :=
  if is_paused self then Returns (self, None) else
  let idx := current_move_index self + 1 in
  if bool_decide (idx >= Z.of_nat (length (move_positions self))) then
    Returns (Build (board_size self) (square_size self) (board self)
                   (move_positions self) idx (timer_interval self)
                   (is_paused self) false (board_widget self),
             Some AnimationDone)
  else
    match Py.getitem (move_positions self) idx,
          Py.getitem (move_positions self) (idx - 1),
          board_widget self with
    | Some (Some (cx, cy)), Some (Some (px, py)), Some w =>
        Returns (Build (board_size self) (square_size self) (board self)
                       (move_positions self) idx (timer_interval self)
                       (is_paused self) (timer_active self)
                       (Some (BoardWidget.set_knight_position w cx cy
                                (Some px) (Some py) (Some idx))),
                 None)
    | _, _, _ => Raises
    end.

Definition reset_animation (self : t) : call t :=
  match board_widget self with
  | None => Returns self
  | Some w =>
      match Py.getitem (move_positions self) 0 with
      | Some (Some (x, y)) =>
          Returns (pause_animation
            (Build (board_size self) (square_size self) (board self)
                   (move_positions self) 0 (timer_interval self)
                   (is_paused self) (timer_active self)
                   (Some (BoardWidget.set_knight_position
                            (BoardWidget.clear_move_numbers w) x y None None None))))
      | _ => Raises
      end
  end.

(** [max(30, min(60, 480 // size))] *)
Definition square_size_for (size : Z) : Z := Z.max 30 (Z.min 60 (Z.div 480 size)).

(** [start_tour]: the three arguments are what [int] made of the text
    fields, [None] when it raised [ValueError]. *)
Definition start_tour {G : Type} `{RandomSource G}
    (size_in row_in col_in : option Z) (self : t) (g : G)
    : call (t * option notice * G) :=
  let rejected := Returns (self, Some InputError, g) in
  match size_in with
  | None => rejected
  | Some size =>
  if bool_decide (size < 5) then rejected else
  match row_in with
  | None => rejected
  | Some start_row =>
  match col_in with
  | None => rejected
  | Some start_col =>
  if negb (bool_decide (0 ≤ start_row < size ∧ 0 ≤ start_col < size)) then rejected else
  let sq := square_size_for size in
  let '(o, s) := generate_knights_tour_nxn size start_col start_row 100 g in
  let no_solution (b : option Board) :=
    Returns (Build size sq b (move_positions self) (current_move_index self)
                   (timer_interval self) (is_paused self) (timer_active self)
                   (board_widget self),
             Some NoSolution, rng s) in
  match o with
  | IndexError => Raises
  | NoTour => no_solution None
  | Tour [] => no_solution (Some [])
  | Tour b =>
      match project b size with
      | None => Raises
      | Some mp =>
          match Py.getitem mp 0 with
          | Some (Some (x, y)) =>
              Returns (play_animation
                (Build size sq (Some b) mp 0 (timer_interval self) false
                       (timer_active self)
                       (Some (BoardWidget.set_knight_position
                                (BoardWidget.init size sq b) x y None None None))),
                None, rng s)
          | _ => Raises
          end
      end
  end
  end end end.

(** [k] timer events in a row. *)
Fixpoint ticks (k : nat) (self : t) : call t :=
  match k with
  | O => Returns self
  | S k =>
      match animate_moves self with
      | Returns (self, _) => ticks k self
      | Raises => Raises
      end
  end.

(** The display while the knight stands on square [i] of the path [p]:
    the squares before it show their move numbers, no other square shows
    one. *)
Definition showing (p : list coord) (i : nat) (self : t) : Prop :=
  move_positions self = Some <$> p ∧
  current_move_index self = Z.of_nat i ∧
  ∃ w, board_widget self = Some w ∧
       p !! i = Some (BoardWidget.current_pos w) ∧
       ∀ c m, BoardWidget.move_numbers w !! c = Some m ↔
              ∃ j, (j < i)%nat ∧ p !! j = Some c ∧ m = Z.of_nat j + 1.

(** A tour is loaded in the window: the move positions are the squares
    of the path [p] and the board widget exists.  [start_tour] leaves the
    window so, and no later event changes either; the cursor, the numbers
    on display, the pause flag and the timer are free, so this covers the
    animation while it plays, while it is paused and after it has
    finished (when the cursor has reached [len(move_positions)]). *)
Definition loaded (p : list coord) (self : t) : Prop :=
  move_positions self = Some <$> p ∧ is_Some (board_widget self).

End KnightTourGUI.

(** The marks of an attempt together with the way they were reached,
    for any start subscripts [(x0, y0)]: the second cell is a knight's
    move from [(x0, y0)] itself, every later cell a knight's move from
    the cell before it. *)
Definition trail_inv (n x0 y0 : Z) (b : Board) (p : list coord) : Prop :=
  fill_inv n b p ∧
  (∀ i c c', (1 ≤ i)%nat → p !! i = Some c → p !! S i = Some c' →
     (c'.1 - c.1, c'.2 - c.2) ∈ KNIGHT_MOVES) ∧
  (∀ c, p !! 1%nat = Some c → (c.1 - x0, c.2 - y0) ∈ KNIGHT_MOVES).

(** Where the knight stands after the marks [p]: on the start subscripts
    while only the start is marked, on the last marked cell afterwards. *)
Definition stands_on (x0 y0 : Z) (p : list coord) (x y : Z) : Prop :=
  (length p = 1%nat ∧ (x, y) = (x0, y0)) ∨
  ((2 ≤ length p)%nat ∧ last p = Some (x, y)).

(** *** States of concrete runs *)

(** The move positions of [tour_5x5]. *)
Definition tour_5x5_path : list coord :=
  [(0, 0); (2, 1); (4, 0); (3, 2); (4, 4); (2, 3); (0, 4); (1, 2); (2, 0);
   (4, 1); (3, 3); (1, 4); (0, 2); (1, 0); (3, 1); (4, 3); (2, 4); (0, 3);
   (1, 1); (3, 0); (4, 2); (3, 4); (1, 3); (0, 1); (2, 2)].

(** The window right after a tour of the 5 by 5 board was started from
    the corner with every draw of the random source 0. *)
Definition started_5x5 : KnightTourGUI.t :=
  KnightTourGUI.Build 5 60 (Some tour_5x5) (Some <$> tour_5x5_path) 0 600 false true
    (Some (BoardWidget.Build 5 60 tour_5x5 (0, 0) None ∅)).

(** A window whose tour has a single square. *)
Definition single_square : KnightTourGUI.t :=
  KnightTourGUI.Build 1 60 (Some [[1]]) [Some (0, 0)] 0 600 false true
    (Some (BoardWidget.Build 1 60 [[1]] (0, 0) None ∅)).

(** The window of [started_5x5] after its animation has run to the end:
    25 timer events later the cursor is 25, the timer has been stopped,
    the knight stands on the last square of the path and the 24 squares
    before it show their numbers. *)
Definition finished_5x5 : KnightTourGUI.t :=
  KnightTourGUI.Build 5 60 (Some tour_5x5) (Some <$> tour_5x5_path) 25 600 false false
    (Some (BoardWidget.Build 5 60 tour_5x5 (2, 2) None
             (list_to_map (zip (take 24 tour_5x5_path) (seqZ 1 24))))).

(** *** The search as the specification describes it

    One attempt, from the position [(x, y)] on the board [b], with the
    move numbers still to be placed: for each of them the eight offsets
    are shuffled, Warnsdorff's rule picks the destination among the
    candidates in the shuffled order on the board as it is, the
    destination is marked with the move number and becomes the position.
    The attempt is a dead end at the first step with no destination (which
    the rule allows only when no candidate is valid), and it is completed
    when no move number is left.  Each step appends its event to the log
    and leaves the shuffled order and the generator as the shuffle left
    them. *)

Section Warnsdorff.

Context {G : Type} `{RandomSource G}.
Variable n : Z.

Inductive warnsdorff_moves
  : list Z → Z → Z → Board → state G → attempt_result → state G → Prop :=
| moves_placed x y b s :
    warnsdorff_moves [] x y b s (Completed b) s
| moves_dead_end m rest x y b s ms g :
    shuffle (rng s) (moves s) = (ms, g) →
    ms ≡ₚ KNIGHT_MOVES →
    warnsdorff_choice n ms x y b None →
    warnsdorff_moves (m :: rest) x y b s DeadEnd
      (State g ms (trace s ++ [EvStep m ms x y b None]))
| moves_step m rest x y b s ms g nx ny b' r s' :
    shuffle (rng s) (moves s) = (ms, g) →
    ms ≡ₚ KNIGHT_MOVES →
    warnsdorff_choice n ms x y b (Some (nx, ny)) →
    board_set b nx ny m = Some b' →
    warnsdorff_moves rest nx ny b'
      (State g ms (trace s ++ [EvStep m ms x y b (Some (nx, ny))])) r s' →
    warnsdorff_moves (m :: rest) x y b s r s'.

(** The attempts of a call, numbered by [attempts]: each allocates a
    fresh board, marks the start and makes the moves 2..n² from the start
    coordinates; the first completed attempt ends the call with its board,
    a dead end leads to the next attempt, and the call fails when none is
    left.  A start that addresses no cell raises in the first attempt. *)
Inductive warnsdorff_search (start_x start_y : Z)
  : list Z → state G → outcome → state G → Prop :=
| search_exhausted s :
    warnsdorff_search start_x start_y [] s NoTour s
| search_no_cell a rest s :
    board_set (new_board n) start_x start_y 1 = None →
    warnsdorff_search start_x start_y (a :: rest) s IndexError
      (State (rng s) (moves s) (trace s ++ [EvAttempt a]))
| search_tour a rest s b0 b s' :
    board_set (new_board n) start_x start_y 1 = Some b0 →
    warnsdorff_moves (Py.range 2 (n * n + 1)) start_x start_y b0
      (State (rng s) (moves s) (trace s ++ [EvAttempt a])) (Completed b) s' →
    warnsdorff_search start_x start_y (a :: rest) s (Tour b) s'
| search_retry a rest s b0 s1 r s' :
    board_set (new_board n) start_x start_y 1 = Some b0 →
    warnsdorff_moves (Py.range 2 (n * n + 1)) start_x start_y b0
      (State (rng s) (moves s) (trace s ++ [EvAttempt a])) DeadEnd s1 →
    warnsdorff_search start_x start_y rest s1 r s' →
    warnsdorff_search start_x start_y (a :: rest) s r s'.

End Warnsdorff.

(** *** The board of an attempt, rebuilt from its events *)

(** Marking, from the board [b], the destination of each move step with
    its move number; [None] if a step has no destination or a mark
    addresses no cell. *)
Fixpoint marked (steps : list event) (b : Board) : option Board :=
  match steps with
  | [] => Some b
  | EvStep m _ _ _ _ (Some (nx, ny)) :: steps =>
      b' ← board_set b nx ny m; marked steps b'
  | _ :: _ => None
  end.

(** The board the events [seg] of one attempt add up to: a fresh board,
    the start marked 1, then the marks of its move steps. *)
Definition board_of (n start_x start_y : Z) (seg : list event) : option Board :=
  match seg with
  | EvAttempt _ :: steps =>
      b ← board_set (new_board n) start_x start_y 1; marked steps b
  | _ => None
  end.

(** *** The shuffles a call consumes *)

(** The order of the offsets a logged step ran over. *)
Definition order_of (e : event) : option (list offset) :=
  match e with
  | EvStep _ ms _ _ _ _ => Some ms
  | EvAttempt _ => None
  end.

Definition orders (evs : list event) : list (list offset) := omap order_of evs.

Section Shuffles.

Context {G : Type} `{RandomSource G}.

(** The generator and the order of the offsets after [k] shuffles in a
    row, each applied to the order the one before it left. *)
Fixpoint after_shuffles (k : nat) (g : G) (l : list offset) : G * list offset :=
  match k with
  | O => (g, l)
  | S k => let '(ms, g') := shuffle g l in after_shuffles k g' ms
  end.

(** The orders those [k] shuffles deliver. *)
Fixpoint drawn (k : nat) (g : G) (l : list offset) : list (list offset) :=
  match k with
  | O => []
  | S k => let '(ms, g') := shuffle g l in ms :: drawn k g' ms
  end.

(** The state [s] of a call that started with the generator [g0] is
    accounted for by its log: the orders of the logged steps are the first
    shuffles [g0] delivers from the literal [KNIGHT_MOVES], as many as
    there are steps, and the generator and the current order are what
    those shuffles left. *)
Definition accounted (g0 : G) (s : state G) : Prop :=
  orders (trace s) = drawn (length (orders (trace s))) g0 KNIGHT_MOVES ∧
  (rng s, moves s) = after_shuffles (length (orders (trace s))) g0 KNIGHT_MOVES.

End Shuffles.

(** Two states, over any two random sources, that agree on what the
    search reads besides the generator. *)
Definition in_step {G1 G2 : Type} (s1 : state G1) (s2 : state G2) : Prop :=
  moves s1 = moves s2 ∧ trace s1 = trace s2.

(** A generator whose first 168 draws are 0, as many as the 24 shuffles
    of a completed 5 by 5 attempt use (7 each), and whose later draws are
    not. *)
Definition late_draws : list nat := replicate 168 0%nat ++ [5; 3; 2; 6]%nat.

(** ** Python indexing *)

Lemma index_lt len i k : Py.index len i = Some k → (k < len)%nat.
Proof.
  unfold Py.index. repeat case_bool_decide; intros; simplify_eq; lia.
Qed.

Lemma index_nonneg len i : 0 ≤ i < Z.of_nat len → Py.index len i = Some (Z.to_nat i).
Proof. intros. unfold Py.index. by rewrite bool_decide_eq_true_2. Qed.

Lemma index_is_Some len i :
  is_Some (Py.index len i) ↔ - Z.of_nat len ≤ i < Z.of_nat len.
Proof.
  unfold Py.index. repeat case_bool_decide; split; intros Hx;
    try (by eexists); try lia; by destruct Hx.
Qed.

Lemma index_None len i :
  Py.index len i = None ↔ ¬ (- Z.of_nat len ≤ i < Z.of_nat len).
Proof. rewrite <-index_is_Some, eq_None_not_Some. done. Qed.

(** ** Boards by position *)

Lemma shaped_row N b j row : shaped N b → b !! j = Some row → length row = N.
Proof.
  intros [_ Hrows] Hj. rewrite Forall_forall in Hrows.
  apply Hrows. by eapply list_elem_of_lookup_2.
Qed.

Lemma board_get_at N b x y :
  shaped N b →
  board_get b x y =
    match Py.index N x, Py.index N y with
    | Some i, Some j => at_cell b i j
    | _, _ => None
    end.
Proof.
  intros Hs. unfold board_get, Py.getitem, at_cell.
  destruct Hs as [Hlen Hrows] eqn:E. rewrite Hlen.
  destruct (Py.index N y) as [j|] eqn:Hy; simpl; [|by destruct (Py.index N x)].
  destruct (b !! j) as [row|] eqn:Hj; simpl.
  - rewrite (shaped_row N b j row) by done. by destruct (Py.index N x).
  - by destruct (Py.index N x).
Qed.

Lemma board_set_at N b x y v :
  shaped N b →
  board_set b x y v =
    match Py.index N x, Py.index N y with
    | Some i, Some j => Some (set_cell b i j v)
    | _, _ => None
    end.
Proof.
  intros Hs. unfold board_set, Py.getitem, Py.setitem, set_cell.
  pose proof Hs as [Hlen Hrows]. rewrite Hlen.
  destruct (Py.index N y) as [j|] eqn:Hy; simpl; [|by destruct (Py.index N x)].
  apply index_lt in Hy. rewrite <-Hlen in Hy.
  destruct (lookup_lt_is_Some_2 b j Hy) as [row Hj]. rewrite Hj. simpl.
  rewrite (shaped_row N b j row) by done.
  destruct (Py.index N x) as [i|]; simpl; [|done].
  f_equal. apply list_eq. intros k.
  rewrite list_lookup_alter. rewrite list_lookup_insert.
  destruct (decide (j = k)) as [->|]; simpl.
  - rewrite Hj. simpl. destruct (decide _); [done|lia].
  - destruct (decide _); naive_solver.
Qed.

Lemma set_cell_shaped N b i j v : shaped N b → shaped N (set_cell b i j v).
Proof.
  intros [Hlen Hrows]. split; unfold set_cell.
  - by rewrite length_alter.
  - apply Forall_alter; [done|]. intros row _ Hrow. by rewrite length_insert.
Qed.

Lemma at_cell_set_cell N b i j v i' j' :
  shaped N b → (i < N)%nat → (j < N)%nat →
  at_cell (set_cell b i j v) i' j' =
    if decide (i = i' ∧ j = j') then Some v else at_cell b i' j'.
Proof.
  intros Hs Hi Hj. unfold at_cell, set_cell.
  pose proof Hs as [Hlen Hrows]. rewrite <-Hlen in Hj.
  destruct (lookup_lt_is_Some_2 b j Hj) as [row Hrow].
  pose proof (shaped_row N b j row Hs Hrow) as Hl.
  rewrite list_lookup_alter.
  destruct (decide (j = j')) as [<-|Hne]; simpl.
  - rewrite Hrow. simpl. rewrite list_lookup_insert.
    destruct (decide (i = i')) as [<-|]; simpl.
    + destruct (decide _), (decide _); naive_solver lia.
    + destruct (decide _), (decide _); naive_solver.
  - destruct (decide _); naive_solver.
Qed.

(** ** The fresh board *)

Lemma new_board_replicate n :
  new_board n = replicate (Z.to_nat n) (replicate (Z.to_nat n) UNVISITED).
Proof.
  unfold new_board, Py.range. rewrite Z.sub_0_r.
  rewrite (const_fmap _ (seqZ 0 n) (replicate (Z.to_nat n) UNVISITED)).
  - by rewrite length_seqZ.
  - intros ?. rewrite (const_fmap _ (seqZ 0 n) UNVISITED) by done.
    by rewrite length_seqZ.
Qed.

Lemma new_board_shaped n : shaped (Z.to_nat n) (new_board n).
Proof.
  rewrite new_board_replicate. split.
  - by rewrite length_replicate.
  - apply Forall_replicate. by rewrite length_replicate.
Qed.

Lemma new_board_at n i j :
  (i < Z.to_nat n)%nat → (j < Z.to_nat n)%nat →
  at_cell (new_board n) i j = Some UNVISITED.
Proof.
  intros Hi Hj. rewrite new_board_replicate. unfold at_cell.
  rewrite lookup_replicate_2 by done. simpl. by rewrite lookup_replicate_2.
Qed.

(** ** Validity and onward-degree *)

Section Select.

Context (n : Z).

Lemma is_valid_spec x y b :
  is_valid n x y b = true ↔
  0 ≤ x < n ∧ 0 ≤ y < n ∧ board_get b x y = Some UNVISITED.
Proof.
  unfold is_valid, UNVISITED. rewrite !andb_true_iff, !bool_decide_eq_true.
  destruct (board_get b x y) as [v|]; [rewrite bool_decide_eq_true|]; naive_solver.
Qed.

Lemma count_onward_moves_filter ms x y b :
  count_onward_moves n ms x y b =
  Z.of_nat (length (filter (λ d : offset, is_valid n (x + d.1) (y + d.2) b = true) ms)).
Proof.
  unfold count_onward_moves.
  enough (∀ c, foldl (λ count '(dx, dy),
                        if is_valid n (x + dx) (y + dy) b then count + 1 else count) c ms
               = c + Z.of_nat (length (filter (λ d : offset,
                        is_valid n (x + d.1) (y + d.2) b = true) ms))) as ->; [lia|].
  induction ms as [|[dx dy] ms IH]; intros c; simpl; [lia|].
  rewrite IH, filter_cons. simpl.
  destruct (is_valid n (x + dx) (y + dy) b) eqn:E.
  - rewrite decide_True by done. simpl. lia.
  - rewrite decide_False by done. lia.
Qed.

(** The count does not depend on the order the offsets are in. *)
Lemma count_onward_moves_degree ms x y b :
  ms ≡ₚ KNIGHT_MOVES →
  count_onward_moves n ms x y b = onward_degree n x y b.
Proof.
  intros Hp. rewrite count_onward_moves_filter. unfold onward_degree.
  by rewrite Hp.
Qed.

Lemma onward_degree_bound x y b : 0 ≤ onward_degree n x y b ≤ 8.
Proof.
  unfold onward_degree.
  pose proof (length_filter (λ d : offset, is_valid n (x + d.1) (y + d.2) b = true)
                            KNIGHT_MOVES) as Hl.
  simpl in Hl. lia.
Qed.

(** The state of the candidate loop after the offsets [pre] of the order
    [ms] have been looked at. *)
Lemma select_prefix ms x y b pre :
  ms ≡ₚ KNIGHT_MOVES →
  let acc := foldl (select_step n ms x y b) (9, None) pre in
  warnsdorff_choice n pre x y b acc.2 ∧
  match acc.2 with
  | None => acc.1 = 9
  | Some c => acc.1 = onward_degree n c.1 c.2 b
  end.
Proof.
  intros Hp. induction pre as [|[dx dy] pre IH] using rev_ind; simpl.
  { split; [|done]. intros d Hd. by apply elem_of_nil in Hd. }
  rewrite foldl_snoc.
  destruct (foldl (select_step n ms x y b) (9, None) pre) as [m r].
  simpl in IH. destruct IH as [IHc IHm].
  unfold select_step. simpl.
  destruct (is_valid n (x + dx) (y + dy) b) eqn:Ev; simpl.
  - rewrite count_onward_moves_degree by done.
    pose proof (onward_degree_bound (x + dx) (y + dy) b) as Hb.
    case_bool_decide as Hlt; simpl.
    + split; [|done].
      exists (length pre), (dx, dy). split_and!.
      * by rewrite list_lookup_middle.
      * done.
      * done.
      * intros d' [Hd'| ->%list_elem_of_singleton]%elem_of_app Hv; [|done].
        destruct r as [c|]; simpl in *.
        -- destruct IHc as (i & d & _ & _ & _ & Hmin & _).
           specialize (Hmin d' Hd' Hv). lia.
        -- by destruct (IHc d' Hd').
      * intros i' d' Hi' Hl Hv. rewrite lookup_app_l in Hl by done.
        apply list_elem_of_lookup_2 in Hl.
        destruct r as [c|]; simpl in *.
        -- destruct IHc as (i & d & _ & _ & _ & Hmin & _).
           specialize (Hmin d' Hl Hv). lia.
        -- by destruct (IHc d' Hl).
    + destruct r as [c|]; simpl in *; [|lia].
      split; [|done].
      destruct IHc as (i & d & Hi & -> & Hvc & Hmin & Hfirst).
      exists i, d. split_and!; try done.
      * by apply lookup_app_l_Some.
      * intros d' [Hd'| ->%list_elem_of_singleton]%elem_of_app Hv; [by apply Hmin|].
        unfold candidate in *. simpl in *. lia.
      * intros i' d' Hi' Hl Hv. apply lookup_lt_Some in Hi as Hlt'.
        rewrite lookup_app_l in Hl by lia. by eapply Hfirst.
  - destruct r as [c|]; simpl in *; (split; [|done]).
    + destruct IHc as (i & d & Hi & -> & Hvc & Hmin & Hfirst).
      exists i, d. split_and!; try done.
      * by apply lookup_app_l_Some.
      * intros d' [Hd'| ->%list_elem_of_singleton]%elem_of_app Hv; [by apply Hmin|].
        unfold valid_at, candidate in Hv. simpl in Hv. congruence.
      * intros i' d' Hi' Hl Hv. apply lookup_lt_Some in Hi as Hlt'.
        rewrite lookup_app_l in Hl by lia. by eapply Hfirst.
    + intros d' [Hd'| ->%list_elem_of_singleton]%elem_of_app Hv; [by eapply IHc|].
      unfold valid_at, candidate in Hv. simpl in Hv. congruence.
Qed.

Lemma select_move_choice ms x y b :
  ms ≡ₚ KNIGHT_MOVES →
  warnsdorff_choice n ms x y b (select_move n ms x y b).
Proof. intros Hp. by apply (select_prefix ms x y b ms). Qed.

End Select.

(** ** Reading and writing cells *)

Lemma board_get_in_bounds n b c :
  shaped (Z.to_nat n) b → in_bounds n c →
  board_get b c.1 c.2 = at_cell b (Z.to_nat c.1) (Z.to_nat c.2).
Proof.
  intros Hs [Hx Hy]. rewrite (board_get_at (Z.to_nat n)) by done.
  by rewrite !index_nonneg by lia.
Qed.

Lemma is_valid_defined n b x y :
  shaped (Z.to_nat n) b → 0 ≤ x < n → 0 ≤ y < n → is_Some (board_get b x y).
Proof.
  intros Hs Hx Hy.
  pose proof (board_get_in_bounds n b (x, y) Hs (conj Hx Hy)) as Hget.
  simpl in Hget. rewrite Hget.
  unfold at_cell. simpl. pose proof Hs as [Hlen _].
  destruct (lookup_lt_is_Some_2 b (Z.to_nat y)) as [row Hrow]; [lia|].
  rewrite Hrow. simpl. apply lookup_lt_is_Some_2.
  rewrite (shaped_row _ _ _ _ Hs Hrow). lia.
Qed.

Lemma board_set_in_bounds n b c v :
  shaped (Z.to_nat n) b → in_bounds n c →
  board_set b c.1 c.2 v = Some (set_cell b (Z.to_nat c.1) (Z.to_nat c.2) v).
Proof.
  intros Hs [Hx Hy]. rewrite (board_set_at (Z.to_nat n)) by done.
  by rewrite !index_nonneg by lia.
Qed.

Lemma board_get_set_in_bounds n b c c' v :
  shaped (Z.to_nat n) b → in_bounds n c → in_bounds n c' →
  board_get (set_cell b (Z.to_nat c.1) (Z.to_nat c.2) v) c'.1 c'.2 =
    if decide (c = c') then Some v else board_get b c'.1 c'.2.
Proof.
  intros Hs Hc Hc'.
  rewrite (board_get_in_bounds n) by (done || by apply set_cell_shaped).
  rewrite (at_cell_set_cell (Z.to_nat n)) by (done || destruct Hc; lia).
  rewrite <-(board_get_in_bounds n) by done.
  destruct c as [x y], c' as [x' y'], Hc, Hc'. simpl in *.
  destruct (decide _) as [[E1 E2]|Hne], (decide _) as [E|Hne']; try done.
  - destruct Hne'. f_equal; lia.
  - destruct Hne. by simplify_eq.
Qed.

(** A write into a cell that holds another value leaves the cell read
    through [(x', y')] alone, whichever subscripts address it. *)
Lemma board_set_other N b x y v b' x' y' w :
  shaped N b →
  board_set b x y v = Some b' →
  board_get b x' y' = Some w →
  board_get b x y ≠ Some w →
  board_get b' x' y' = Some w.
Proof.
  intros Hs Hset Hget Hne.
  rewrite (board_set_at N) in Hset by done.
  rewrite (board_get_at N) in Hget, Hne by done.
  destruct (Py.index N x) as [i|] eqn:Hi; [|done].
  destruct (Py.index N y) as [j|] eqn:Hj; [|done].
  simplify_eq.
  rewrite (board_get_at N) by (by apply set_cell_shaped).
  destruct (Py.index N x') as [i'|]; [|done].
  destruct (Py.index N y') as [j'|]; [|done].
  rewrite (at_cell_set_cell N) by eauto using index_lt.
  destruct (decide _) as [[-> ->]|]; [|done]. congruence.
Qed.

Lemma board_set_same N b x y v b' :
  shaped N b → board_set b x y v = Some b' → board_get b' x y = Some v.
Proof.
  intros Hs Hset. rewrite (board_set_at N) in Hset by done.
  rewrite (board_get_at N).
  - destruct (Py.index N x) as [i|] eqn:Hi; [|done].
    destruct (Py.index N y) as [j|] eqn:Hj; [|done].
    simplify_eq. rewrite (at_cell_set_cell N) by eauto using index_lt.
    by rewrite decide_True.
  - destruct (Py.index N x), (Py.index N y); simplify_eq.
    by apply set_cell_shaped.
Qed.

Lemma board_set_shaped N b x y v b' :
  shaped N b → board_set b x y v = Some b' → shaped N b'.
Proof.
  intros Hs Hset. rewrite (board_set_at N) in Hset by done.
  destruct (Py.index N x), (Py.index N y); simplify_eq.
  by apply set_cell_shaped.
Qed.

(** The start square can be marked exactly when both subscripts address
    a cell, counting from either end. *)
Lemma mark_start_is_Some n x y :
  is_Some (board_set (new_board n) x y 1) ↔
  (- n ≤ x < n ∧ - n ≤ y < n).
Proof.
  rewrite (board_set_at (Z.to_nat n)) by apply new_board_shaped.
  destruct (Py.index (Z.to_nat n) x) as [i|] eqn:Hx;
    destruct (Py.index (Z.to_nat n) y) as [j|] eqn:Hy.
  - assert (is_Some (Py.index (Z.to_nat n) x)) as Hx'%index_is_Some by eauto.
    assert (is_Some (Py.index (Z.to_nat n) y)) as Hy'%index_is_Some by eauto.
    split; [lia|eauto].
  - apply index_None in Hy. split; [by intros []|]. intros [? ?].
    destruct Hy. lia.
  - apply index_None in Hx. split; [by intros []|]. intros [? ?].
    destruct Hx. lia.
  - apply index_None in Hx. split; [by intros []|]. intros [? ?].
    destruct Hx. lia.
Qed.

(** ** What a run logs *)

Section Run.

Context {G : Type} `{RandomSource G} (n : Z).

Lemma shuffle_moves (s : state G) :
  moves s ≡ₚ KNIGHT_MOVES → (shuffle (rng s) (moves s)).1 ≡ₚ KNIGHT_MOVES.
Proof. intros Hp. by rewrite shuffle_perm. Qed.

(** The destination of a move step is in bounds, unvisited, and a knight
    offset away from the current position. *)
Lemma select_move_Some ms x y b c :
  ms ≡ₚ KNIGHT_MOVES →
  select_move n ms x y b = Some c →
  ∃ d, d ∈ KNIGHT_MOVES ∧ c = candidate x y d ∧ in_bounds n c ∧
       board_get b c.1 c.2 = Some UNVISITED.
Proof.
  intros Hp Hsel. pose proof (select_move_choice n ms x y b Hp) as Hc.
  rewrite Hsel in Hc. destruct Hc as (i & d & Hi & -> & Hv & _).
  exists d. apply list_elem_of_lookup_2 in Hi. rewrite Hp in Hi.
  apply is_valid_spec in Hv. unfold in_bounds. naive_solver.
Qed.

Lemma move_loop_run move_nos : ∀ x y b (s : state G),
  shaped (Z.to_nat n) b →
  moves s ≡ₚ KNIGHT_MOVES →
  ∃ evs,
    trace (move_loop n move_nos x y b s).2 = trace s ++ evs ∧
    moves (move_loop n move_nos x y b s).2 ≡ₚ KNIGHT_MOVES ∧
    Forall (step_ok n) evs ∧
    match evs with
    | [] => True
    | e :: _ => ∃ ms next_move, e = EvStep (default 0 (head move_nos)) ms x y b next_move
    end ∧
    match (move_loop n move_nos x y b s).1 with
    | Completed b' =>
        shaped (Z.to_nat n) b' ∧ Forall is_move evs ∧ length evs = length move_nos ∧
        marked evs b = Some b'
    | DeadEnd => ∃ steps e, evs = steps ++ [e] ∧ Forall is_move steps ∧ is_dead_end e
    | Raised => False
    end.
Proof.
  induction move_nos as [|m rest IH]; intros x y b s Hs Hp; simpl.
  { exists []. by rewrite app_nil_r. }
  pose proof (shuffle_moves s Hp) as Hp'.
  destruct (shuffle (rng s) (moves s)) as [ms g]. simpl in Hp'.
  pose proof (select_move_choice n ms x y b Hp') as Hch.
  destruct (select_move n ms x y b) as [[nx ny]|] eqn:Hsel.
  - destruct (select_move_Some ms x y b _ Hp' Hsel) as (d & _ & _ & Hb & _).
    rewrite (board_set_in_bounds n b (nx, ny)) by done.
    set (b1 := set_cell b _ _ m).
    set (s1 := log _ _).
    destruct (IH nx ny b1 s1) as (evs & Ht & Hm & Hok & _ & Hres);
      [by apply set_cell_shaped|done|].
    exists (EvStep m ms x y b (Some (nx, ny)) :: evs). split_and!.
    + rewrite Ht. unfold s1. simpl. by rewrite <-app_assoc.
    + done.
    + by constructor.
    + by eexists _, _.
    + destruct (move_loop n rest nx ny b1 s1).1.
      * destruct Hres as (? & ? & ? & Hmk). split_and!; [done|by constructor| |].
        -- simpl. by f_equal.
        -- simpl. pose proof (board_set_in_bounds n b (nx, ny) m Hs Hb) as Hset.
           simpl in Hset. by rewrite Hset.
      * destruct Hres as (steps & e & -> & ? & ?).
        exists (EvStep m ms x y b (Some (nx, ny)) :: steps), e.
        split_and!; [done|by constructor|done].
      * done.
  - exists [EvStep m ms x y b None]. simpl. split_and!; try done.
    + by repeat constructor.
    + by eexists _, _.
    + exists [], (EvStep m ms x y b None). by split_and!.
Qed.

Lemma attempt_run a start_x start_y (s : state G) :
  moves s ≡ₚ KNIGHT_MOVES →
  ∃ evs,
    trace (attempt n a start_x start_y s).2 = trace s ++ EvAttempt a :: evs ∧
    moves (attempt n a start_x start_y s).2 ≡ₚ KNIGHT_MOVES ∧
    Forall (step_ok n) evs ∧
    match (attempt n a start_x start_y s).1 with
    | Completed b' =>
        shaped (Z.to_nat n) b' ∧ live_segment n start_x start_y a (EvAttempt a :: evs) ∧
        board_of n start_x start_y (EvAttempt a :: evs) = Some b'
    | DeadEnd => dead_segment n start_x start_y a (EvAttempt a :: evs)
    | Raised => evs = [] ∧ ¬ (- n ≤ start_x < n ∧ - n ≤ start_y < n)
    end.
Proof.
  intros Hp. unfold attempt.
  destruct (board_set (new_board n) start_x start_y 1) as [b|] eqn:Hset.
  - set (s1 := log _ s).
    destruct (move_loop_run (Py.range 2 (n * n + 1)) start_x start_y b s1)
      as (evs & Ht & Hm & Hok & Hhd & Hres);
      [by eapply board_set_shaped, Hset; apply new_board_shaped|done|].
    assert (fresh_start n start_x start_y evs) as Hfresh.
    { destruct evs as [|e evs]; [done|]. destruct Hhd as (ms & r & ->).
      assert (Py.range 2 (n * n + 1) ≠ []) as Hne.
      { intros Hnil. rewrite Hnil in Hres. simpl in Hres.
        destruct Hres as (_ & _ & [=] & _). }
      unfold Py.range in *. destruct (decide (0 < n * n + 1 - 2)).
      - rewrite seqZ_cons by done. simpl. by exists ms, b, r.
      - by rewrite seqZ_nil in Hne by lia. }
    exists evs. split_and!; try done.
    + rewrite Ht. unfold s1. simpl. by rewrite <-app_assoc.
    + destruct (move_loop _ _ _ _ _ _).1; [| |done].
      2: { destruct Hres as (steps & e & -> & ? & ?). by exists steps, e. }
      destruct Hres as (? & ? & Hlen & Hmk). split_and!; [done| |].
      * exists evs. split_and!; [done..| |done].
        rewrite Hlen. unfold Py.range. rewrite length_seqZ. f_equal. lia.
      * simpl. by rewrite Hset.
  - exists []. simpl. split_and!; try done.
    rewrite <-mark_start_is_Some, Hset. by intros [].
Qed.

(** The log of the attempt loop: a run of abandoned attempts, one after
    the other, then what the last attempt logged (if one did not dead-end). *)
Lemma attempt_loop_run attempts : ∀ start_x start_y (s : state G),
  moves s ≡ₚ KNIGHT_MOVES →
  ∃ dead last,
    trace (attempt_loop n attempts start_x start_y s).2
      = trace s ++ concat dead ++ last ∧
    Forall2 (dead_segment n start_x start_y) (take (length dead) attempts) dead ∧
    Forall (step_ok n) (concat dead ++ last) ∧
    match (attempt_loop n attempts start_x start_y s).1 with
    | NoTour => last = [] ∧ length dead = length attempts
    | Tour b' =>
        shaped (Z.to_nat n) b' ∧
        ∃ a, attempts !! length dead = Some a ∧ live_segment n start_x start_y a last ∧
             board_of n start_x start_y last = Some b'
    | IndexError =>
        ¬ (- n ≤ start_x < n ∧ - n ≤ start_y < n) ∧
        ∃ a, attempts !! length dead = Some a ∧ last = [EvAttempt a]
    end.
Proof.
  induction attempts as [|a rest IH]; intros start_x start_y s Hp; simpl.
  { exists [], []. simpl. rewrite app_nil_r. split_and!; first [done|constructor]. }
  destruct (attempt_run a start_x start_y s Hp) as (evs & Ht & Hm & Hok & Hres).
  destruct (attempt n a start_x start_y s) as [[b'| |] s1]; simpl in *.
  - exists [], (EvAttempt a :: evs). simpl.
    split_and!; [done|constructor|by constructor|by destruct Hres|].
    exists a. by destruct Hres.
  - destruct (IH start_x start_y s1 Hm) as (dead & last & Ht' & Hd & Hok' & Hres').
    exists ((EvAttempt a :: evs) :: dead), last. split_and!.
    + rewrite Ht', Ht. simpl. by rewrite <-!app_assoc.
    + simpl. by constructor.
    + simpl. constructor; [done|]. rewrite <-app_assoc. by apply Forall_app.
    + simpl. destruct (attempt_loop n rest start_x start_y s1).1; naive_solver.
  - destruct Hres as [-> Hr]. exists [], [EvAttempt a]. simpl.
    split_and!; [done|constructor|by repeat constructor|done|by exists a].
Qed.

End Run.

(** ** The log is the run *)

Section Chain.

Context {G : Type} `{RandomSource G} (n start_x start_y : Z).

Lemma chained_snoc evs e :
  chained n start_x start_y evs →
  (∀ e0, last evs = Some e0 → follows n start_x start_y e0 e) →
  chained n start_x start_y (evs ++ [e]).
Proof.
  intros Hch Hlast i e1 e2 H1 H2.
  apply lookup_snoc_Some in H2 as [[Hlt H2]|[Hi <-]].
  - rewrite lookup_app_l in H1 by lia. by eapply Hch.
  - rewrite lookup_app_l in H1 by lia. apply Hlast.
    by rewrite last_lookup, <-Hi.
Qed.

Lemma move_loop_chain (k : nat) : ∀ m0 x y b (s : state G) e0,
  shaped (Z.to_nat n) b →
  moves s ≡ₚ KNIGHT_MOVES →
  chained n start_x start_y (trace s) →
  last (trace s) = Some e0 →
  produces n start_x start_y e0 b x y →
  next_no e0 = m0 →
  chained n start_x start_y (trace (move_loop n (seqZ m0 (Z.of_nat k)) x y b s).2) ∧
  match (move_loop n (seqZ m0 (Z.of_nat k)) x y b s).1 with
  | Completed b' =>
      ∃ e x' y', last (trace (move_loop n (seqZ m0 (Z.of_nat k)) x y b s).2) = Some e ∧
                 produces n start_x start_y e b' x' y'
  | DeadEnd =>
      ∃ e, last (trace (move_loop n (seqZ m0 (Z.of_nat k)) x y b s).2) = Some e ∧
           is_dead_end e
  | Raised => True
  end.
Proof.
  induction k as [|k IH]; intros m0 x y b s e0 Hs Hp Hch Hlast Hprod Hno.
  { simpl. split; [done|]. by exists e0, x, y. }
  rewrite seqZ_cons by lia. simpl.
  pose proof (shuffle_moves s Hp) as Hp'.
  destruct (shuffle (rng s) (moves s)) as [ms g]. simpl in Hp'.
  assert (∀ r, chained n start_x start_y (trace s ++ [EvStep m0 ms x y b r])) as Hch'.
  { intros r. apply chained_snoc; [done|]. intros e He.
    assert (e = e0) as -> by congruence. unfold follows.
    destruct e0 as [a|m ms0 x0 y0 b0 [[nx0 ny0]|]]; [| |done];
      exists ms, b, x, y, r; by rewrite Hno. }
  destruct (select_move n ms x y b) as [[nx ny]|] eqn:Hsel.
  - destruct (select_move_Some n ms x y b _ Hp' Hsel) as (d & _ & _ & Hb & _).
    pose proof (board_set_in_bounds n b (nx, ny) m0 Hs Hb) as Hset.
    simpl in Hset. rewrite Hset.
    replace (Z.pred (Z.of_nat (S k))) with (Z.of_nat k) by lia.
    eapply IH; simpl; [by apply set_cell_shaped|done|apply Hch'| | |].
    + apply last_snoc.
    + done.
    + simpl. lia.
  - simpl. split; [apply Hch'|]. eexists. by rewrite last_snoc.
Qed.

Lemma attempt_chain a (s : state G) :
  moves s ≡ₚ KNIGHT_MOVES →
  chained n start_x start_y (trace s) →
  (∀ e, last (trace s) = Some e → is_dead_end e) →
  chained n start_x start_y (trace (attempt n a start_x start_y s).2) ∧
  match (attempt n a start_x start_y s).1 with
  | Completed b' =>
      ∃ e x' y', last (trace (attempt n a start_x start_y s).2) = Some e ∧
                 produces n start_x start_y e b' x' y'
  | DeadEnd =>
      ∃ e, last (trace (attempt n a start_x start_y s).2) = Some e ∧ is_dead_end e
  | Raised => True
  end.
Proof.
  intros Hp Hch Hlast. unfold attempt.
  assert (chained n start_x start_y (trace s ++ [EvAttempt a])) as Hch'.
  { apply chained_snoc; [done|]. intros e He%Hlast.
    destruct e as [|m ms x y b [c|]]; try done. by exists a. }
  destruct (board_set (new_board n) start_x start_y 1) as [b|] eqn:Hset; [|done].
  unfold Py.range.
  destruct (decide (0 ≤ n * n + 1 - 2)) as [Hk|Hk].
  - replace (n * n + 1 - 2) with (Z.of_nat (Z.to_nat (n * n + 1 - 2))) by lia.
    eapply (move_loop_chain _ 2 start_x start_y b (log (EvAttempt a) s) (EvAttempt a));
      simpl; [|done|done|apply last_snoc|done|done].
    eapply board_set_shaped; [apply new_board_shaped|done].
  - rewrite seqZ_nil by lia. simpl. split; [done|].
    exists (EvAttempt a), start_x, start_y. by rewrite last_snoc.
Qed.

Lemma attempt_loop_chain attempts : ∀ (s : state G),
  moves s ≡ₚ KNIGHT_MOVES →
  chained n start_x start_y (trace s) →
  (∀ e, last (trace s) = Some e → is_dead_end e) →
  chained n start_x start_y (trace (attempt_loop n attempts start_x start_y s).2) ∧
  match (attempt_loop n attempts start_x start_y s).1 with
  | Tour b' =>
      ∃ e x' y', last (trace (attempt_loop n attempts start_x start_y s).2) = Some e ∧
                 produces n start_x start_y e b' x' y'
  | _ => True
  end.
Proof.
  induction attempts as [|a rest IH]; intros s Hp Hch Hlast; simpl; [done|].
  destruct (attempt_chain a s Hp Hch Hlast) as [Hch' Hres].
  destruct (attempt_run n a start_x start_y s Hp) as (_ & _ & Hm & _).
  destruct (attempt n a start_x start_y s) as [[b'| |] s1]; simpl in *; [done| |done].
  apply IH; [done..|]. intros e He. destruct Hres as (e' & He' & ?). congruence.
Qed.

End Chain.

(** ** Boards in row-major order *)

Lemma length_concat_rows N (b : Board) :
  Forall (λ row, length row = N) b → length (concat b) = (length b * N)%nat.
Proof.
  induction 1 as [|row b Hrow _ IH]; simpl; [done|].
  rewrite length_app, IH, Hrow. done.
Qed.

Lemma concat_lookup_rows N (b : Board) i j :
  Forall (λ row, length row = N) b → (i < N)%nat →
  concat b !! (j * N + i)%nat = at_cell b i j.
Proof.
  intros Hrows Hi. revert j.
  induction Hrows as [|row b Hrow _ IH]; intros j; simpl; [by destruct j|].
  destruct j as [|j]; simpl.
  - unfold at_cell. simpl. by rewrite lookup_app_l by lia.
  - rewrite lookup_app_r by lia. rewrite Hrow.
    replace (N + j * N + i - N)%nat with (j * N + i)%nat by lia.
    by rewrite IH.
Qed.

Lemma flat_in_bounds N a : (a < N * N)%nat → in_bounds (Z.of_nat N) (flat N a).
Proof.
  intros Ha. assert (N ≠ 0)%nat as HN by lia.
  pose proof (Nat.mod_upper_bound a N HN).
  assert (a `div` N < N)%nat by (apply Nat.Div0.div_lt_upper_bound; lia).
  unfold in_bounds, flat. simpl. lia.
Qed.

Lemma flat_inj N a a' : flat N a = flat N a' → a = a'.
Proof.
  unfold flat. intros [= Hm Hd].
  rewrite (Nat.div_mod_eq a N), (Nat.div_mod_eq a' N). lia.
Qed.

Lemma flat_surj N c :
  in_bounds (Z.of_nat N) c →
  ∃ a, (a < N * N)%nat ∧ flat N a = c.
Proof.
  destruct c as [x y]. intros [Hx Hy]. simpl in *.
  exists (Z.to_nat y * N + Z.to_nat x)%nat. split; [nia|].
  unfold flat.
  rewrite <-(Nat.mod_unique (Z.to_nat y * N + Z.to_nat x) N (Z.to_nat y) (Z.to_nat x))
    by lia.
  rewrite <-(Nat.div_unique (Z.to_nat y * N + Z.to_nat x) N (Z.to_nat y) (Z.to_nat x))
    by lia.
  f_equal; lia.
Qed.

(** The [a]-th element of the flattened board is the cell at [flat N a]. *)
Lemma concat_lookup_flat N (b : Board) a :
  shaped N b → (a < N * N)%nat →
  concat b !! a = board_get b (flat N a).1 (flat N a).2.
Proof.
  intros Hs Ha. assert (N ≠ 0)%nat as HN by lia.
  pose proof (flat_in_bounds N a Ha) as Hb.
  rewrite (board_get_in_bounds (Z.of_nat N)) by (by rewrite ?Nat2Z.id).
  unfold flat. simpl. rewrite !Nat2Z.id.
  destruct Hs as [_ Hrows].
  rewrite <-(concat_lookup_rows N) by (done || by apply Nat.mod_upper_bound).
  f_equal. rewrite (Nat.div_mod_eq a N) at 1. lia.
Qed.

Lemma length_concat_shaped N (b : Board) : shaped N b → length (concat b) = (N * N)%nat.
Proof. intros [Hl Hr]. by rewrite (length_concat_rows N), Hl. Qed.

(** *** A completed board, cell by cell *)

Lemma complete_board_intro n (b : Board) :
  0 ≤ n →
  shaped (Z.to_nat n) b →
  (∀ c, in_bounds n c → ∃ k, board_get b c.1 c.2 = Some k ∧ 1 ≤ k ≤ n * n) →
  (∀ c c', in_bounds n c → in_bounds n c' →
     board_get b c.1 c.2 = board_get b c'.1 c'.2 → c = c') →
  complete_board n b.
Proof.
  intros Hn Hs Hrange Hinj. split; [done|].
  set (N := Z.to_nat n) in *. assert (n = Z.of_nat N) as Hn' by lia.
  apply submseteq_length_Permutation.
  - apply NoDup_submseteq.
    + apply NoDup_alt. intros a a' v Ha Ha'.
      apply lookup_lt_Some in Ha as Hla. apply lookup_lt_Some in Ha' as Hla'.
      rewrite (length_concat_shaped N) in Hla, Hla' by done.
      rewrite (concat_lookup_flat N) in Ha, Ha' by done.
      apply (flat_inj N), Hinj; rewrite ?Hn'; try by apply flat_in_bounds.
      congruence.
    + intros v [a Ha]%list_elem_of_lookup.
      apply lookup_lt_Some in Ha as Hla.
      rewrite (length_concat_shaped N) in Hla by done.
      rewrite (concat_lookup_flat N) in Ha by done.
      destruct (Hrange (flat N a)) as (k & Hk & ?);
        [rewrite Hn'; by apply flat_in_bounds|].
      rewrite elem_of_seqZ. simplify_eq. lia.
  - rewrite length_seqZ, (length_concat_shaped N) by done. lia.
Qed.

Lemma complete_board_cell n (b : Board) c :
  complete_board n b → in_bounds n c →
  ∃ k, board_get b c.1 c.2 = Some k ∧ 1 ≤ k ≤ n * n.
Proof.
  intros [Hs Hp] Hc. set (N := Z.to_nat n) in *.
  assert (n = Z.of_nat N) as Hn' by (destruct Hc; lia).
  destruct (flat_surj N c) as (a & Ha & <-); [by rewrite <-Hn'|].
  rewrite <-(concat_lookup_flat N) by done.
  destruct (lookup_lt_is_Some_2 (concat b) a) as [k Hk];
    [by rewrite (length_concat_shaped N)|].
  exists k. split; [done|].
  apply list_elem_of_lookup_2 in Hk. rewrite Hp, elem_of_seqZ in Hk. lia.
Qed.

Lemma complete_board_inj n (b : Board) c c' :
  complete_board n b → in_bounds n c → in_bounds n c' →
  board_get b c.1 c.2 = board_get b c'.1 c'.2 → c = c'.
Proof.
  intros Hcb Hc Hc' Heq. pose proof Hcb as [Hs Hp]. set (N := Z.to_nat n) in *.
  assert (n = Z.of_nat N) as Hn' by (destruct Hc; lia).
  destruct (complete_board_cell n b c Hcb Hc) as (k & Hk & _).
  rewrite Hk in Heq. symmetry in Heq.
  destruct (flat_surj N c) as (a & Ha & <-); [by rewrite <-Hn'|].
  destruct (flat_surj N c') as (a' & Ha' & <-); [by rewrite <-Hn'|].
  rewrite <-(concat_lookup_flat N) in Hk, Heq by done.
  f_equal. eapply NoDup_lookup; [|done..].
  rewrite Hp. apply NoDup_seqZ.
Qed.

Lemma complete_board_holds n (b : Board) k :
  complete_board n b → 1 ≤ k ≤ n * n →
  ∃ c, in_bounds n c ∧ board_get b c.1 c.2 = Some k.
Proof.
  intros [Hs Hp] Hk. set (N := Z.to_nat n) in *.
  assert (k ∈ concat b) as [a Ha]%list_elem_of_lookup
    by (rewrite Hp, elem_of_seqZ; lia).
  apply lookup_lt_Some in Ha as Hla.
  rewrite (length_concat_shaped N) in Hla by done.
  assert (n = Z.of_nat N) as Hn' by lia.
  exists (flat N a). split; [rewrite Hn'; by apply flat_in_bounds|].
  by rewrite <-(concat_lookup_flat N).
Qed.

(** ** The path of an attempt *)

Section Path.

Context {G : Type} `{RandomSource G} (n : Z).

Lemma path_inv_start start_x start_y b :
  in_bounds n (start_x, start_y) →
  board_set (new_board n) start_x start_y 1 = Some b →
  path_inv n b [(start_x, start_y)].
Proof.
  intros Hb Hset.
  pose proof (new_board_shaped n) as Hs0.
  rewrite (board_set_in_bounds n _ (start_x, start_y)) in Hset by done.
  injection Hset as <-.
  pose proof (board_get_set_in_bounds n (new_board n) (start_x, start_y)) as Hgs.
  split_and!.
  - by apply set_cell_shaped.
  - apply NoDup_singleton.
  - by intros c ->%list_elem_of_singleton.
  - intros i c [-> <-]%list_lookup_singleton_Some.
    rewrite Hgs by done. by rewrite decide_True.
  - intros c Hc Hnot. rewrite list_elem_of_singleton in Hnot.
    rewrite Hgs by done. rewrite decide_False by done.
    rewrite (board_get_in_bounds n) by done.
    destruct Hc. apply new_board_at; lia.
  - intros i c c' _ Hc'. by destruct i.
Qed.

Lemma path_inv_step b p x y d :
  path_inv n b p →
  last p = Some (x, y) →
  d ∈ KNIGHT_MOVES →
  in_bounds n (candidate x y d) →
  board_get b (candidate x y d).1 (candidate x y d).2 = Some UNVISITED →
  path_inv n
    (set_cell b (Z.to_nat (candidate x y d).1) (Z.to_nat (candidate x y d).2)
              (Z.of_nat (length p) + 1))
    (p ++ [candidate x y d]).
Proof.
  intros (Hs & Hnd & Hbd & Hvis & Hun & Hmv) Hlast Hd Hc Hfree.
  set (c := candidate x y d) in *.
  assert (c ∉ p) as Hnew.
  { intros [i Hi]%list_elem_of_lookup. apply Hvis in Hi.
    rewrite Hfree in Hi. unfold UNVISITED in Hi. simplify_eq. lia. }
  split_and!.
  - by apply set_cell_shaped.
  - apply NoDup_app. split_and!; [done| |apply NoDup_singleton].
    intros c' Hc' ->%list_elem_of_singleton. done.
  - intros c' [Hc'| ->%list_elem_of_singleton]%elem_of_app; [by apply Hbd|done].
  - intros i c' [[Hi Hl]|[-> <-]]%lookup_snoc_Some.
    + assert (c' ∈ p) by by eapply list_elem_of_lookup_2.
      rewrite (board_get_set_in_bounds n) by auto.
      rewrite decide_False by (by intros ->). by apply Hvis.
    + rewrite (board_get_set_in_bounds n) by auto. by rewrite decide_True.
  - intros c' Hc' Hnot. rewrite elem_of_app, list_elem_of_singleton in Hnot.
    rewrite (board_get_set_in_bounds n) by auto.
    rewrite decide_False by naive_solver. apply Hun; naive_solver.
  - intros i c1 c2 Hi HSi.
    apply lookup_snoc_Some in HSi as [[HSi Hl]|[HSi <-]].
    + rewrite lookup_app_l in Hi by lia. by eapply Hmv.
    + rewrite lookup_app_l in Hi by lia.
      rewrite last_lookup, <-HSi in Hlast. simpl in Hlast.
      rewrite Hlast in Hi. injection Hi as <-.
      destruct d as [dx dy]. unfold c, candidate. simpl.
      by replace (x + dx - x) with dx by lia; replace (y + dy - y) with dy by lia.
Qed.

(** Running [k] more moves from a path of length [length p]: on
    completion the path has grown by [k] squares. *)
Lemma move_loop_path (k : nat) : ∀ x y b (s : state G) p b',
  path_inv n b p →
  last p = Some (x, y) →
  moves s ≡ₚ KNIGHT_MOVES →
  (move_loop n (seqZ (Z.of_nat (length p) + 1) (Z.of_nat k)) x y b s).1 = Completed b' →
  ∃ p', path_inv n b' (p ++ p') ∧ length p' = k.
Proof.
  induction k as [|k IH]; intros x y b s p b' Hinv Hlast Hp Hrun.
  { simpl in Hrun. injection Hrun as <-. exists []. by rewrite app_nil_r. }
  rewrite seqZ_cons in Hrun by lia. simpl in Hrun.
  pose proof (shuffle_moves s Hp) as Hp'.
  destruct (shuffle (rng s) (moves s)) as [ms g]. simpl in Hp'.
  destruct (select_move n ms x y b) as [[nx ny]|] eqn:Hsel; [|done].
  destruct (select_move_Some n ms x y b _ Hp' Hsel) as (d & Hd & Hc & Hb & Hfree).
  pose proof Hinv as (Hs & _).
  rewrite (board_set_in_bounds n b (nx, ny)) in Hrun by done.
  pose proof (path_inv_step b p x y d Hinv Hlast Hd) as Hstep.
  rewrite <-Hc in Hstep. specialize (Hstep Hb Hfree). simpl in Hstep.
  destruct (IH nx ny _ (log (EvStep (Z.of_nat (length p) + 1) ms x y b (Some (nx, ny)))
                             (State g ms (trace s)))
               (p ++ [(nx, ny)]) b' Hstep) as (p' & Hinv' & Hlen).
  - by rewrite last_snoc.
  - done.
  - rewrite length_app. simpl.
    replace (Z.of_nat (length p + 1) + 1) with (Z.succ (Z.of_nat (length p) + 1)) by lia.
    by replace (Z.of_nat k) with (Z.pred (Z.of_nat (S k))) by lia.
  - exists ((nx, ny) :: p'). rewrite <-app_assoc in Hinv'. split; [done|].
    simpl. by f_equal.
Qed.

(** A completed attempt from an in-range start has visited [n * n]
    squares, the first of them the start. *)
Lemma attempt_path a start_x start_y (s : state G) b' :
  in_bounds n (start_x, start_y) →
  moves s ≡ₚ KNIGHT_MOVES →
  (attempt n a start_x start_y s).1 = Completed b' →
  ∃ p, path_inv n b' p ∧ length p = Z.to_nat (n * n) ∧
       p !! 0%nat = Some (start_x, start_y).
Proof.
  intros Hb Hp Hrun. unfold attempt in Hrun.
  destruct (board_set (new_board n) start_x start_y 1) as [b|] eqn:Hset; [|done].
  pose proof (path_inv_start start_x start_y b Hb Hset) as Hinv.
  assert (1 ≤ n) as Hn by (destruct Hb; simpl in *; lia).
  unfold Py.range in Hrun.
  replace (n * n + 1 - 2) with (Z.of_nat (Z.to_nat (n * n - 1))) in Hrun by nia.
  destruct (move_loop_path (Z.to_nat (n * n - 1)) start_x start_y b
              (log (EvAttempt a) s) [(start_x, start_y)] b' Hinv eq_refl Hp Hrun)
    as (p' & Hinv' & Hlen).
  exists ([(start_x, start_y)] ++ p'). split_and!; [done| |done].
  simpl. rewrite Hlen. nia.
Qed.

(** The board a call returns is the board of a completed attempt. *)
Lemma attempt_loop_Tour attempts : ∀ start_x start_y (s : state G) b',
  moves s ≡ₚ KNIGHT_MOVES →
  (attempt_loop n attempts start_x start_y s).1 = Tour b' →
  ∃ a s0, a ∈ attempts ∧ moves s0 ≡ₚ KNIGHT_MOVES ∧
          (attempt n a start_x start_y s0).1 = Completed b'.
Proof.
  induction attempts as [|a rest IH]; intros start_x start_y s b' Hp Hrun;
    simpl in Hrun; [done|].
  destruct (attempt_run n a start_x start_y s Hp) as (_ & _ & Hm & _).
  destruct (attempt n a start_x start_y s) as [[b| |] s1] eqn:Ha; simpl in *.
  - injection Hrun as ->. exists a, s. rewrite Ha. split_and!; [left|done..].
  - destruct (IH _ _ _ _ Hm Hrun) as (a0 & s0 & ? & ? & ?).
    exists a0, s0. split_and!; [by right|done..].
  - done.
Qed.

(** Every square of a full path is on it. *)
Lemma full_path_covers b p c :
  path_inv n b p → length p = Z.to_nat (n * n) → in_bounds n c → c ∈ p.
Proof.
  intros (Hs & Hnd & Hbd & _) Hlen Hc.
  set (N := Z.to_nat n). assert (n = Z.of_nat N) as Hn by (destruct Hc; lia).
  set (cells := flat N <$> seq 0 (N * N)).
  assert (p ≡ₚ cells) as ->.
  { apply submseteq_length_Permutation.
    - apply NoDup_submseteq; [done|]. intros c' Hc'%Hbd.
      rewrite Hn in Hc'. destruct (flat_surj N c' Hc') as (a & Ha & <-).
      apply list_elem_of_fmap_2, elem_of_seq. lia.
    - unfold cells. rewrite length_fmap, length_seq. lia. }
  rewrite Hn in Hc. destruct (flat_surj N c Hc) as (a & Ha & <-).
  apply list_elem_of_fmap_2, elem_of_seq. lia.
Qed.

Lemma full_path_complete b p :
  1 ≤ n → path_inv n b p → length p = Z.to_nat (n * n) → complete_board n b.
Proof.
  intros Hn Hinv Hlen. pose proof Hinv as (Hs & Hnd & Hbd & Hvis & _).
  apply complete_board_intro; [lia|done| |].
  - intros c Hc. pose proof (full_path_covers b p c Hinv Hlen Hc) as Hin.
    apply list_elem_of_lookup in Hin as [i Hi].
    exists (Z.of_nat i + 1). split; [by apply Hvis|].
    apply lookup_lt_Some in Hi. lia.
  - intros c c' Hc Hc' Heq.
    pose proof (full_path_covers b p c Hinv Hlen Hc) as [i Hi]%list_elem_of_lookup.
    pose proof (full_path_covers b p c' Hinv Hlen Hc') as [i' Hi']%list_elem_of_lookup.
    rewrite (Hvis _ _ Hi), (Hvis _ _ Hi') in Heq.
    assert (i = i') as -> by (simplify_eq; lia). congruence.
Qed.

(** Once a cell holds a move number, the rest of the attempt leaves it
    alone: later writes go to unvisited cells only. *)
Lemma move_loop_keeps move_nos : ∀ x y b (s : state G) x0 y0 w b',
  shaped (Z.to_nat n) b →
  moves s ≡ₚ KNIGHT_MOVES →
  board_get b x0 y0 = Some w → w ≠ UNVISITED →
  (move_loop n move_nos x y b s).1 = Completed b' →
  board_get b' x0 y0 = Some w.
Proof.
  induction move_nos as [|m rest IH]; intros x y b s x0 y0 w b' Hs Hp Hget Hw Hrun;
    simpl in Hrun.
  { by injection Hrun as <-. }
  pose proof (shuffle_moves s Hp) as Hp'.
  destruct (shuffle (rng s) (moves s)) as [ms g]. simpl in Hp'.
  destruct (select_move n ms x y b) as [[nx ny]|] eqn:Hsel; [|done].
  destruct (select_move_Some n ms x y b _ Hp' Hsel) as (d & Hd & Hc & Hb & Hfree).
  destruct (board_set b nx ny m) as [b1|] eqn:Hset; [|done].
  eapply IH in Hrun; [done| |done| |done].
  - by eapply board_set_shaped.
  - eapply board_set_other; [done..|]. simpl in Hfree. rewrite Hfree. congruence.
Qed.

End Path.

(** ** The properties of [generate_knights_tour_nxn] *)

Lemma KNIGHT_MOVES_spec (d : offset) :
  d ∈ KNIGHT_MOVES ↔
  (Z.abs d.1 = 1 ∧ Z.abs d.2 = 2) ∨ (Z.abs d.1 = 2 ∧ Z.abs d.2 = 1).
Proof.
  destruct d as [dx dy]. unfold KNIGHT_MOVES. simpl.
  rewrite !elem_of_cons, elem_of_nil. split.
  - intros Hd. repeat (destruct Hd as [[= -> ->]|Hd]; [simpl; lia|]). done.
  - intros Hd.
    assert (dx = 1 ∨ dx = -1 ∨ dx = 2 ∨ dx = -2) as Hx by lia.
    assert (dy = 1 ∨ dy = -1 ∨ dy = 2 ∨ dy = -2) as Hy by lia.
    destruct Hx as [->|[->|[->| ->]]], Hy as [->|[->|[->| ->]]];
      simpl in Hd; try lia; naive_solver.
Qed.

Lemma range_0_cons m : 1 ≤ m → Py.range 0 m = 0 :: seqZ 1 (m - 1).
Proof.
  intros Hm. unfold Py.range. rewrite Z.sub_0_r, seqZ_cons by lia.
  by replace (Z.pred m) with (m - 1) by lia.
Qed.

Lemma take_range k m :
  (k ≤ Z.to_nat m)%nat → take k (Py.range 0 m) = seqZ 0 (Z.of_nat k).
Proof.
  intros Hk. unfold Py.range. rewrite Z.sub_0_r. apply list_eq. intros i.
  destruct (decide (i < k)%nat).
  - rewrite lookup_take_lt by done. by rewrite !lookup_seqZ_lt by lia.
  - rewrite lookup_take_ge by lia. by rewrite lookup_seqZ_ge by lia.
Qed.

Section Claims.

Context {G : Type} `{RandomSource G}.

(** C10.  With [max_attempts ≤ 0] the attempt loop has nothing to run
    over: the call returns [None] at once, no attempt is started (so no
    board is allocated) and the random source is not touched. *)
Theorem no_attempts_no_tour (n start_x start_y max_attempts : Z) (g : G) :
  max_attempts ≤ 0 →
  generate_knights_tour_nxn n start_x start_y max_attempts g
  = (NoTour, State g KNIGHT_MOVES []).
Proof.
  intros Hm. unfold generate_knights_tour_nxn, Py.range.
  by rewrite seqZ_nil by lia.
Qed.

(** C7.  On the 1 by 1 board started at (0, 0), with at least one attempt
    allowed, the first attempt succeeds and returns the board whose only
    cell holds 1; the log shows this single attempt and no move step, and
    the random source is not touched. *)
Theorem trivial_board (max_attempts : Z) (g : G) :
  1 ≤ max_attempts →
  generate_knights_tour_nxn 1 0 0 max_attempts g
  = (Tour [[1]], State g KNIGHT_MOVES [EvAttempt 0]).
Proof.
  intros Hm. unfold generate_knights_tour_nxn.
  by rewrite range_0_cons.
Qed.

(** C1 (as the code has it).  The function has no start check of its own.
    When at least one attempt is made: a start subscript outside
    [-n, n) on either axis makes the marking of the start square raise
    [IndexError] in the first attempt, before any move step and before
    the random source is used; a start whose subscripts both lie in
    [-n, n), negative ones included, raises nothing.  The range check is
    the caller's: [start_tour] makes no call for a start off the board. *)
Theorem start_not_checked (n start_x start_y max_attempts : Z) (g : G) :
  1 ≤ max_attempts →
  (¬ (- n ≤ start_x < n ∧ - n ≤ start_y < n) →
     generate_knights_tour_nxn n start_x start_y max_attempts g
     = (IndexError, State g KNIGHT_MOVES [EvAttempt 0])) ∧
  ((- n ≤ start_x < n ∧ - n ≤ start_y < n) →
     (generate_knights_tour_nxn n start_x start_y max_attempts g).1 ≠ IndexError) ∧
  (¬ in_bounds n (start_x, start_y) → start_tour_call n start_y start_x g = None).
Proof.
  intros Hm. split_and!.
  - intros Hout. unfold generate_knights_tour_nxn. rewrite range_0_cons by done.
    simpl. unfold attempt.
    destruct (board_set (new_board n) start_x start_y 1) as [b|] eqn:Hset; [|done].
    destruct Hout. apply mark_start_is_Some. eauto.
  - intros Hin Herr. unfold generate_knights_tour_nxn in Herr.
    destruct (attempt_loop_run n (Py.range 0 max_attempts) start_x start_y
                (State g KNIGHT_MOVES [])) as (dead & last & _ & _ & _ & Hres);
      [done|].
    rewrite Herr in Hres. by destruct Hres as [Hout _].
  - intros Hout. unfold start_tour_call, start_tour_checks.
    rewrite (bool_decide_eq_false_2 (0 ≤ start_y < n ∧ 0 ≤ start_x < n)).
    + by rewrite andb_false_r.
    + unfold in_bounds in Hout. simpl in Hout. tauto.
Qed.

(** C4.  The cell the start subscripts address holds 1 in every returned
    board: it is marked before the first move, and moves are only written
    into unvisited cells. *)
Theorem start_holds_1 (n start_x start_y max_attempts : Z) (g : G) (b : Board) :
  (generate_knights_tour_nxn n start_x start_y max_attempts g).1 = Tour b →
  board_get b start_x start_y = Some 1.
Proof.
  intros Hrun. unfold generate_knights_tour_nxn in Hrun.
  apply attempt_loop_Tour in Hrun as (a & s0 & _ & Hp & Hrun); [|done].
  unfold attempt in Hrun.
  destruct (board_set (new_board n) start_x start_y 1) as [b0|] eqn:Hset; [|done].
  pose proof (new_board_shaped n) as Hs.
  eapply move_loop_keeps in Hrun; [done| |done| |done].
  - by eapply board_set_shaped.
  - by eapply board_set_same.
Qed.

(** C2.  From a start inside the board, a returned board is [n] by [n]
    and its cell values are the numbers 1..n² in some order: every cell
    holds a move number between 1 and n² (none is unvisited) and no two
    cells hold the same one. *)
Theorem tour_is_permutation (n start_x start_y max_attempts : Z) (g : G) (b : Board) :
  in_bounds n (start_x, start_y) →
  (generate_knights_tour_nxn n start_x start_y max_attempts g).1 = Tour b →
  complete_board n b ∧
  (∀ c, in_bounds n c →
     ∃ k, board_get b c.1 c.2 = Some k ∧ 1 ≤ k ≤ n * n ∧ k ≠ UNVISITED) ∧
  (∀ c c', in_bounds n c → in_bounds n c' →
     board_get b c.1 c.2 = board_get b c'.1 c'.2 → c = c').
Proof.
  intros Hb Hrun. unfold generate_knights_tour_nxn in Hrun.
  apply attempt_loop_Tour in Hrun as (a & s0 & _ & Hp & Hrun); [|done].
  destruct (attempt_path n a start_x start_y s0 b Hb Hp Hrun) as (p & Hinv & Hlen & _).
  assert (1 ≤ n) by (destruct Hb; simpl in *; lia).
  pose proof (full_path_complete n b p) as Hcb.
  split_and!; [by apply Hcb| |].
  - intros c Hc. destruct (complete_board_cell n b c) as (k & ? & ?); [by apply Hcb|done|].
    exists k. unfold UNVISITED. split; [done|lia].
  - intros c c' Hc Hc'. apply (complete_board_inj n b); [by apply Hcb|done..].
Qed.

(** C3 (as the code has it).  From a start inside the board, consecutive
    move numbers of a returned board sit a knight's move apart: for every
    k with 1 ≤ k < n², cells holding k and k+1 exist, and whichever cells
    hold them differ by one of the eight offsets (±1,±2), (±2,±1). *)
Theorem tour_moves_legal (n start_x start_y max_attempts : Z) (g : G) (b : Board) (k : Z) :
  in_bounds n (start_x, start_y) →
  (generate_knights_tour_nxn n start_x start_y max_attempts g).1 = Tour b →
  1 ≤ k < n * n →
  (∃ c c', in_bounds n c ∧ in_bounds n c' ∧
           board_get b c.1 c.2 = Some k ∧ board_get b c'.1 c'.2 = Some (k + 1)) ∧
  (∀ c c', in_bounds n c → in_bounds n c' →
     board_get b c.1 c.2 = Some k → board_get b c'.1 c'.2 = Some (k + 1) →
     (c'.1 - c.1, c'.2 - c.2) ∈ KNIGHT_MOVES ∧
     ((Z.abs (c'.1 - c.1) = 1 ∧ Z.abs (c'.2 - c.2) = 2) ∨
      (Z.abs (c'.1 - c.1) = 2 ∧ Z.abs (c'.2 - c.2) = 1))).
Proof.
  intros Hb Hrun Hk. unfold generate_knights_tour_nxn in Hrun.
  apply attempt_loop_Tour in Hrun as (a & s0 & _ & Hp & Hrun); [|done].
  destruct (attempt_path n a start_x start_y s0 b Hb Hp Hrun) as (p & Hinv & Hlen & _).
  pose proof Hinv as (Hs & Hnd & Hbd & Hvis & _ & Hmv).
  destruct (lookup_lt_is_Some_2 p (Z.to_nat (k - 1))) as [c1 Hc1]; [lia|].
  destruct (lookup_lt_is_Some_2 p (S (Z.to_nat (k - 1)))) as [c2 Hc2]; [lia|].
  pose proof (Hvis _ _ Hc1) as Hv1. pose proof (Hvis _ _ Hc2) as Hv2.
  replace (Z.of_nat (Z.to_nat (k - 1)) + 1) with k in Hv1 by lia.
  replace (Z.of_nat (S (Z.to_nat (k - 1))) + 1) with (k + 1) in Hv2 by lia.
  assert (in_bounds n c1) as Hb1 by (by eapply Hbd, list_elem_of_lookup_2).
  assert (in_bounds n c2) as Hb2 by (by eapply Hbd, list_elem_of_lookup_2).
  assert (1 ≤ n) by (destruct Hb; simpl in *; lia).
  pose proof (full_path_complete n b p) as Hcb.
  split; [by exists c1, c2|].
  intros c c' Hc Hc' Hg Hg'.
  assert (c = c1) as -> by (apply (complete_board_inj n b); [by apply Hcb|done..|congruence]).
  assert (c' = c2) as -> by (apply (complete_board_inj n b); [by apply Hcb|done..|congruence]).
  pose proof (Hmv _ _ _ Hc1 Hc2) as Hd. split; [done|].
  by apply KNIGHT_MOVES_spec in Hd.
Qed.

End Claims.

(** ** The projection to move positions *)

(** The cells in the order the two loops of the projection scan them. *)
Lemma foldl_bind {A B C} (f : A → B → A) (g : C → list B) (l : list C) (a : A) :
  foldl f a (l ≫= g) = foldl (λ a y, foldl f a (g y)) a l.
Proof.
  revert a. induction l as [|y l IH]; intros a; [done|].
  by rewrite bind_cons, foldl_app, IH.
Qed.

Lemma project_scan (b : Board) (n : Z) :
  project b n =
  foldl (λ acc (c : coord), project_cell b c.2 acc c.1)
        (Some (replicate (Z.to_nat (n * n)) None))
        (Py.range 0 n ≫= λ y, (λ x, (x, y)) <$> Py.range 0 n).
Proof.
  unfold project. rewrite foldl_bind.
  generalize (Some (replicate (Z.to_nat (n * n)) (None : option coord))) as acc.
  induction (Py.range 0 n) as [|y ys IH] at 1 3; intros acc; simpl; [done|].
  rewrite <-IH. f_equal. unfold project_row. by rewrite foldl_fmap.
Qed.

Section Project.

Context (n : Z) (b : Board) (Hcb : complete_board n b).

Lemma project_cell_projected seen acc c :
  in_bounds n c → projected n b seen acc →
  projected n b (λ c', seen c' ∨ c' = c) (project_cell b c.2 acc c.1).
Proof.
  intros Hc (mp & -> & Hlen & Hmp).
  destruct (complete_board_cell n b c Hcb Hc) as (k & Hk & Hrange).
  unfold project_cell. simpl. rewrite Hk. simpl.
  rewrite bool_decide_eq_true_2 by lia.
  unfold Py.setitem. rewrite index_nonneg by lia. simpl.
  eexists. split; [done|]. split; [by rewrite length_insert|].
  intros c' k' Hc' Hseen Hk'.
  destruct (decide (c' = c)) as [->|Hne].
  - assert (k' = k) as -> by congruence.
    destruct c. apply list_lookup_insert_eq. lia.
  - destruct Hseen as [Hseen|]; [|done].
    destruct (complete_board_cell n b c' Hcb Hc') as (k'' & Hk'' & Hrange').
    assert (k'' = k') as -> by congruence.
    rewrite list_lookup_insert_ne; [by apply Hmp|].
    intros Heq. apply Hne. apply (complete_board_inj n b); [done..|].
    rewrite Hk, Hk'. f_equal. lia.
Qed.

Lemma project_cells_projected cs : ∀ seen acc,
  Forall (in_bounds n) cs → projected n b seen acc →
  projected n b (λ c, seen c ∨ c ∈ cs)
            (foldl (λ acc (c : coord), project_cell b c.2 acc c.1) acc cs).
Proof.
  induction cs as [|c cs IH]; intros seen acc Hcs Hacc; simpl.
  - destruct Hacc as (mp & ? & ? & Hmp). exists mp. split_and!; [done..|].
    intros c k Hc [Hseen|Hin%elem_of_nil]; [by apply Hmp|done].
  - apply Forall_cons in Hcs as [Hc Hcs].
    destruct (IH _ _ Hcs (project_cell_projected seen acc c Hc Hacc))
      as (mp & ? & ? & Hmp).
    exists mp. split_and!; [done..|].
    intros c' k Hc' Hseen. apply Hmp; [done|].
    rewrite elem_of_cons in Hseen. naive_solver.
Qed.

Lemma scan_in_bounds :
  Forall (in_bounds n) (Py.range 0 n ≫= λ y, (λ x, (x, y)) <$> Py.range 0 n).
Proof.
  apply Forall_forall. intros c (y & Hc & Hy)%list_elem_of_bind.
  apply list_elem_of_fmap in Hc as (x & -> & Hx).
  unfold Py.range in *. rewrite elem_of_seqZ in Hx, Hy.
  unfold in_bounds. simpl. lia.
Qed.

Lemma scan_covers c :
  in_bounds n c → c ∈ (Py.range 0 n ≫= λ y, (λ x, (x, y)) <$> Py.range 0 n).
Proof.
  destruct c as [x y]. intros [Hx Hy]. simpl in *.
  apply list_elem_of_bind. exists y. unfold Py.range. split.
  - apply list_elem_of_fmap. exists x. rewrite elem_of_seqZ. split; [done|lia].
  - rewrite elem_of_seqZ. lia.
Qed.

End Project.

(** C8.  For a completed board the projection raises nothing and yields
    a list of n² entries; for every k from 1 to n² a cell holds k, and
    entry k-1 is the coordinate (x, y) of whichever cell holds k.  The
    1 by 1 board with 1 at (0,0) projects to the one-entry list [(0,0)]. *)
Theorem project_complete_board (n : Z) (b : Board) :
  complete_board n b →
  (∃ mp, project b n = Some mp ∧ length mp = Z.to_nat (n * n) ∧
     (∀ k, 1 ≤ k ≤ n * n →
        ∃ c, in_bounds n c ∧ board_get b c.1 c.2 = Some k ∧
             mp !! Z.to_nat (k - 1) = Some (Some c)) ∧
     (∀ c k, in_bounds n c → board_get b c.1 c.2 = Some k →
        mp !! Z.to_nat (k - 1) = Some (Some c))) ∧
  project [[1]] 1 = Some [Some (0, 0)].
Proof.
  intros Hcb. split; [|done].
  rewrite project_scan.
  destruct (project_cells_projected n b Hcb _ (λ _, False)
              (Some (replicate (Z.to_nat (n * n)) None)) (scan_in_bounds n))
    as (mp & Hmp & Hlen & Hall).
  { eexists. split; [done|]. split; [by rewrite length_replicate|]. by intros. }
  exists mp. split_and!; [done..| |].
  - intros k Hk. destruct (complete_board_holds n b k Hcb Hk) as (c & Hc & Hget).
    exists c. split_and!; [done..|].
    apply Hall; [done| |done]. right. by apply scan_covers.
  - intros c k Hc Hget. apply Hall; [done| |done]. right. by apply scan_covers.
Qed.

(** ** Reproducibility *)

Section Accounting.

Context {G : Type} `{RandomSource G}.

Lemma after_shuffles_S k : ∀ (g : G) l,
  after_shuffles (S k) g l =
  ((shuffle (after_shuffles k g l).1 (after_shuffles k g l).2).2,
   (shuffle (after_shuffles k g l).1 (after_shuffles k g l).2).1).
Proof.
  induction k as [|k IH]; intros g l.
  - simpl. by destruct (shuffle g l).
  - change (after_shuffles (S (S k)) g l)
      with (let '(ms, g') := shuffle g l in after_shuffles (S k) g' ms).
    change (after_shuffles (S k) g l)
      with (let '(ms, g') := shuffle g l in after_shuffles k g' ms).
    destruct (shuffle g l) as [ms g']. apply IH.
Qed.

Lemma drawn_S k : ∀ (g : G) l,
  drawn (S k) g l =
  drawn k g l ++ [(shuffle (after_shuffles k g l).1 (after_shuffles k g l).2).1].
Proof.
  induction k as [|k IH]; intros g l.
  - simpl. by destruct (shuffle g l).
  - change (drawn (S (S k)) g l)
      with (let '(ms, g') := shuffle g l in ms :: drawn (S k) g' ms).
    change (drawn (S k) g l) with (let '(ms, g') := shuffle g l in ms :: drawn k g' ms).
    change (after_shuffles (S k) g l)
      with (let '(ms, g') := shuffle g l in after_shuffles k g' ms).
    destruct (shuffle g l) as [ms g']. by rewrite IH.
Qed.

Lemma length_drawn k : ∀ (g : G) l, length (drawn k g l) = k.
Proof.
  induction k as [|k IH]; intros g l; [done|].
  simpl. destruct (shuffle g l) as [ms g']. simpl. by rewrite IH.
Qed.

(** Shuffle number [k] of a longer run of shuffles. *)
Lemma drawn_lookup K : ∀ k (g : G) l,
  (k < K)%nat →
  drawn K g l !! k
  = Some (shuffle (after_shuffles k g l).1 (after_shuffles k g l).2).1.
Proof.
  induction K as [|K IH]; intros k g l Hk; [lia|].
  rewrite drawn_S. destruct (decide (k = K)) as [->|Hne].
  - by rewrite lookup_app_r, length_drawn, Nat.sub_diag by (rewrite length_drawn; lia).
  - rewrite lookup_app_l by (rewrite length_drawn; lia). apply IH. lia.
Qed.

Lemma orders_snoc_step evs m ms x y b r :
  orders (evs ++ [EvStep m ms x y b r]) = orders evs ++ [ms].
Proof. unfold orders. by rewrite omap_app. Qed.

Lemma orders_snoc_attempt evs a : orders (evs ++ [EvAttempt a]) = orders evs.
Proof. unfold orders. rewrite omap_app. simpl. by rewrite app_nil_r. Qed.

Lemma accounted_start (g : G) : accounted g (State g KNIGHT_MOVES []).
Proof. done. Qed.

Lemma accounted_attempt (g0 : G) a s : accounted g0 s → accounted g0 (log (EvAttempt a) s).
Proof. unfold accounted, log. simpl. by rewrite orders_snoc_attempt. Qed.

Lemma accounted_step (g0 : G) s m x y b r :
  accounted g0 s →
  accounted g0 (State (shuffle (rng s) (moves s)).2 (shuffle (rng s) (moves s)).1
                      (trace s ++ [EvStep m (shuffle (rng s) (moves s)).1 x y b r])).
Proof.
  intros [Ho Hs]. unfold accounted. simpl.
  rewrite orders_snoc_step, length_app. simpl.
  rewrite Nat.add_1_r, drawn_S, after_shuffles_S, <-Hs, <-Ho. done.
Qed.

Section Loops.

Context (n : Z) (g0 : G).

Lemma move_loop_accounted move_nos : ∀ x y b s,
  accounted g0 s → accounted g0 (move_loop n move_nos x y b s).2.
Proof.
  induction move_nos as [|m rest IH]; intros x y b s Hacc; simpl; [done|].
  pose proof (λ r, accounted_step g0 s m x y b r Hacc) as Hstep.
  destruct (shuffle (rng s) (moves s)) as [ms g]. simpl in Hstep.
  destruct (select_move n ms x y b) as [[nx ny]|]; [|apply Hstep].
  destruct (board_set b nx ny m); [|apply Hstep].
  apply IH, Hstep.
Qed.

Lemma attempt_accounted a start_x start_y s :
  accounted g0 s → accounted g0 (attempt n a start_x start_y s).2.
Proof.
  intros Hacc. unfold attempt.
  destruct (board_set (new_board n) start_x start_y 1).
  - by apply move_loop_accounted, accounted_attempt.
  - by apply accounted_attempt.
Qed.

Lemma attempt_loop_accounted attempts : ∀ start_x start_y s,
  accounted g0 s → accounted g0 (attempt_loop n attempts start_x start_y s).2.
Proof.
  induction attempts as [|a rest IH]; intros start_x start_y s Hacc; simpl; [done|].
  pose proof (attempt_accounted a start_x start_y s Hacc) as Hacc'.
  destruct (attempt n a start_x start_y s) as [[b| |] s1]; simpl in *; [done| |done].
  by apply IH.
Qed.

(** The log only grows. *)
Lemma move_loop_extends move_nos : ∀ x y b (s : state G),
  ∃ evs, trace (move_loop n move_nos x y b s).2 = trace s ++ evs.
Proof.
  induction move_nos as [|m rest IH]; intros x y b s; simpl.
  { exists []. by rewrite app_nil_r. }
  destruct (shuffle (rng s) (moves s)) as [ms g].
  destruct (select_move n ms x y b) as [[nx ny]|]; [|by eexists].
  destruct (board_set b nx ny m) as [b'|]; [|by eexists].
  destruct (IH nx ny b' (log (EvStep m ms x y b (Some (nx, ny))) (State g ms (trace s))))
    as [evs Hevs].
  rewrite Hevs. simpl. rewrite <-app_assoc. by eexists.
Qed.

Lemma attempt_extends a start_x start_y (s : state G) :
  ∃ evs, trace (attempt n a start_x start_y s).2 = trace s ++ evs.
Proof.
  unfold attempt. destruct (board_set (new_board n) start_x start_y 1) as [b|].
  - destruct (move_loop_extends (Py.range 2 (n * n + 1)) start_x start_y b
                (log (EvAttempt a) s)) as [evs Hevs].
    rewrite Hevs. simpl. rewrite <-app_assoc. by eexists.
  - by eexists.
Qed.

Lemma attempt_loop_extends attempts : ∀ start_x start_y (s : state G),
  ∃ evs, trace (attempt_loop n attempts start_x start_y s).2 = trace s ++ evs.
Proof.
  induction attempts as [|a rest IH]; intros start_x start_y s; simpl.
  { exists []. by rewrite app_nil_r. }
  destruct (attempt_extends a start_x start_y s) as [evs Hevs].
  destruct (attempt n a start_x start_y s) as [[b| |] s1]; simpl in *;
    [by eexists| |by eexists].
  destruct (IH start_x start_y s1) as [evs' Hevs'].
  rewrite Hevs', Hevs, <-app_assoc. by eexists.
Qed.

End Loops.

End Accounting.

Lemma orders_extends evs evs' : (length (orders evs) ≤ length (orders (evs ++ evs')))%nat.
Proof. unfold orders. rewrite omap_app, length_app. lia. Qed.

Section Agreement.

Context {G1 G2 : Type} {S1 : RandomSource G1} {S2 : RandomSource G2}.
Context (n : Z) (g1 : G1) (g2 : G2) (K : nat).
Context (Hsame : drawn K g1 KNIGHT_MOVES = drawn K g2 KNIGHT_MOVES).

(** While fewer than [K] steps are logged, the next shuffle is the same
    on both sides. *)
Lemma next_shuffle_agrees (s1 : state G1) (s2 : state G2) :
  accounted g1 s1 → accounted g2 s2 → in_step s1 s2 →
  (length (orders (trace s1)) < K)%nat →
  (shuffle (rng s1) (moves s1)).1 = (shuffle (rng s2) (moves s2)).1.
Proof.
  intros [_ Ha1] [_ Ha2] [_ Ht] Hk.
  pose proof (drawn_lookup K _ g1 KNIGHT_MOVES Hk) as Hl1.
  pose proof (drawn_lookup K _ g2 KNIGHT_MOVES Hk) as Hl2.
  rewrite <-Ha1 in Hl1. rewrite Ht, <-Ha2 in Hl2. rewrite <-Ht in Hl2.
  rewrite Hsame in Hl1. simpl in Hl1, Hl2. congruence.
Qed.

Lemma move_loop_agree move_nos : ∀ x y b (s1 : state G1) (s2 : state G2),
  accounted g1 s1 → accounted g2 s2 → in_step s1 s2 →
  (length (orders (trace (move_loop n move_nos x y b s1).2)) ≤ K)%nat →
  (move_loop n move_nos x y b s1).1 = (move_loop n move_nos x y b s2).1 ∧
  in_step (move_loop n move_nos x y b s1).2 (move_loop n move_nos x y b s2).2.
Proof.
  induction move_nos as [|m rest IH]; intros x y b s1 s2 Hacc1 Hacc2 Hin Hk; [done|].
  pose proof (λ r, accounted_step g1 s1 m x y b r Hacc1) as Hstep1.
  pose proof (λ r, accounted_step g2 s2 m x y b r Hacc2) as Hstep2.
  assert (length (orders (trace s1)) < K)%nat as Hlt.
  { revert Hk. simpl. destruct (shuffle (rng s1) (moves s1)) as [ms g].
    assert (∀ r, length (orders (trace s1)) <
                 length (orders (trace (log (EvStep m ms x y b r)
                                            (State g ms (trace s1))))))%nat as Hone.
    { intros r. unfold log. simpl. rewrite orders_snoc_step, length_app. simpl. lia. }
    destruct (select_move n ms x y b) as [[nx ny]|];
      [|intros Hk; by eapply Nat.lt_le_trans; [apply (Hone None)|]].
    specialize (Hone (Some (nx, ny))).
    destruct (board_set b nx ny m) as [b'|];
      [|intros Hk; by eapply Nat.lt_le_trans; [apply Hone|]].
    destruct (move_loop_extends n rest nx ny b'
                (log (EvStep m ms x y b (Some (nx, ny))) (State g ms (trace s1))))
      as [evs ->].
    intros Hk. eapply Nat.lt_le_trans; [apply Hone|].
    eapply Nat.le_trans; [apply orders_extends|apply Hk]. }
  pose proof (next_shuffle_agrees s1 s2 Hacc1 Hacc2 Hin Hlt) as Hms.
  destruct Hin as [Hm Ht].
  revert Hk Hstep1 Hstep2 Hms. simpl.
  destruct (shuffle (rng s1) (moves s1)) as [ms g].
  destruct (shuffle (rng s2) (moves s2)) as [ms' g'].
  simpl. intros Hk Hstep1 Hstep2 <-. unfold log. simpl. rewrite <-Ht.
  destruct (select_move n ms x y b) as [[nx ny]|]; [|done].
  destruct (board_set b nx ny m) as [b'|]; [|done].
  apply IH; [apply Hstep1| |done|done].
  rewrite Ht. apply Hstep2.
Qed.

Lemma attempt_agree a start_x start_y (s1 : state G1) (s2 : state G2) :
  accounted g1 s1 → accounted g2 s2 → in_step s1 s2 →
  (length (orders (trace (attempt n a start_x start_y s1).2)) ≤ K)%nat →
  (attempt n a start_x start_y s1).1 = (attempt n a start_x start_y s2).1 ∧
  in_step (attempt n a start_x start_y s1).2 (attempt n a start_x start_y s2).2.
Proof.
  intros Hacc1 Hacc2 [Hm Ht]. unfold attempt.
  destruct (board_set (new_board n) start_x start_y 1) as [b|].
  - intros Hk. apply move_loop_agree; [by apply accounted_attempt..| |done].
    split; simpl; [done|by rewrite Ht].
  - intros _. split; [done|]. split; simpl; [done|by rewrite Ht].
Qed.

Lemma attempt_loop_agree attempts : ∀ start_x start_y (s1 : state G1) (s2 : state G2),
  accounted g1 s1 → accounted g2 s2 → in_step s1 s2 →
  (length (orders (trace (attempt_loop n attempts start_x start_y s1).2)) ≤ K)%nat →
  (attempt_loop n attempts start_x start_y s1).1
  = (attempt_loop n attempts start_x start_y s2).1 ∧
  in_step (attempt_loop n attempts start_x start_y s1).2
          (attempt_loop n attempts start_x start_y s2).2.
Proof.
  induction attempts as [|a rest IH]; intros start_x start_y s1 s2 Hacc1 Hacc2 Hin Hk;
    [done|].
  pose proof (attempt_accounted n g1 a start_x start_y s1 Hacc1) as Hacc1'.
  pose proof (attempt_accounted n g2 a start_x start_y s2 Hacc2) as Hacc2'.
  pose proof (attempt_agree a start_x start_y s1 s2 Hacc1 Hacc2 Hin) as Hagree.
  revert Hk Hagree. simpl.
  destruct (attempt n a start_x start_y s1) as [r1 s1'].
  destruct (attempt n a start_x start_y s2) as [r2 s2'].
  simpl in *. intros Hk Hagree.
  assert (length (orders (trace s1')) ≤ K)%nat as Hk'.
  { destruct r1; simpl in Hk; [done| |done].
    destruct (attempt_loop_extends n rest start_x start_y s1') as [evs Hevs].
    rewrite Hevs in Hk. pose proof (orders_extends (trace s1') evs). lia. }
  destruct (Hagree Hk') as [<- Hin'].
  destruct r1; simpl in *; [done| |done].
  by apply IH.
Qed.

End Agreement.

(** C9.  The result of a call is determined by its arguments and the
    shuffles the random source delivers to it.  The call consults the
    source once for every move step it takes and not otherwise: the
    orders of its logged steps are the first [k] shuffles of the source,
    each applied to the order the one before it left, starting from the
    literal [KNIGHT_MOVES] that every call rebuilds, and the generator it
    leaves behind is the one after those [k] shuffles.  So two calls with
    the same start, board size and attempt bound, on any two sources
    (of any two kinds) that deliver the same [k] shuffles, return the same
    board or both return [None], after the same steps.  Two sources
    seeded identically are the same generator state and deliver the same
    shuffles, whatever [k] is. *)
Theorem generate_reproducible {G1 G2 : Type} `{RandomSource G1} `{RandomSource G2}
    (n start_x start_y max_attempts : Z) (g1 : G1) (g2 : G2) :
  let run1 := generate_knights_tour_nxn n start_x start_y max_attempts g1 in
  let run2 := generate_knights_tour_nxn n start_x start_y max_attempts g2 in
  let k := length (orders (trace run1.2)) in
  orders (trace run1.2) = drawn k g1 KNIGHT_MOVES ∧
  (rng run1.2, moves run1.2) = after_shuffles k g1 KNIGHT_MOVES ∧
  (drawn k g1 KNIGHT_MOVES = drawn k g2 KNIGHT_MOVES →
   run1.1 = run2.1 ∧ trace run1.2 = trace run2.2 ∧ moves run1.2 = moves run2.2).
Proof.
  intros run1 run2 k. unfold run1, run2, k, generate_knights_tour_nxn. clear.
  pose proof (attempt_loop_accounted n g1 (Py.range 0 max_attempts) start_x start_y
                (State g1 KNIGHT_MOVES []) (accounted_start g1)) as [Ho Hs].
  split; [exact Ho|]. split; [exact Hs|]. intros Hsame.
  destruct (attempt_loop_agree n g1 g2 _ Hsame (Py.range 0 max_attempts) start_x start_y
              (State g1 KNIGHT_MOVES []) (State g2 KNIGHT_MOVES []))
    as (Hr & Hm & Ht); [apply accounted_start..|done|done|].
  by split_and!.
Qed.

(** ** Concrete runs *)

Lemma no_attempts_no_tour_witness :
  0 ≤ 0 ∧
  generate_knights_tour_nxn 8 0 0 0 ([] : list nat) = (NoTour, State [] KNIGHT_MOVES []).
Proof. split; [lia|]. apply no_attempts_no_tour. lia. Defined.

Lemma trivial_board_witness :
  1 ≤ 100 ∧
  generate_knights_tour_nxn 1 0 0 100 ([] : list nat)
  = (Tour [[1]], State [] KNIGHT_MOVES [EvAttempt 0]).
Proof. split; [lia|]. apply trivial_board. lia. Defined.

Lemma start_not_checked_witness :
  1 ≤ 100 ∧ ¬ (- 8 ≤ 0 < 8 ∧ - 8 ≤ 8 < 8) ∧
  generate_knights_tour_nxn 8 0 8 100 ([] : list nat)
  = (IndexError, State [] KNIGHT_MOVES [EvAttempt 0]).
Proof.
  assert (1 ≤ 100) as Hm by lia.
  assert (¬ (- 8 ≤ 0 < 8 ∧ - 8 ≤ 8 < 8)) as Hout by lia.
  split_and!; [done..|].
  by apply (proj1 (start_not_checked 8 0 8 100 ([] : list nat) Hm)).
Defined.

(** C1, refuted as stated: the start (-1, 0) is outside the 8 by 8 board,
    yet the call does not fail; it searches and returns a board. *)
Lemma invalid_start_searched :
  ¬ in_bounds 8 (-1, 0) ∧
  (generate_knights_tour_nxn 8 (-1) 0 100 ([] : list nat)).1 = Tour wrapped_8x8 ∧
  length (trace (generate_knights_tour_nxn 8 (-1) 0 100 ([] : list nat)).2) = 64%nat.
Proof.
  split; [unfold in_bounds; simpl; lia|].
  split; by vm_compute.
Qed.

Lemma start_holds_1_witness :
  (generate_knights_tour_nxn 5 0 0 1 ([] : list nat)).1 = Tour tour_5x5 ∧
  board_get tour_5x5 0 0 = Some 1.
Proof.
  assert ((generate_knights_tour_nxn 5 0 0 1 ([] : list nat)).1 = Tour tour_5x5) as Hrun
    by (by vm_compute).
  split; [done|]. by apply (start_holds_1 5 0 0 1 ([] : list nat)).
Defined.

Lemma tour_is_permutation_witness :
  in_bounds 5 (0, 0) ∧
  (generate_knights_tour_nxn 5 0 0 1 ([] : list nat)).1 = Tour tour_5x5 ∧
  complete_board 5 tour_5x5.
Proof.
  assert (in_bounds 5 (0, 0)) as Hb by (unfold in_bounds; simpl; lia).
  assert ((generate_knights_tour_nxn 5 0 0 1 ([] : list nat)).1 = Tour tour_5x5) as Hrun
    by (by vm_compute).
  split_and!; [done..|].
  by apply (tour_is_permutation 5 0 0 1 ([] : list nat) tour_5x5 Hb Hrun).
Defined.

Lemma tour_moves_legal_witness :
  in_bounds 5 (0, 0) ∧
  (generate_knights_tour_nxn 5 0 0 1 ([] : list nat)).1 = Tour tour_5x5 ∧
  1 ≤ 1 < 5 * 5 ∧
  (board_get tour_5x5 0 0 = Some 1 → board_get tour_5x5 2 1 = Some (1 + 1) →
   (2 - 0, 1 - 0) ∈ KNIGHT_MOVES).
Proof.
  assert (in_bounds 5 (0, 0)) as Hb by (unfold in_bounds; simpl; lia).
  assert ((generate_knights_tour_nxn 5 0 0 1 ([] : list nat)).1 = Tour tour_5x5) as Hrun
    by (by vm_compute).
  assert (1 ≤ 1 < 5 * 5) as Hk by lia.
  split_and!; [done..|].
  intros H1 H2.
  apply (tour_moves_legal 5 0 0 1 ([] : list nat) tour_5x5 1 Hb Hrun Hk)
    with (c := (0, 0)) (c' := (2, 1)); [|unfold in_bounds; simpl; lia|done..].
  done.
Defined.

(** C3, refuted as stated: a call whose start is outside the board can
    succeed too, and then move 1 (marked through the negative subscript)
    and move 2 (reached from the start's own coordinates) are not a
    knight's move apart.  Here 1 sits at (4, 0) and 2 at (1, 1). *)
Lemma wrapped_start_illegal_move :
  (generate_knights_tour_nxn 5 (-1) 0 1 ([] : list nat)).1 = Tour wrapped_5x5 ∧
  board_get wrapped_5x5 4 0 = Some 1 ∧
  board_get wrapped_5x5 1 1 = Some (1 + 1) ∧
  ((1 - 4, 1 - 0) ∉ KNIGHT_MOVES) ∧
  (¬ ∀ c c' : Z * Z, in_bounds 5 c → in_bounds 5 c' →
       board_get wrapped_5x5 c.1 c.2 = Some 1 →
       board_get wrapped_5x5 c'.1 c'.2 = Some (1 + 1) →
       (c'.1 - c.1, c'.2 - c.2) ∈ KNIGHT_MOVES).
Proof.
  assert ((1 - 4, 1 - 0) ∉ KNIGHT_MOVES) as Hno.
  { rewrite KNIGHT_MOVES_spec. simpl. lia. }
  split_and!; [by vm_compute|done|done|done|].
  intros Hall. apply Hno.
  apply (Hall (4, 0) (1, 1)); [unfold in_bounds; simpl; lia..|done|done].
Qed.

Lemma project_complete_board_witness :
  complete_board 1 [[1]] ∧
  ∃ mp, project [[1]] 1 = Some mp ∧ length mp = 1%nat ∧
        mp !! 0%nat = Some (Some (0, 0)).
Proof.
  assert (complete_board 1 [[1]]) as Hcb.
  { split; [|done]. split; [done|]. by repeat constructor. }
  split; [done|].
  destruct (project_complete_board 1 [[1]] Hcb) as [(mp & Hp & Hl & _ & Hall) _].
  exists mp. split_and!; [done..|].
  by apply (Hall (0, 0) 1); [unfold in_bounds; simpl; lia|].
Defined.

(** Two generators that differ, but only after the draws the call uses:
    the run from the corner of the 5 by 5 board takes 24 steps, the two
    generators deliver the same 24 shuffles and part ways at the 25th, and
    the two calls return the same board. *)
Lemma generate_reproducible_witness :
  length (orders (trace (generate_knights_tour_nxn 5 0 0 1 ([] : list nat)).2)) = 24%nat ∧
  drawn 24 ([] : list nat) KNIGHT_MOVES = drawn 24 late_draws KNIGHT_MOVES ∧
  drawn 25 ([] : list nat) KNIGHT_MOVES ≠ drawn 25 late_draws KNIGHT_MOVES ∧
  (generate_knights_tour_nxn 5 0 0 1 ([] : list nat)).1
  = (generate_knights_tour_nxn 5 0 0 1 late_draws).1 ∧
  trace (generate_knights_tour_nxn 5 0 0 1 ([] : list nat)).2
  = trace (generate_knights_tour_nxn 5 0 0 1 late_draws).2.
Proof.
  assert (length (orders (trace (generate_knights_tour_nxn 5 0 0 1 ([] : list nat)).2))
          = 24%nat) as Hk by (by vm_compute).
  assert (drawn 24 ([] : list nat) KNIGHT_MOVES = drawn 24 late_draws KNIGHT_MOVES)
    as Hsame by (by vm_compute).
  assert (drawn 25 ([] : list nat) KNIGHT_MOVES ≠ drawn 25 late_draws KNIGHT_MOVES)
    as Hlater by (by vm_compute).
  pose proof (generate_reproducible 5 0 0 1 ([] : list nat) late_draws) as Hthm.
  cbv zeta in Hthm. revert Hk Hthm.
  generalize (generate_knights_tour_nxn 5 0 0 1 ([] : list nat)).
  generalize (generate_knights_tour_nxn 5 0 0 1 late_draws).
  intros run2 run1 Hk Hthm. rewrite Hk in Hthm.
  destruct Hthm as (_ & _ & Hagree). destruct (Hagree Hsame) as (Hr & Ht & _).
  split; [exact Hk|]. split; [exact Hsame|]. split; [exact Hlater|].
  split; [exact Hr|exact Ht].
Defined.

(** ** More on the search *)

Lemma index_wrap N x i :
  Py.index N x = Some i → Z.of_nat i = wrap (Z.of_nat N) x.
Proof.
  unfold Py.index, wrap. repeat case_bool_decide; intros; simplify_eq; lia.
Qed.

(** A start that addresses a cell marks the cell its wrapped subscripts
    name. *)
Lemma mark_start_wrapped n start_x start_y b :
  board_set (new_board n) start_x start_y 1 = Some b →
  in_bounds n (wrapped n (start_x, start_y)) ∧
  board_set (new_board n) (wrap n start_x) (wrap n start_y) 1 = Some b.
Proof.
  intros Hset. pose proof (new_board_shaped n) as Hs.
  assert (is_Some (board_set (new_board n) start_x start_y 1)) as Hin by eauto.
  apply mark_start_is_Some in Hin.
  assert (in_bounds n (wrapped n (start_x, start_y))) as Hb.
  { unfold in_bounds, wrapped, wrap. simpl. repeat case_bool_decide; lia. }
  split; [done|].
  rewrite (board_set_at (Z.to_nat n)) in Hset by done.
  pose proof (board_set_in_bounds n (new_board n) (wrapped n (start_x, start_y)) 1 Hs Hb)
    as Hset'.
  simpl in Hset'. rewrite Hset'.
  destruct (Py.index (Z.to_nat n) start_x) as [i|] eqn:Hi; [|done].
  destruct (Py.index (Z.to_nat n) start_y) as [j|] eqn:Hj; [|done].
  apply index_wrap in Hi, Hj. rewrite Z2Nat.id in Hi, Hj by lia.
  rewrite <-Hi, <-Hj, !Nat2Z.id. done.
Qed.

Lemma path_inv_fill n b p : path_inv n b p → fill_inv n b p.
Proof. intros (? & ? & ? & ? & ? & _). by split_and!. Qed.

Lemma fill_inv_step n b p c :
  fill_inv n b p →
  in_bounds n c →
  board_get b c.1 c.2 = Some UNVISITED →
  fill_inv n (set_cell b (Z.to_nat c.1) (Z.to_nat c.2) (Z.of_nat (length p) + 1))
           (p ++ [c]).
Proof.
  intros (Hs & Hnd & Hbd & Hvis & Hun) Hc Hfree.
  assert (c ∉ p) as Hnew.
  { intros [i Hi]%list_elem_of_lookup. apply Hvis in Hi.
    rewrite Hfree in Hi. unfold UNVISITED in Hi. simplify_eq. lia. }
  split_and!.
  - by apply set_cell_shaped.
  - apply NoDup_app. split_and!; [done| |apply NoDup_singleton].
    intros c' Hc' ->%list_elem_of_singleton. done.
  - intros c' [Hc'| ->%list_elem_of_singleton]%elem_of_app; [by apply Hbd|done].
  - intros i c' [[Hi Hl]|[-> <-]]%lookup_snoc_Some.
    + assert (c' ∈ p) by by eapply list_elem_of_lookup_2.
      rewrite (board_get_set_in_bounds n) by auto.
      rewrite decide_False by (by intros ->). by apply Hvis.
    + rewrite (board_get_set_in_bounds n) by auto. by rewrite decide_True.
  - intros c' Hc' Hnot. rewrite elem_of_app, list_elem_of_singleton in Hnot.
    rewrite (board_get_set_in_bounds n) by auto.
    rewrite decide_False by naive_solver. apply Hun; naive_solver.
Qed.

Section Fill.

Context {G : Type} `{RandomSource G} (n : Z).

Lemma move_loop_fill (k : nat) : ∀ x y b (s : state G) p b',
  fill_inv n b p →
  moves s ≡ₚ KNIGHT_MOVES →
  (move_loop n (seqZ (Z.of_nat (length p) + 1) (Z.of_nat k)) x y b s).1 = Completed b' →
  ∃ p', fill_inv n b' (p ++ p') ∧ length p' = k.
Proof.
  induction k as [|k IH]; intros x y b s p b' Hinv Hp Hrun.
  { simpl in Hrun. injection Hrun as <-. exists []. by rewrite app_nil_r. }
  rewrite seqZ_cons in Hrun by lia. simpl in Hrun.
  pose proof (shuffle_moves s Hp) as Hp'.
  destruct (shuffle (rng s) (moves s)) as [ms g]. simpl in Hp'.
  destruct (select_move n ms x y b) as [[nx ny]|] eqn:Hsel; [|done].
  destruct (select_move_Some n ms x y b _ Hp' Hsel) as (d & _ & _ & Hb & Hfree).
  pose proof Hinv as (Hs & _).
  rewrite (board_set_in_bounds n b (nx, ny)) in Hrun by done.
  pose proof (fill_inv_step n b p (nx, ny) Hinv Hb Hfree) as Hstep. simpl in Hstep.
  destruct (IH nx ny _ (log (EvStep (Z.of_nat (length p) + 1) ms x y b (Some (nx, ny)))
                             (State g ms (trace s)))
               (p ++ [(nx, ny)]) b' Hstep) as (p' & Hinv' & Hlen).
  - done.
  - rewrite length_app. simpl.
    replace (Z.of_nat (length p + 1) + 1) with (Z.succ (Z.of_nat (length p) + 1)) by lia.
    by replace (Z.of_nat k) with (Z.pred (Z.of_nat (S k))) by lia.
  - exists ((nx, ny) :: p'). rewrite <-app_assoc in Hinv'. split; [done|].
    simpl. by f_equal.
Qed.

Lemma attempt_fill a start_x start_y (s : state G) b' :
  moves s ≡ₚ KNIGHT_MOVES →
  (attempt n a start_x start_y s).1 = Completed b' →
  1 ≤ n ∧
  ∃ p, fill_inv n b' p ∧ length p = Z.to_nat (n * n) ∧
       p !! 0%nat = Some (wrapped n (start_x, start_y)).
Proof.
  intros Hp Hrun. unfold attempt in Hrun.
  destruct (board_set (new_board n) start_x start_y 1) as [b|] eqn:Hset; [|done].
  assert (1 ≤ n) as Hn.
  { assert (is_Some (board_set (new_board n) start_x start_y 1)) as Hin by eauto.
    apply mark_start_is_Some in Hin. lia. }
  split; [done|].
  destruct (mark_start_wrapped n start_x start_y b Hset) as [Hb Hset'].
  pose proof (path_inv_fill n b _ (path_inv_start n _ _ b Hb Hset')) as Hinv.
  unfold Py.range in Hrun.
  replace (n * n + 1 - 2) with (Z.of_nat (Z.to_nat (n * n - 1))) in Hrun by nia.
  destruct (move_loop_fill (Z.to_nat (n * n - 1)) start_x start_y b
              (log (EvAttempt a) s) [wrapped n (start_x, start_y)] b' Hinv Hp Hrun)
    as (p' & Hinv' & Hlen).
  exists ([wrapped n (start_x, start_y)] ++ p'). split_and!; [done| |done].
  simpl. rewrite Hlen. nia.
Qed.

Lemma full_fill_covers b p c :
  fill_inv n b p → length p = Z.to_nat (n * n) → in_bounds n c → c ∈ p.
Proof.
  intros (Hs & Hnd & Hbd & _) Hlen Hc.
  set (N := Z.to_nat n). assert (n = Z.of_nat N) as Hn by (destruct Hc; lia).
  set (cells := flat N <$> seq 0 (N * N)).
  assert (p ≡ₚ cells) as ->.
  { apply submseteq_length_Permutation.
    - apply NoDup_submseteq; [done|]. intros c' Hc'%Hbd.
      rewrite Hn in Hc'. destruct (flat_surj N c' Hc') as (a & Ha & <-).
      apply list_elem_of_fmap_2, elem_of_seq. lia.
    - unfold cells. rewrite length_fmap, length_seq. lia. }
  rewrite Hn in Hc. destruct (flat_surj N c Hc) as (a & Ha & <-).
  apply list_elem_of_fmap_2, elem_of_seq. lia.
Qed.

Lemma full_fill_complete b p :
  1 ≤ n → fill_inv n b p → length p = Z.to_nat (n * n) → complete_board n b.
Proof.
  intros Hn Hinv Hlen. pose proof Hinv as (Hs & Hnd & Hbd & Hvis & _).
  apply complete_board_intro; [lia|done| |].
  - intros c Hc. pose proof (full_fill_covers b p c Hinv Hlen Hc) as Hin.
    apply list_elem_of_lookup in Hin as [i Hi].
    exists (Z.of_nat i + 1). split; [by apply Hvis|].
    apply lookup_lt_Some in Hi. lia.
  - intros c c' Hc Hc' Heq.
    pose proof (full_fill_covers b p c Hinv Hlen Hc) as [i Hi]%list_elem_of_lookup.
    pose proof (full_fill_covers b p c' Hinv Hlen Hc') as [i' Hi']%list_elem_of_lookup.
    rewrite (Hvis _ _ Hi), (Hvis _ _ Hi') in Heq.
    assert (i = i') as -> by (simplify_eq; lia). congruence.
Qed.

(** X1.  Whatever the start, on the board or addressed through negative
    subscripts, a board the call returns is complete: [n] by [n], its
    cells the numbers 1..n² in some order, with 1 in the cell the start
    subscripts address.  A partly filled board is never returned. *)
Theorem returned_board_complete (start_x start_y max_attempts : Z) (g : G) (b : Board) :
  (generate_knights_tour_nxn n start_x start_y max_attempts g).1 = Tour b →
  1 ≤ n ∧ complete_board n b ∧
  in_bounds n (wrapped n (start_x, start_y)) ∧
  board_get b (wrap n start_x) (wrap n start_y) = Some 1.
Proof.
  intros Hrun. unfold generate_knights_tour_nxn in Hrun.
  apply attempt_loop_Tour in Hrun as (a & s0 & _ & Hp & Hrun); [|done].
  destruct (attempt_fill a start_x start_y s0 b Hp Hrun)
    as (Hn & p & Hinv & Hlen & H0).
  pose proof Hinv as (_ & _ & Hbd & Hvis & _).
  split_and!; [done|by eapply full_fill_complete| |].
  - by eapply Hbd, list_elem_of_lookup_2.
  - by apply (Hvis 0%nat (wrapped n (start_x, start_y))).
Qed.

End Fill.

(** ** The search follows Warnsdorff's rule *)

(** The rule leaves no choice: for a given order of the offsets at most
    one decision satisfies it. *)
Lemma warnsdorff_choice_unique n ms x y b r r' :
  warnsdorff_choice n ms x y b r → warnsdorff_choice n ms x y b r' → r = r'.
Proof.
  assert (∀ c c' i i' d d',
            ms !! i = Some d → c = candidate x y d → valid_at n b c →
            (∀ d0, d0 ∈ ms → valid_at n b (candidate x y d0) →
               onward_degree n c.1 c.2 b
               ≤ onward_degree n (candidate x y d0).1 (candidate x y d0).2 b) →
            ms !! i' = Some d' → c' = candidate x y d' → valid_at n b c' →
            (∀ i0 d0, (i0 < i')%nat → ms !! i0 = Some d0 →
               valid_at n b (candidate x y d0) →
               onward_degree n c'.1 c'.2 b
               < onward_degree n (candidate x y d0).1 (candidate x y d0).2 b) →
            ¬ (i < i')%nat) as Hord.
  { intros c c' i i' d d' Hi -> Hv Hmin Hi' -> Hv' Hfirst' Hlt.
    pose proof (Hfirst' i d Hlt Hi Hv).
    pose proof (Hmin d' (list_elem_of_lookup_2 _ _ _ Hi') Hv'). lia. }
  destruct r as [c|], r' as [c'|]; simpl.
  - intros (i & d & Hi & Hc & Hv & Hmin & Hfirst)
           (i' & d' & Hi' & Hc' & Hv' & Hmin' & Hfirst').
    pose proof (Hord c c' i i' d d' Hi Hc Hv Hmin Hi' Hc' Hv' Hfirst').
    pose proof (Hord c' c i' i d' d Hi' Hc' Hv' Hmin' Hi Hc Hv Hfirst).
    assert (i = i') as <- by lia. congruence.
  - intros (i & d & Hi & -> & Hv & _) Hnone.
    destruct (Hnone d); [by eapply list_elem_of_lookup_2|done].
  - intros Hnone (i & d & Hi & -> & Hv & _).
    destruct (Hnone d); [by eapply list_elem_of_lookup_2|done].
  - done.
Qed.

(** The candidate loop computes the decision of the rule, and nothing
    else is one. *)
Lemma select_move_is_choice n ms x y b r :
  ms ≡ₚ KNIGHT_MOVES →
  warnsdorff_choice n ms x y b r ↔ select_move n ms x y b = r.
Proof.
  intros Hp. pose proof (select_move_choice n ms x y b Hp) as Hsel. split.
  - intros Hr. by eapply warnsdorff_choice_unique.
  - by intros <-.
Qed.

Section Search.

Context {G : Type} `{RandomSource G} (n : Z).

Lemma move_loop_warnsdorff move_nos : ∀ x y b (s : state G),
  shaped (Z.to_nat n) b →
  moves s ≡ₚ KNIGHT_MOVES →
  warnsdorff_moves n move_nos x y b s
    (move_loop n move_nos x y b s).1 (move_loop n move_nos x y b s).2.
Proof.
  induction move_nos as [|m rest IH]; intros x y b s Hs Hp; simpl; [constructor|].
  pose proof (shuffle_moves s Hp) as Hp'.
  destruct (shuffle (rng s) (moves s)) as [ms g] eqn:Hsh. simpl in Hp'.
  pose proof (select_move_choice n ms x y b Hp') as Hch.
  destruct (select_move n ms x y b) as [[nx ny]|] eqn:Hsel.
  - destruct (select_move_Some n ms x y b _ Hp' Hsel) as (d & _ & _ & Hb & _).
    pose proof (board_set_in_bounds n b (nx, ny) m Hs Hb) as Hset.
    simpl in Hset. rewrite Hset.
    eapply (moves_step n m rest x y b s ms g nx ny); [done..|].
    apply IH; [by apply set_cell_shaped|done].
  - exact (moves_dead_end n m rest x y b s ms g Hsh Hp' Hch).
Qed.

Lemma attempt_loop_warnsdorff attempts : ∀ start_x start_y (s : state G),
  moves s ≡ₚ KNIGHT_MOVES →
  warnsdorff_search n start_x start_y attempts s
    (attempt_loop n attempts start_x start_y s).1
    (attempt_loop n attempts start_x start_y s).2.
Proof.
  induction attempts as [|a rest IH]; intros start_x start_y s Hp; simpl; [constructor|].
  unfold attempt.
  destruct (board_set (new_board n) start_x start_y 1) as [b0|] eqn:Hset.
  - assert (shaped (Z.to_nat n) b0) as Hs0
      by (eapply board_set_shaped; [apply new_board_shaped|done]).
    pose proof (move_loop_warnsdorff (Py.range 2 (n * n + 1)) start_x start_y b0
                  (log (EvAttempt a) s) Hs0 Hp) as Hrun.
    destruct (move_loop_run n (Py.range 2 (n * n + 1)) start_x start_y b0
                (log (EvAttempt a) s) Hs0 Hp) as (evs & _ & Hm & _ & _ & Hres).
    destruct (move_loop n (Py.range 2 (n * n + 1)) start_x start_y b0
                (log (EvAttempt a) s)) as [[b| |] s1]; simpl in *; [| |done].
    + by eapply search_tour.
    + eapply search_retry; [done..|]. by apply IH.
  - by apply search_no_cell.
Qed.

(** The description determines the run: its outcome and final state are
    functions of where it starts. *)
Lemma warnsdorff_moves_det move_nos x y b (s : state G) r1 s1 r2 s2 :
  warnsdorff_moves n move_nos x y b s r1 s1 →
  warnsdorff_moves n move_nos x y b s r2 s2 →
  r1 = r2 ∧ s1 = s2.
Proof.
  intros H1. revert r2 s2.
  induction H1 as [x y b s|m rest x y b s ms g Hsh Hp Hch
                  |m rest x y b s ms g nx ny b' r s' Hsh Hp Hch Hset Hrest IH];
    intros r2 s2 H2;
    inversion H2 as [|? ? ? ? ? ? ms2 g2 Hsh2 Hp2 Hch2
                    |? ? ? ? ? ? ms2 g2 nx2 ny2 b2 ? ? Hsh2 Hp2 Hch2 Hset2 Hrest2];
    subst; try done;
    rewrite Hsh in Hsh2; injection Hsh2 as <- <-;
    pose proof (warnsdorff_choice_unique _ _ _ _ _ _ _ Hch Hch2) as Heq;
    try done.
  injection Heq as <- <-. rewrite Hset in Hset2. injection Hset2 as <-.
  by apply IH.
Qed.

Lemma warnsdorff_search_det attempts start_x start_y (s : state G) r1 s1 r2 s2 :
  warnsdorff_search n start_x start_y attempts s r1 s1 →
  warnsdorff_search n start_x start_y attempts s r2 s2 →
  r1 = r2 ∧ s1 = s2.
Proof.
  intros H1. revert r2 s2.
  induction H1 as [s|a rest s Hset|a rest s b0 b s' Hset Hrun
                  |a rest s b0 s1 r s' Hset Hrun Hrest IH];
    intros r2 s2 H2;
    inversion H2 as [|? ? ? Hset2|? ? ? b2 ? ? Hset2 Hrun2
                    |? ? ? b2 ? ? ? Hset2 Hrun2 Hrest2];
    subst; try done; try congruence;
    rewrite Hset in Hset2; injection Hset2 as <-;
    destruct (warnsdorff_moves_det _ _ _ _ _ _ _ _ _ Hrun Hrun2) as [Hr Hs];
    try done.
  - by injection Hr as <-; subst.
  - subst. by apply IH.
Qed.

(** A returned board is filled: no attempt that stopped short returns. *)
Lemma attempt_loop_complete attempts start_x start_y (s : state G) b :
  moves s ≡ₚ KNIGHT_MOVES →
  (attempt_loop n attempts start_x start_y s).1 = Tour b →
  complete_board n b.
Proof.
  intros Hp Hrun.
  apply attempt_loop_Tour in Hrun as (a & s0 & _ & Hp0 & Hrun); [|done].
  destruct (attempt_fill n a start_x start_y s0 b Hp0 Hrun) as (Hn & p & Hinv & Hlen & _).
  by eapply full_fill_complete.
Qed.

End Search.

Section SearchClaims.

Context {G : Type} `{RandomSource G}.

(** C5.  The destination of a move step is the one Warnsdorff's rule
    names, and the code takes it at every step of every attempt.
    First, the candidate loop: run over the eight offsets in any order
    [ms], it returns exactly the decision of the rule for that order on
    the current board: a destination that is in bounds and unvisited, of
    least onward-degree among the valid candidates, the first in [ms]
    among those of least degree (every valid candidate before it has a
    strictly larger one), and no destination only when no candidate is
    valid.  Second, the call: its outcome, its log and the state it leaves
    are those of the search in which every attempt marks the start and
    then, move number by move number, shuffles the offsets, takes the
    destination the rule names on the board as it is, marks it and goes on
    from there, until a step has no destination or every move is placed;
    nothing else is such a search.  Last, read off the log: every logged
    step satisfies the rule, each step is decided on the board and square
    the step before it left behind, and a returned board is the one the
    last step left behind. *)
Theorem every_step_follows_warnsdorff (n start_x start_y max_attempts : Z) (g : G) :
  (∀ ms x y b next_move,
     ms ≡ₚ KNIGHT_MOVES →
     warnsdorff_choice n ms x y b next_move ↔ select_move n ms x y b = next_move) ∧
  (∀ r s',
     warnsdorff_search n start_x start_y (Py.range 0 max_attempts)
                       (State g KNIGHT_MOVES []) r s' ↔
     generate_knights_tour_nxn n start_x start_y max_attempts g = (r, s')) ∧
  Forall (step_ok n)
         (trace (generate_knights_tour_nxn n start_x start_y max_attempts g).2) ∧
  chained n start_x start_y
         (trace (generate_knights_tour_nxn n start_x start_y max_attempts g).2) ∧
  match (generate_knights_tour_nxn n start_x start_y max_attempts g).1 with
  | Tour b =>
      ∃ e x y,
        last (trace (generate_knights_tour_nxn n start_x start_y max_attempts g).2)
        = Some e ∧
        produces n start_x start_y e b x y
  | _ => True
  end.
Proof.
  split; [|split; [|split]].
  - intros ms x y b next_move. apply select_move_is_choice.
  - unfold generate_knights_tour_nxn. intros r s'.
    pose proof (attempt_loop_warnsdorff n (Py.range 0 max_attempts) start_x start_y
                  (State g KNIGHT_MOVES []) (reflexivity _)) as Hrun.
    destruct (attempt_loop n (Py.range 0 max_attempts) start_x start_y
                (State g KNIGHT_MOVES [])) as [r0 s0]. simpl in Hrun.
    split.
    + intros Hspec.
      by destruct (warnsdorff_search_det n _ _ _ _ _ _ _ _ Hrun Hspec) as [-> ->].
    + by intros [= <- <-].
  - unfold generate_knights_tour_nxn.
    destruct (attempt_loop_run n (Py.range 0 max_attempts) start_x start_y
                (State g KNIGHT_MOVES [])) as (dead & last & Ht & _ & Hok & _);
      [done|].
    by rewrite Ht.
  - unfold generate_knights_tour_nxn. apply attempt_loop_chain; [done| |done].
    by intros i e e' Hi.
Qed.

(** C6.  The call always ends, after at most [max_attempts] attempts.
    Its log is a run of abandoned attempts, numbered from 0, each ending
    with the step that found no destination and followed at once by the
    next allocation, on whose fresh board the next attempt's first step is
    decided; the call returns [None] exactly when all [max_attempts]
    attempts were abandoned.  It returns a board at the end of the first
    attempt that placed all n² - 1 moves, with no later attempt; the
    board returned is that attempt's own (the start mark and the marks of
    its move steps on a fresh board) and it is filled: its cells are the
    numbers 1..n² in some order, none unvisited.  The only other way out
    is the [IndexError] of a start that addresses no cell. *)
Theorem generate_bounded_attempts (n start_x start_y max_attempts : Z) (g : G) :
  ∃ dead last,
    trace (generate_knights_tour_nxn n start_x start_y max_attempts g).2
      = concat dead ++ last ∧
    Forall2 (dead_segment n start_x start_y) (seqZ 0 (Z.of_nat (length dead))) dead ∧
    (length dead ≤ Z.to_nat max_attempts)%nat ∧
    (length dead = Z.to_nat max_attempts ↔
       (generate_knights_tour_nxn n start_x start_y max_attempts g).1 = NoTour) ∧
    match (generate_knights_tour_nxn n start_x start_y max_attempts g).1 with
    | NoTour => last = []
    | Tour b =>
        live_segment n start_x start_y (Z.of_nat (length dead)) last ∧
        board_of n start_x start_y last = Some b ∧
        complete_board n b
    | IndexError =>
        last = [EvAttempt (Z.of_nat (length dead))] ∧
        ¬ (- n ≤ start_x < n ∧ - n ≤ start_y < n)
    end.
Proof.
  unfold generate_knights_tour_nxn.
  destruct (attempt_loop_run n (Py.range 0 max_attempts) start_x start_y
              (State g KNIGHT_MOVES [])) as (dead & last & Ht & Hd & _ & Hres);
    [done|].
  pose proof (attempt_loop_complete n (Py.range 0 max_attempts) start_x start_y
                (State g KNIGHT_MOVES [])) as Hfull.
  exists dead, last.
  assert (length (Py.range 0 max_attempts) = Z.to_nat max_attempts) as Hlr.
  { unfold Py.range. rewrite length_seqZ. lia. }
  assert (length dead ≤ Z.to_nat max_attempts)%nat as Hle.
  { apply Forall2_length in Hd. rewrite length_take in Hd. lia. }
  rewrite take_range in Hd by done.
  assert (∀ a, Py.range 0 max_attempts !! length dead = Some a →
               a = Z.of_nat (length dead) ∧ (length dead < Z.to_nat max_attempts)%nat)
    as Hidx.
  { intros a Ha. unfold Py.range in Ha. apply lookup_seqZ in Ha. lia. }
  split_and!; [done..| |].
  - destruct (attempt_loop _ _ _ _ _).1.
    + destruct Hres as (_ & a & [-> ?]%Hidx & _). split; [lia|done].
    + destruct Hres as [_ Hl]. split; [done|]. intros _. by rewrite Hl, Hlr.
    + destruct Hres as (_ & a & [-> ?]%Hidx & _). split; [lia|done].
  - destruct (attempt_loop _ _ _ _ _).1 as [b| |].
    + destruct Hres as (_ & a & [-> ?]%Hidx & ? & ?). split_and!; [done..|].
      by apply Hfull.
    + by destruct Hres.
    + by destruct Hres as (? & a & [-> ?]%Hidx & ->).
Qed.

End SearchClaims.

(** ** Starts from which no tour exists *)

Lemma unflat_inj n c c' :
  in_bounds n c → in_bounds n c' → unflat n c = unflat n c' → c = c'.
Proof.
  destruct c as [x y], c' as [x' y']. unfold in_bounds, unflat. simpl.
  intros [Hx Hy] [Hx' Hy'] Heq.
  assert (y = y') as -> by nia. f_equal. lia.
Qed.

(** Along a knight's path the colour of the square alternates. *)
Lemma path_parity n b p start :
  path_inv n b p → p !! 0%nat = Some start →
  ∀ i c, p !! i = Some c →
    ∃ t, c.1 + c.2 = start.1 + start.2 + Z.of_nat i + 2 * t.
Proof.
  intros (_ & _ & _ & _ & _ & Hmv) H0 i.
  induction i as [|i IH]; intros c Hc.
  - assert (c = start) as -> by congruence. exists 0. lia.
  - destruct (lookup_lt_is_Some_2 p i) as [c0 Hc0];
      [apply lookup_lt_Some in Hc; lia|].
    destruct (IH c0 Hc0) as [t Ht].
    pose proof (Hmv i c0 c Hc0 Hc) as Hd. apply KNIGHT_MOVES_spec in Hd.
    simpl in Hd.
    assert (∃ u, (c.1 - c0.1) + (c.2 - c0.2) = 2 * u + 1) as [u Hu].
    { assert (c.1 - c0.1 + (c.2 - c0.2) = 3 ∨ c.1 - c0.1 + (c.2 - c0.2) = 1 ∨
              c.1 - c0.1 + (c.2 - c0.2) = -1 ∨ c.1 - c0.1 + (c.2 - c0.2) = -3)
        as [?|[?|[?|?]]] by lia;
        [by exists 1|by exists 0|by exists (-1)|by exists (-2)]. }
    exists (t + u). lia.
Qed.

Section NoTour.

Context {G : Type} `{RandomSource G} (n : Z).

Lemma generate_path start_x start_y max_attempts (g : G) b :
  in_bounds n (start_x, start_y) →
  (generate_knights_tour_nxn n start_x start_y max_attempts g).1 = Tour b →
  ∃ p, path_inv n b p ∧ length p = Z.to_nat (n * n) ∧
       p !! 0%nat = Some (start_x, start_y).
Proof.
  intros Hb Hrun. unfold generate_knights_tour_nxn in Hrun.
  apply attempt_loop_Tour in Hrun as (a & s0 & _ & Hp & Hrun); [|done].
  by eapply attempt_path.
Qed.

Lemma in_range_not_raised start_x start_y max_attempts (g : G) :
  in_bounds n (start_x, start_y) →
  (generate_knights_tour_nxn n start_x start_y max_attempts g).1 ≠ IndexError.
Proof.
  intros [Hx Hy] Herr. simpl in *. unfold generate_knights_tour_nxn in Herr.
  destruct (attempt_loop_run n (Py.range 0 max_attempts) start_x start_y
              (State g KNIGHT_MOVES [])) as (dead & last & _ & _ & _ & Hres);
    [done|].
  rewrite Herr in Hres. destruct Hres as [Hout _]. lia.
Qed.

(** A full knight's path on an odd board cannot start on a square whose
    coordinates have an odd sum: it would need one more square of that
    colour than the board has. *)
Lemma odd_start_no_path b p start :
  Z.odd n = true → Z.odd (start.1 + start.2) = true →
  path_inv n b p → length p = Z.to_nat (n * n) → p !! 0%nat = Some start →
  False.
Proof.
  intros [m Hm]%Z.odd_spec [t0 Ht0]%Z.odd_spec Hinv Hlen H0.
  pose proof Hinv as (_ & Hnd & Hbd & _).
  assert (in_bounds n start) as Hstart by (by eapply Hbd, list_elem_of_lookup_2).
  assert (0 ≤ m) as Hm0 by (destruct Hstart; lia).
  set (M := 2 * m * m + 2 * m).
  assert (n * n = 2 * M + 1) as HM by (unfold M; nia).
  set (l := (λ j : nat, unflat n (p !!! (2 * j)%nat)) <$> seq 0 (S (Z.to_nat M))).
  set (k := (λ t : Z, 2 * t + 1) <$> seqZ 0 M).
  assert (∀ j, (j < S (Z.to_nat M))%nat →
               ∃ c, p !! (2 * j)%nat = Some c ∧ p !!! (2 * j)%nat = c) as Hget.
  { intros j Hj. destruct (lookup_lt_is_Some_2 p (2 * j)) as [c Hc]; [nia|].
    exists c. split; [done|]. by apply list_lookup_total_correct. }
  assert (length l ≤ length k)%nat as Hle.
  { apply submseteq_length, NoDup_submseteq.
    - apply NoDup_fmap_2_strong; [|apply NoDup_seq].
      intros j j' Hj%elem_of_seq Hj'%elem_of_seq Heq.
      destruct (Hget j) as (c & Hc & Hc'); [lia|].
      destruct (Hget j') as (c' & Hc1 & Hc1'); [lia|].
      rewrite Hc', Hc1' in Heq.
      apply unflat_inj in Heq; [|by eapply Hbd, list_elem_of_lookup_2..].
      subst c'. pose proof (NoDup_lookup _ _ _ _ Hnd Hc Hc1). lia.
    - intros v (j & -> & Hj%elem_of_seq)%list_elem_of_fmap.
      destruct (Hget j) as (c & Hc & ->); [lia|].
      destruct (path_parity n b p start Hinv H0 _ _ Hc) as [t Ht].
      assert (in_bounds n c) as [Hx Hy] by (by eapply Hbd, list_elem_of_lookup_2).
      apply list_elem_of_fmap. exists (t0 + Z.of_nat j + t + m * c.2).
      unfold unflat. split; [nia|]. apply elem_of_seqZ. nia. }
  unfold l, k in Hle. rewrite !length_fmap, length_seq, length_seqZ in Hle. lia.
Qed.

(** X2.  On a board of odd size, a start on the board whose coordinates
    have an odd sum never yields a tour: every attempt dead-ends and the
    call returns [None], whatever the random source and the number of
    attempts. *)
Theorem odd_start_no_tour (start_x start_y max_attempts : Z) (g : G) :
  in_bounds n (start_x, start_y) →
  Z.odd n = true → Z.odd (start_x + start_y) = true →
  (generate_knights_tour_nxn n start_x start_y max_attempts g).1 = NoTour.
Proof.
  intros Hb Hn Hs.
  destruct (generate_knights_tour_nxn n start_x start_y max_attempts g).1
    as [b| |] eqn:Hrun; [|done|].
  - destruct (generate_path _ _ _ _ _ Hb Hrun) as (p & Hinv & Hlen & H0).
    by destruct (odd_start_no_path b p (start_x, start_y)).
  - by destruct (in_range_not_raised start_x start_y max_attempts g).
Qed.

(** X3.  Boards of size 2 and 3 have no tour from any square: a call
    with a start on such a board returns [None]. *)
Theorem small_board_no_tour (start_x start_y max_attempts : Z) (g : G) :
  in_bounds n (start_x, start_y) →
  2 ≤ n ≤ 3 →
  (generate_knights_tour_nxn n start_x start_y max_attempts g).1 = NoTour.
Proof.
  intros Hb Hn.
  destruct (generate_knights_tour_nxn n start_x start_y max_attempts g).1
    as [b| |] eqn:Hrun; [|done|].
  - exfalso.
    destruct (generate_path _ _ _ _ _ Hb Hrun) as (p & Hinv & Hlen & H0).
    pose proof Hinv as (_ & _ & Hbd & _ & _ & Hmv).
    assert (in_bounds n (1, 1)) as Hc by (unfold in_bounds; simpl; lia).
    apply (full_path_covers n b p _ Hinv Hlen) in Hc as [i Hi]%list_elem_of_lookup.
    assert (∀ c, in_bounds n c → ((c.1 - 1, c.2 - 1) ∉ KNIGHT_MOVES) ∧
                                  ((1 - c.1, 1 - c.2) ∉ KNIGHT_MOVES)) as Hfar.
    { intros [x y] [Hx Hy]. rewrite !KNIGHT_MOVES_spec. simpl in *. lia. }
    destruct i as [|i].
    + destruct (lookup_lt_is_Some_2 p 1) as [c Hc]; [nia|].
      assert (in_bounds n c) as Hcb by (by eapply Hbd, list_elem_of_lookup_2).
      apply (proj1 (Hfar c Hcb)). apply (Hmv 0%nat (1, 1) c Hi Hc).
    + destruct (lookup_lt_is_Some_2 p i) as [c Hc];
        [apply lookup_lt_Some in Hi; lia|].
      assert (in_bounds n c) as Hcb by (by eapply Hbd, list_elem_of_lookup_2).
      apply (proj2 (Hfar c Hcb)). apply (Hmv i c (1, 1) Hc Hi).
  - by destruct (in_range_not_raised start_x start_y max_attempts g).
Qed.

End NoTour.

(** ** The projection of any board *)

Section ProjectAny.

Context (n : Z) (b : Board) (Hs : shaped (Z.to_nat n) b).

Lemma project_cell_any seen acc c :
  in_bounds n c →
  (∀ k, board_get b c.1 c.2 = Some k → k ≤ n * n) →
  projected_any n b seen acc →
  projected_any n b (λ c', seen c' ∨ c' = c) (project_cell b c.2 acc c.1).
Proof.
  intros Hc Hle (mp & -> & Hlen & Hsound & Hfull).
  destruct (is_valid_defined n b c.1 c.2 Hs) as [k Hk]; [by destruct Hc..|].
  unfold project_cell. simpl. rewrite Hk. simpl.
  case_bool_decide as Hpos.
  - specialize (Hle k Hk).
    unfold Py.setitem. rewrite index_nonneg by lia. simpl.
    eexists. split; [done|]. split; [by rewrite length_insert|]. split.
    + intros i c' Hi.
      destruct (decide (i = Z.to_nat (k - 1))) as [->|Hne].
      * rewrite list_lookup_insert_eq in Hi by lia.
        assert (c' = c) as -> by (destruct c; by simplify_eq/=).
        split_and!; [by right|done|]. rewrite Hk. f_equal. lia.
      * rewrite list_lookup_insert_ne in Hi by done.
        destruct (Hsound i c' Hi) as (? & ? & ?). split_and!; [by left|done..].
    + intros c' k' [Hseen| ->] Hc' Hk' Hpos'.
      * destruct (decide (Z.to_nat (k' - 1) = Z.to_nat (k - 1))) as [->|Hne].
        -- exists c. destruct c. apply list_lookup_insert_eq. lia.
        -- rewrite list_lookup_insert_ne by done. by eapply Hfull.
      * assert (k' = k) as -> by congruence.
        exists c. destruct c. apply list_lookup_insert_eq. lia.
  - exists mp. split_and!; [done..| |].
    + intros i c' Hi. destruct (Hsound i c' Hi) as (? & ? & ?).
      split_and!; [by left|done..].
    + intros c' k' [Hseen| ->] Hc' Hk' Hpos'; [by eapply Hfull|].
      assert (k' = k) by congruence. lia.
Qed.

Lemma project_cells_any cs : ∀ seen acc,
  Forall (in_bounds n) cs →
  (∀ c k, c ∈ cs → board_get b c.1 c.2 = Some k → k ≤ n * n) →
  projected_any n b seen acc →
  projected_any n b (λ c, seen c ∨ c ∈ cs)
                (foldl (λ acc (c : coord), project_cell b c.2 acc c.1) acc cs).
Proof.
  induction cs as [|c cs IH]; intros seen acc Hcs Hle Hacc; simpl.
  - destruct Hacc as (mp & ? & ? & Hsound & Hfull). exists mp. split_and!; [done..| |].
    + intros i c Hi. destruct (Hsound i c Hi) as (? & ? & ?). split_and!; [by left|done..].
    + intros c k [Hseen|Hin%elem_of_nil]; [by apply Hfull|done].
  - apply Forall_cons in Hcs as [Hc Hcs].
    destruct (IH (λ c', seen c' ∨ c' = c) (project_cell b c.2 acc c.1) Hcs)
      as (mp & ? & ? & Hsound & Hfull).
    { intros c' k Hc'. apply Hle. by right. }
    { apply project_cell_any; [done| |done]. intros k. apply Hle. by left. }
    exists mp. split_and!; [done..| |].
    + intros i c' Hi. destruct (Hsound i c' Hi) as (Hseen & ? & ?).
      split_and!; [|done..]. rewrite elem_of_cons. naive_solver.
    + intros c' k Hseen. apply Hfull. rewrite elem_of_cons in Hseen. naive_solver.
Qed.

(** Once the projection has raised, it stays raised; until then the list
    keeps its length. *)
Lemma project_cells_None cs :
  foldl (λ acc (c : coord), project_cell b c.2 acc c.1) None cs = None.
Proof. by induction cs. Qed.

Lemma project_cell_length mp mp' c :
  project_cell b c.2 (Some mp) c.1 = Some mp' → length mp' = length mp.
Proof.
  unfold project_cell. simpl.
  destruct (board_get b c.1 c.2) as [k|]; simpl; [|done].
  case_bool_decide; [|by intros [= ->]].
  unfold Py.setitem. destruct (Py.index (length mp) (k - 1)); simpl; [|done].
  intros [= <-]. by rewrite length_insert.
Qed.

Lemma project_cells_too_large cs : ∀ mp c k,
  c ∈ cs → board_get b c.1 c.2 = Some k → Z.of_nat (length mp) < k →
  foldl (λ acc (c : coord), project_cell b c.2 acc c.1) (Some mp) cs = None.
Proof.
  induction cs as [|c0 cs IH]; intros mp c k Hin Hk Hbig; cbn [foldl].
  { by apply elem_of_nil in Hin. }
  apply elem_of_cons in Hin as [->|Hin].
  - assert (project_cell b c0.2 (Some mp) c0.1 = None) as ->.
    { unfold project_cell. simpl. rewrite Hk. simpl.
      rewrite bool_decide_eq_true_2 by lia.
      unfold Py.setitem.
      by rewrite (proj2 (index_None (length mp) (k - 1))) by lia. }
    apply project_cells_None.
  - destruct (project_cell b c0.2 (Some mp) c0.1) as [mp'|] eqn:Hstep.
    + apply project_cell_length in Hstep. eapply IH; [done..|]. by rewrite Hstep.
    + apply project_cells_None.
Qed.

End ProjectAny.

(** X4.  The projection of any [n] by [n] board none of whose cells
    exceeds n² raises nothing and has n² entries.  An entry that is set
    names a cell of the board holding exactly that move number, and entry
    [i] is left [None] exactly when no cell holds [i + 1]; unvisited
    cells and cells with values below 1 are skipped. *)
Theorem project_partial_board (n : Z) (b : Board) :
  shaped (Z.to_nat n) b →
  (∀ c k, in_bounds n c → board_get b c.1 c.2 = Some k → k ≤ n * n) →
  ∃ mp, project b n = Some mp ∧ length mp = Z.to_nat (n * n) ∧
    (∀ i c, mp !! i = Some (Some c) →
       in_bounds n c ∧ board_get b c.1 c.2 = Some (Z.of_nat i + 1)) ∧
    (∀ i, (i < Z.to_nat (n * n))%nat →
       mp !! i = Some None ↔
       ∀ c, in_bounds n c → board_get b c.1 c.2 ≠ Some (Z.of_nat i + 1)).
Proof.
  intros Hs Hle. rewrite project_scan.
  destruct (project_cells_any n b Hs _ (λ _, False)
              (Some (replicate (Z.to_nat (n * n)) None)) (scan_in_bounds n))
    as (mp & Hmp & Hlen & Hsound & Hfull).
  { intros c k Hc. apply Hle. pose proof (scan_in_bounds n) as Hall.
    rewrite Forall_forall in Hall. by apply Hall. }
  { eexists. split; [done|]. split; [by rewrite length_replicate|]. split.
    - intros i c [[=] _]%lookup_replicate.
    - by intros. }
  exists mp. split_and!; [done..| |].
  - intros i c Hi. destruct (Hsound i c Hi) as (_ & ? & ?). done.
  - intros i Hi. split.
    + intros Hnone c Hc Hget.
      destruct (Hfull c (Z.of_nat i + 1)) as [c' Hc']; [by right; apply scan_covers|done..|lia|].
      replace (Z.to_nat (Z.of_nat i + 1 - 1)) with i in Hc' by lia. congruence.
    + intros Hno. destruct (lookup_lt_is_Some_2 mp i) as [[c|] Hc]; [lia| |done].
      destruct (Hsound i c Hc) as (_ & Hcb & Hget). by destruct (Hno c Hcb).
Qed.

(** X5.  A cell value above n² makes the projection raise [IndexError]. *)
Theorem project_raises (n : Z) (b : Board) (c : coord) (k : Z) :
  in_bounds n c → board_get b c.1 c.2 = Some k → n * n < k →
  project b n = None.
Proof.
  intros Hc Hk Hbig. rewrite project_scan.
  eapply project_cells_too_large; [by apply scan_covers|done|].
  rewrite length_replicate. nia.
Qed.

(** ** From the search to the move positions *)

Lemma project_complete (n : Z) (b : Board) :
  complete_board n b →
  ∃ mp, project b n = Some mp ∧ length mp = Z.to_nat (n * n) ∧
        ∀ c k, in_bounds n c → board_get b c.1 c.2 = Some k →
               mp !! Z.to_nat (k - 1) = Some (Some c).
Proof.
  intros Hcb. rewrite project_scan.
  destruct (project_cells_projected n b Hcb _ (λ _, False)
              (Some (replicate (Z.to_nat (n * n)) None)) (scan_in_bounds n))
    as (mp & Hmp & Hlen & Hall).
  { eexists. split; [done|]. split; [by rewrite length_replicate|]. by intros. }
  exists mp. split_and!; [done..|].
  intros c k Hc Hget. apply Hall; [done| |done]. right. by apply scan_covers.
Qed.

Lemma path_inv_tour n b p start :
  path_inv n b p → length p = Z.to_nat (n * n) → p !! 0%nat = Some start →
  knights_tour n start p.
Proof.
  intros Hinv Hlen H0. pose proof Hinv as (_ & Hnd & Hbd & _ & _ & Hmv).
  split_and!; [done..| |done|done].
  intros c. split; [apply Hbd|]. by apply (full_path_covers n b p).
Qed.

Lemma project_path n b p :
  1 ≤ n → path_inv n b p → length p = Z.to_nat (n * n) →
  project b n = Some (Some <$> p).
Proof.
  intros Hn Hinv Hlen. pose proof Hinv as (_ & _ & Hbd & Hvis & _).
  destruct (project_complete n b) as (mp & -> & Hl & Hall);
    [by eapply full_path_complete|].
  f_equal. apply list_eq. intros i. rewrite list_lookup_fmap.
  destruct (p !! i) as [c|] eqn:Hc; simpl.
  - pose proof (Hall c _ (Hbd c (list_elem_of_lookup_2 _ _ _ Hc)) (Hvis i c Hc)) as Hi.
    by replace (Z.to_nat (Z.of_nat i + 1 - 1)) with i in Hi by lia.
  - apply lookup_ge_None. apply lookup_ge_None in Hc. lia.
Qed.

(** X6.  The projection of a board returned for a start on the board is
    the path of the search itself: a list of all n² squares, each once,
    beginning with the start, every square a knight's move from the one
    before it, and the square at index [i] holds [i + 1] on the board. *)
Theorem project_recovers_tour {G : Type} `{RandomSource G}
    (n start_x start_y max_attempts : Z) (g : G) (b : Board) :
  in_bounds n (start_x, start_y) →
  (generate_knights_tour_nxn n start_x start_y max_attempts g).1 = Tour b →
  ∃ p, project b n = Some (Some <$> p) ∧
       knights_tour n (start_x, start_y) p ∧
       ∀ i c, p !! i = Some c → board_get b c.1 c.2 = Some (Z.of_nat i + 1).
Proof.
  intros Hb Hrun.
  destruct (generate_path n _ _ _ _ _ Hb Hrun) as (p & Hinv & Hlen & H0).
  assert (1 ≤ n) by (destruct Hb; simpl in *; lia).
  exists p. split_and!.
  - by apply project_path.
  - by eapply path_inv_tour.
  - by destruct Hinv as (_ & _ & _ & Hvis & _).
Qed.

(** ** The widgets *)

(** X7.  The squares are between 30 and 60 pixels wide, and the board
    widget, [size] squares a side, is at most 480 pixels wide exactly for
    sizes up to 16. *)
Theorem square_size_bounds (size : Z) :
  5 ≤ size →
  30 ≤ KnightTourGUI.square_size_for size ≤ 60 ∧
  (size * KnightTourGUI.square_size_for size ≤ 480 ↔ size ≤ 16).
Proof.
  intros Hsize. unfold KnightTourGUI.square_size_for.
  pose proof (Z.mul_div_le 480 size) as Hlo.
  pose proof (Z.mul_succ_div_gt 480 size) as Hhi.
  set (q := 480 `div` size) in *.
  split; [lia|]. split.
  - intros Hfit. destruct (decide (size ≤ 16)); [done|]. exfalso. nia.
  - intros Hle. assert (30 ≤ q) by nia. nia.
Qed.

Section Animation.

Import KnightTourGUI.

Lemma getitem_path (p : list coord) (i : nat) :
  Py.getitem (Some <$> p) (Z.of_nat i) = Some <$> p !! i.
Proof.
  unfold Py.getitem. rewrite length_fmap.
  destruct (decide (i < length p)%nat).
  - rewrite index_nonneg by lia. simpl. by rewrite Nat2Z.id, list_lookup_fmap.
  - rewrite (proj2 (index_None _ _)) by lia. simpl.
    by rewrite (proj2 (lookup_ge_None p i)) by lia.
Qed.

Lemma showing_start (p : list coord) (c : coord) bs sq bo ti pa ta wbs wsq wbd wpp :
  p !! 0%nat = Some c →
  showing p 0 (Build bs sq bo (Some <$> p) 0 ti pa ta
                 (Some (BoardWidget.Build wbs wsq wbd c wpp ∅))).
Proof.
  intros H0. split_and!; [done..|]. eexists. split_and!; [done..|].
  intros c' m. simpl. rewrite lookup_empty. split; [done|].
  intros (j & Hj & _). lia.
Qed.

(** One timer event while the knight is not yet on the last square. *)
Lemma animate_moves_step (p : list coord) (i : nat) (self : t) :
  NoDup p → showing p i self → is_paused self = false → (S i < length p)%nat →
  ∃ self', animate_moves self = Returns (self', None) ∧ showing p (S i) self' ∧
           is_paused self' = false ∧ timer_active self' = timer_active self ∧
           board self' = board self.
Proof.
  intros Hnd (Hmp & Hidx & w & Hw & Hpos & Hnum) Hpause Hlt.
  destruct (lookup_lt_is_Some_2 p (S i) Hlt) as [[cx cy] Hnext].
  destruct (BoardWidget.current_pos w) as [px py] eqn:Hcur.
  unfold animate_moves. rewrite Hpause, Hmp, length_fmap, Hidx.
  rewrite bool_decide_eq_false_2 by lia.
  replace (Z.of_nat i + 1 - 1) with (Z.of_nat i) by lia.
  replace (Z.of_nat i + 1) with (Z.of_nat (S i)) by lia.
  rewrite !getitem_path, Hnext, Hpos, Hw. simpl.
  eexists. split; [done|]. split_and!; [ |done..].
  split_and!; [done..|]. eexists. split_and!; [done|done|].
  intros c m. simpl. rewrite lookup_insert. destruct (decide ((px, py) = c)) as [<-|Hne].
  - split.
    + intros [= <-]. exists i. split_and!; [lia|done|lia].
    + intros (j & Hj & Hpj & ->).
      pose proof (NoDup_lookup _ _ _ _ Hnd Hpos Hpj) as <-. f_equal. lia.
  - rewrite Hnum. split.
    + intros (j & ? & ? & ?). exists j. split_and!; [lia|done..].
    + intros (j & Hj & Hpj & ->). exists j. split_and!; [|done..].
      destruct (decide (j = i)) as [->|]; [|lia]. congruence.
Qed.

Lemma ticks_showing (p : list coord) (i k : nat) (self : t) :
  NoDup p → showing p i self → is_paused self = false →
  (i + k < length p)%nat →
  ∃ self', ticks k self = Returns self' ∧ showing p (i + k) self' ∧
           is_paused self' = false ∧ timer_active self' = timer_active self ∧
           board self' = board self ∧
           ∀ w, board_widget self' = Some w →
                BoardWidget.move_numbers w !! BoardWidget.current_pos w = None.
Proof.
  intros Hnd. revert i self.
  induction k as [|k IH]; intros i self Hshow Hpause Hlt.
  - exists self. rewrite Nat.add_0_r. split_and!; [done..|].
    intros w Hw. destruct Hshow as (_ & _ & w' & Hw' & Hpos & Hnum).
    assert (w' = w) as -> by congruence.
    destruct (BoardWidget.move_numbers w !! BoardWidget.current_pos w) as [m|] eqn:Hm;
      [|done].
    apply Hnum in Hm as (j & Hj & Hpj & _).
    pose proof (NoDup_lookup _ _ _ _ Hnd Hpos Hpj). lia.
  - destruct (animate_moves_step p i self Hnd Hshow Hpause)
      as (self1 & Hstep & Hshow1 & Hpause1 & Htimer1 & Hboard1); [lia|].
    destruct (IH (S i) self1 Hshow1 Hpause1) as (self' & Hrun & ? & ? & ? & ? & ?); [lia|].
    exists self'. simpl. rewrite Hstep.
    replace (i + S k)%nat with (S i + k)%nat by lia.
    split_and!; [done..|congruence|congruence|done].
Qed.

(** X8.  While the animation plays, [k] timer events take the knight
    [k] squares along the path: it then stands on square [i + k], the
    squares before it show their move numbers, and no other square shows
    one (in particular not the knight's own). *)
Theorem ticks_follow_path (p : list coord) (i k : nat) (self : t) :
  NoDup p → showing p i self → is_paused self = false →
  (i + k < length p)%nat →
  ∃ self', ticks k self = Returns self' ∧ showing p (i + k) self' ∧
           is_paused self' = false ∧ timer_active self' = timer_active self ∧
           board self' = board self ∧
           ∀ w, board_widget self' = Some w →
                BoardWidget.move_numbers w !! BoardWidget.current_pos w = None.
Proof. apply ticks_showing. Qed.

Lemma ticks_after_end (k : nat) : ∀ self : t,
  is_paused self = false →
  Z.of_nat (length (move_positions self)) ≤ current_move_index self + 1 →
  ∃ self', ticks k self = Returns self' ∧ board_widget self' = board_widget self ∧
           move_positions self' = move_positions self.
Proof.
  induction k as [|k IH]; intros self Hpause Hend; simpl; [by exists self|].
  unfold animate_moves. rewrite Hpause, bool_decide_eq_true_2 by lia.
  destruct (IH (Build (board_size self) (square_size self) (board self)
                      (move_positions self) (current_move_index self + 1)
                      (timer_interval self) false false (board_widget self)))
    as (self' & ? & ? & ?); [done|simpl; lia|].
  by exists self'.
Qed.

(** X9.  The timer event that finds the knight on the last square of the
    path ends the animation: it reports "Done" and stops the timer, and
    the display stays as it is, the last square bare of its number.
    Later timer events raise nothing and change nothing on the display. *)
Theorem animation_ends (p : list coord) (i : nat) (self : t) :
  NoDup p → showing p i self → is_paused self = false → S i = length p →
  ∃ self', animate_moves self = Returns (self', Some AnimationDone) ∧
           timer_active self' = false ∧
           board_widget self' = board_widget self ∧
           (∀ w, board_widget self' = Some w →
                 p !! i = Some (BoardWidget.current_pos w) ∧
                 BoardWidget.move_numbers w !! BoardWidget.current_pos w = None) ∧
           ∀ k, ∃ self'', ticks k self' = Returns self'' ∧
                          board_widget self'' = board_widget self.
Proof.
  intros Hnd Hshow Hpause Hlast.
  pose proof Hshow as (Hmp & Hidx & w & Hw & Hpos & Hnum).
  unfold animate_moves. rewrite Hpause.
  rewrite bool_decide_eq_true_2 by (rewrite Hmp, length_fmap, Hidx; lia).
  eexists. split; [done|]. simpl. split_and!; [done..| |].
  - intros w' Hw'. assert (w' = w) as -> by congruence. split; [done|].
    destruct (BoardWidget.move_numbers w !! BoardWidget.current_pos w) as [m|] eqn:Hm;
      [|done].
    apply Hnum in Hm as (j & Hj & Hpj & _).
    pose proof (NoDup_lookup _ _ _ _ Hnd Hpos Hpj). lia.
  - intros k.
    destruct (ticks_after_end k
                (Build (board_size self) (square_size self) (board self)
                       (move_positions self) (current_move_index self + 1)
                       (timer_interval self) false false (board_widget self)))
      as (self'' & ? & ? & _); [done|simpl; rewrite Hmp, length_fmap, Hidx; lia|].
    by exists self''.
Qed.

(** A window that shows a square of the path has the path loaded. *)
Lemma showing_loaded (p : list coord) (i : nat) (self : t) :
  showing p i self → loaded p self ∧ p ≠ [].
Proof.
  intros (Hmp & _ & w & Hw & Hpos & _). split; [by split; [|eexists]|].
  by intros ->.
Qed.

(** No event of the animation changes the move positions or removes the
    board widget: a timer event, whatever it finds (paused, a square to
    go to, or the end of the path), Play, Pause and Reset. *)
Lemma animate_moves_loaded (p : list coord) (self self' : t) (o : option notice) :
  loaded p self → animate_moves self = Returns (self', o) → loaded p self'.
Proof.
  intros [Hmp [w Hw]]. unfold animate_moves.
  destruct (is_paused self); [by intros [= <- <-]|].
  case_bool_decide; [by intros [= <- <-]|].
  destruct (Py.getitem _ _) as [[[cx cy]|]|]; [|done..].
  destruct (Py.getitem _ _) as [[[px py]|]|]; [|done..].
  rewrite Hw. intros [= <- <-]. split; [done|by eexists].
Qed.

Lemma ticks_loaded (p : list coord) (k : nat) : ∀ self self' : t,
  loaded p self → ticks k self = Returns self' → loaded p self'.
Proof.
  induction k as [|k IH]; intros self self' Hl; simpl; [by intros [= <-]|].
  destruct (animate_moves self) as [[self1 o]|] eqn:Hstep; [|done].
  apply IH. by eapply animate_moves_loaded.
Qed.

Lemma controls_loaded (p : list coord) (self : t) :
  loaded p self →
  loaded p (play_animation self) ∧ loaded p (pause_animation self) ∧
  ∀ self', reset_animation self = Returns self' → loaded p self'.
Proof.
  intros [Hmp [w Hw]]. split_and!.
  - unfold play_animation. rewrite Hw. split; [done|by eexists].
  - split; [done|by eexists].
  - intros self'. unfold reset_animation. rewrite Hw.
    destruct (Py.getitem _ _) as [[[x y]|]|]; [|done..].
    intros [= <-]. split; [done|by eexists].
Qed.

(** X10.  Reset, at any point once a tour is loaded (while the animation
    plays, while it is paused, and after it has finished with the "Done"
    notice, when the cursor has run to the end of the path), puts the
    knight back on the first square with no number shown, paused and with
    the timer stopped; Play then runs the animation again from the
    beginning. *)
Theorem reset_replays (p : list coord) (self : t) :
  NoDup p → p ≠ [] → loaded p self →
  ∃ self', reset_animation self = Returns self' ∧ showing p 0 self' ∧
           is_paused self' = true ∧ timer_active self' = false ∧
           ∀ k, (k < length p)%nat →
                ∃ self'', ticks k (play_animation self') = Returns self'' ∧
                          showing p k self''.
Proof.
  intros Hnd Hne (Hmp & w & Hw).
  destruct (lookup_lt_is_Some_2 p 0) as [[x y] H0];
    [destruct p; [done|simpl; lia]|].
  unfold reset_animation. rewrite Hw, Hmp.
  change 0 with (Z.of_nat 0). rewrite getitem_path, H0. simpl.
  eexists. split; [done|].
  assert (∀ pa ta, showing p 0
            (Build (board_size self) (square_size self) (board self) (Some <$> p) 0
                   (timer_interval self) pa ta
                   (Some (BoardWidget.set_knight_position
                            (BoardWidget.clear_move_numbers w) x y None None None))))
    as Hshow by (intros; by apply showing_start).
  split_and!; [apply Hshow|done|by destruct (timer_active self)|].
  intros k Hk. unfold pause_animation, play_animation. simpl.
  destruct (ticks_showing p 0 k (Build (board_size self) (square_size self)
              (board self) (Some <$> p) 0 (timer_interval self) false
              (if if timer_active self then false else timer_active self
               then if timer_active self then false else timer_active self else true)
              (Some (BoardWidget.set_knight_position
                       (BoardWidget.clear_move_numbers w) x y None None None))))
    as (self'' & ? & ? & _); [done|apply Hshow|done|lia|].
  by exists self''.
Qed.

(** X11.  Pause freezes the animation: timer events that still arrive
    change nothing.  Play right after Pause gives back the state the
    animation was paused in. *)
Theorem pause_freezes (self : t) (w : BoardWidget.t) (k : nat) :
  board_widget self = Some w → is_paused self = false → timer_active self = true →
  ticks k (pause_animation self) = Returns (pause_animation self) ∧
  play_animation (pause_animation self) = self.
Proof.
  intros Hw Hpause Htimer. split.
  - induction k as [|k IH]; [done|]. simpl. by rewrite IH.
  - destruct self. simpl in *. subst. done.
Qed.

End Animation.

Section StartTour.

Context {G : Type} `{RandomSource G}.

Import KnightTourGUI.

(** X12.  Input that does not parse, a size below 5, or a start off the
    board is turned away with the input warning: nothing of the window's
    state changes, no search is made and the random source is not used. *)
Theorem start_tour_rejects (size_in row_in col_in : option Z) (self : t) (g : G) :
  (∀ size row col,
     size_in = Some size → row_in = Some row → col_in = Some col →
     ¬ (5 ≤ size ∧ 0 ≤ row < size ∧ 0 ≤ col < size)) →
  start_tour size_in row_in col_in self g = Returns (self, Some InputError, g).
Proof.
  intros Hbad. unfold start_tour.
  destruct size_in as [size|]; [|done].
  case_bool_decide as Hsize; [done|].
  destruct row_in as [row|]; [|done].
  destruct col_in as [col|]; [|done].
  case_bool_decide as Hrange; [|done].
  destruct (Hbad size row col); [done..|lia].
Qed.

Lemma start_tour_run (size row col : Z) (self : t) (g : G) :
  5 ≤ size → 0 ≤ row < size → 0 ≤ col < size →
  match (generate_knights_tour_nxn size col row 100 g).1 with
  | NoTour =>
      start_tour (Some size) (Some row) (Some col) self g =
        Returns (Build size (square_size_for size) None (move_positions self)
                       (current_move_index self) (timer_interval self)
                       (is_paused self) (timer_active self) (board_widget self),
                 Some NoSolution,
                 rng (generate_knights_tour_nxn size col row 100 g).2)
  | Tour b =>
      ∃ p self',
        knights_tour size (col, row) p ∧
        (∀ i c, p !! i = Some c → board_get b c.1 c.2 = Some (Z.of_nat i + 1)) ∧
        self' = Build size (square_size_for size) (Some b) (Some <$> p) 0
                      (timer_interval self) false true
                      (Some (BoardWidget.Build size (square_size_for size) b
                               (col, row) None ∅)) ∧
        start_tour (Some size) (Some row) (Some col) self g =
          Returns (self', None, rng (generate_knights_tour_nxn size col row 100 g).2) ∧
        showing p 0 self'
  | IndexError => False
  end.
Proof.
  intros Hsize Hrow Hcol.
  assert (in_bounds size (col, row)) as Hb by (unfold in_bounds; simpl; lia).
  unfold start_tour.
  rewrite bool_decide_eq_false_2 by lia.
  rewrite (bool_decide_eq_true_2 (0 ≤ row < size ∧ 0 ≤ col < size)) by done.
  simpl.
  pose proof (in_range_not_raised size col row 100 g Hb) as Hnr.
  pose proof (generate_path size col row 100 g) as Hpath.
  destruct (generate_knights_tour_nxn size col row 100 g) as [[b| |] s]; simpl in *.
  - destruct (Hpath b Hb eq_refl) as (p & Hinv & Hlen & H0).
    exists p. eexists.
    pose proof Hinv as ([Hbl _] & _ & _ & Hvis & _).
    destruct b as [|row0 b]; [simpl in Hbl; lia|].
    rewrite (project_path size _ p) by (done || lia).
    pose proof (getitem_path p 0) as Hg. change (Z.of_nat 0) with 0 in Hg.
    rewrite Hg, H0. simpl.
    split_and!; [by eapply path_inv_tour|done|done| |by apply showing_start].
    unfold play_animation. simpl. by destruct (timer_active self).
  - done.
  - done.
Qed.

(** X13.  With a size of at least 5 and a start on the board,
    [start_tour] raises nothing.  Either the search found no tour: "No
    Solution" is reported and the move positions, the cursor, the pause
    flag, the timer and the board widget of a tour shown before are left
    as they were.  Or it found one: the move positions are a knight's
    tour of the board from the requested square (column as x, row as y),
    agreeing with the board's move numbers, the new board widget shows
    the knight on that square and no number, and the animation is
    playing from cursor 0 with the timer running. *)
Theorem start_tour_accepted (size row col : Z) (self : t) (g : G) :
  5 ≤ size → 0 ≤ row < size → 0 ≤ col < size →
  match (generate_knights_tour_nxn size col row 100 g).1 with
  | NoTour =>
      start_tour (Some size) (Some row) (Some col) self g =
        Returns (Build size (square_size_for size) None (move_positions self)
                       (current_move_index self) (timer_interval self)
                       (is_paused self) (timer_active self) (board_widget self),
                 Some NoSolution,
                 rng (generate_knights_tour_nxn size col row 100 g).2)
  | Tour b =>
      ∃ p self',
        knights_tour size (col, row) p ∧
        (∀ i c, p !! i = Some c → board_get b c.1 c.2 = Some (Z.of_nat i + 1)) ∧
        self' = Build size (square_size_for size) (Some b) (Some <$> p) 0
                      (timer_interval self) false true
                      (Some (BoardWidget.Build size (square_size_for size) b
                               (col, row) None ∅)) ∧
        start_tour (Some size) (Some row) (Some col) self g =
          Returns (self', None, rng (generate_knights_tour_nxn size col row 100 g).2) ∧
        showing p 0 self'
  | IndexError => False
  end.
Proof. apply start_tour_run. Qed.

(** X14.  After a tour was started and [k] timer events have come in
    (fewer than the board has squares), the display is the tour up to
    move [k + 1]: the knight stands on the square the board numbers
    [k + 1], and a square shows a number exactly when the board numbers
    it between 1 and [k], the number shown being the board's. *)
Theorem trail_matches_board (size row col : Z) (self self0 : t) (g g' : G) (k : nat) :
  5 ≤ size → 0 ≤ row < size → 0 ≤ col < size →
  start_tour (Some size) (Some row) (Some col) self g = Returns (self0, None, g') →
  (k < Z.to_nat (size * size))%nat →
  ∃ self1 b w,
    ticks k self0 = Returns self1 ∧
    board self1 = Some b ∧ board_widget self1 = Some w ∧
    board_get b (BoardWidget.current_pos w).1 (BoardWidget.current_pos w).2
      = Some (Z.of_nat k + 1) ∧
    ∀ c m, BoardWidget.move_numbers w !! c = Some m ↔
           in_bounds size c ∧ board_get b c.1 c.2 = Some m ∧ 1 ≤ m ≤ Z.of_nat k.
Proof.
  intros Hsize Hrow Hcol Hstart Hk.
  pose proof (start_tour_run size row col self g Hsize Hrow Hcol) as Hrun.
  destruct (generate_knights_tour_nxn size col row 100 g).1 as [b| |];
    [|congruence|done].
  destruct Hrun as (p & self' & Htour & Hvis & Hself & Hst & Hshow).
  assert (self0 = self') as -> by congruence.
  destruct Htour as (Hlen & Hnd & Hcov & _ & _).
  destruct (ticks_showing p 0 k self' Hnd Hshow) as
    (self1 & Hticks & Hshow1 & _ & _ & Hboard & _);
    [by rewrite Hself|lia|].
  destruct Hshow1 as (_ & _ & w & Hw & Hpos & Hnum).
  exists self1, b, w. split_and!; [done|by rewrite Hboard, Hself|done|by apply Hvis|].
  intros c m. rewrite Hnum. split.
  - intros (j & Hj & Hpj & ->). split_and!; [|by apply Hvis|lia..].
    by eapply Hcov, list_elem_of_lookup_2.
  - intros (Hc & Hget & Hm).
    apply Hcov in Hc as [j Hpj]%list_elem_of_lookup.
    pose proof (Hvis j c Hpj) as Hget'. exists j.
    assert (m = Z.of_nat j + 1) as -> by congruence.
    split_and!; [lia|done..].
Qed.

End StartTour.

(** ** Moves from any start *)

Section Trail.

Context {G : Type} `{RandomSource G} (n x0 y0 : Z).

Lemma trail_inv_step b p x y d :
  trail_inv n x0 y0 b p →
  stands_on x0 y0 p x y →
  d ∈ KNIGHT_MOVES →
  in_bounds n (candidate x y d) →
  board_get b (candidate x y d).1 (candidate x y d).2 = Some UNVISITED →
  trail_inv n x0 y0
    (set_cell b (Z.to_nat (candidate x y d).1) (Z.to_nat (candidate x y d).2)
              (Z.of_nat (length p) + 1))
    (p ++ [candidate x y d]) ∧
  stands_on x0 y0 (p ++ [candidate x y d]) (candidate x y d).1 (candidate x y d).2.
Proof.
  intros (Hfill & Hmv & Hfirst) Hpos Hd Hc Hfree.
  assert (∀ u v : Z, (u + d.1 - u, v + d.2 - v) ∈ KNIGHT_MOVES) as Hdiff.
  { intros u v. destruct d as [dx dy]. simpl.
    by replace (u + dx - u) with dx by lia; replace (v + dy - v) with dy by lia. }
  split; [split_and!|].
  - by apply fill_inv_step.
  - intros i c1 c2 Hi H1 H2.
    apply lookup_snoc_Some in H2 as [[HSi H2]|[HSi <-]].
    + rewrite lookup_app_l in H1 by lia. by eapply Hmv.
    + rewrite lookup_app_l in H1 by lia.
      destruct Hpos as [[Hlen _]|[_ Hlast]]; [lia|].
      rewrite last_lookup, <-HSi in Hlast. simpl in Hlast.
      assert (c1 = (x, y)) as -> by congruence. apply Hdiff.
  - intros c H1. apply lookup_snoc_Some in H1 as [[Hlt H1]|[Hlen <-]].
    + by apply Hfirst.
    + destruct Hpos as [[_ [= -> ->]]|[Hlen2 _]]; [|lia]. apply Hdiff.
  - right. rewrite length_app, last_snoc. simpl.
    split; [|done].
    destruct Hpos as [[-> _]|[? _]]; lia.
Qed.

Lemma move_loop_trail (k : nat) : ∀ x y b (s : state G) p b',
  trail_inv n x0 y0 b p →
  stands_on x0 y0 p x y →
  moves s ≡ₚ KNIGHT_MOVES →
  (move_loop n (seqZ (Z.of_nat (length p) + 1) (Z.of_nat k)) x y b s).1 = Completed b' →
  ∃ p', trail_inv n x0 y0 b' (p ++ p') ∧ length p' = k.
Proof.
  induction k as [|k IH]; intros x y b s p b' Hinv Hpos Hp Hrun.
  { simpl in Hrun. injection Hrun as <-. exists []. by rewrite app_nil_r. }
  rewrite seqZ_cons in Hrun by lia. simpl in Hrun.
  pose proof (shuffle_moves s Hp) as Hp'.
  destruct (shuffle (rng s) (moves s)) as [ms g]. simpl in Hp'.
  destruct (select_move n ms x y b) as [[nx ny]|] eqn:Hsel; [|done].
  destruct (select_move_Some n ms x y b _ Hp' Hsel) as (d & Hd & Hc & Hb & Hfree).
  pose proof Hinv as ((Hs & _) & _).
  rewrite (board_set_in_bounds n b (nx, ny)) in Hrun by done.
  pose proof (trail_inv_step b p x y d Hinv Hpos Hd) as Hstep.
  rewrite <-Hc in Hstep. destruct (Hstep Hb Hfree) as [Hinv1 Hpos1].
  simpl in Hinv1, Hpos1.
  destruct (IH nx ny _ (log (EvStep (Z.of_nat (length p) + 1) ms x y b (Some (nx, ny)))
                             (State g ms (trace s)))
               (p ++ [(nx, ny)]) b' Hinv1 Hpos1) as (p' & Hinv' & Hlen).
  - done.
  - rewrite length_app. simpl.
    replace (Z.of_nat (length p + 1) + 1) with (Z.succ (Z.of_nat (length p) + 1)) by lia.
    by replace (Z.of_nat k) with (Z.pred (Z.of_nat (S k))) by lia.
  - exists ((nx, ny) :: p'). rewrite <-app_assoc in Hinv'. split; [done|].
    simpl. by f_equal.
Qed.

Lemma attempt_trail a (s : state G) b' :
  moves s ≡ₚ KNIGHT_MOVES →
  (attempt n a x0 y0 s).1 = Completed b' →
  1 ≤ n ∧ ∃ p, trail_inv n x0 y0 b' p ∧ length p = Z.to_nat (n * n).
Proof.
  intros Hp Hrun. unfold attempt in Hrun.
  destruct (board_set (new_board n) x0 y0 1) as [b|] eqn:Hset; [|done].
  assert (1 ≤ n) as Hn.
  { assert (is_Some (board_set (new_board n) x0 y0 1)) as Hin by eauto.
    apply mark_start_is_Some in Hin. lia. }
  split; [done|].
  destruct (mark_start_wrapped n x0 y0 b Hset) as [Hb Hset'].
  assert (trail_inv n x0 y0 b [wrapped n (x0, y0)]) as Hinv.
  { split_and!.
    - apply path_inv_fill. by apply path_inv_start.
    - intros i c c' Hi Hc. by destruct i.
    - done. }
  unfold Py.range in Hrun.
  replace (n * n + 1 - 2) with (Z.of_nat (Z.to_nat (n * n - 1))) in Hrun by nia.
  destruct (move_loop_trail (Z.to_nat (n * n - 1)) x0 y0 b
              (log (EvAttempt a) s) [wrapped n (x0, y0)] b' Hinv) as (p' & Hinv' & Hlen);
    [by left|done|done|].
  exists ([wrapped n (x0, y0)] ++ p'). split; [done|].
  simpl. rewrite Hlen. nia.
Qed.

(** X15.  Whatever the start subscripts, every move of a returned board
    after the first is legal: for 2 ≤ k < n², the cells holding [k] and
    [k + 1] are a knight's move apart.  The cell holding 2 is a knight's
    move from the start subscripts themselves, which for a negative
    subscript are not the cell holding 1. *)
Theorem moves_legal_from_any_start (max_attempts : Z) (g : G) (b : Board) :
  (generate_knights_tour_nxn n x0 y0 max_attempts g).1 = Tour b →
  (∀ k c c', 2 ≤ k < n * n → in_bounds n c → in_bounds n c' →
     board_get b c.1 c.2 = Some k → board_get b c'.1 c'.2 = Some (k + 1) →
     (c'.1 - c.1, c'.2 - c.2) ∈ KNIGHT_MOVES) ∧
  (∀ c, in_bounds n c → board_get b c.1 c.2 = Some 2 →
     (c.1 - x0, c.2 - y0) ∈ KNIGHT_MOVES).
Proof.
  intros Hrun. unfold generate_knights_tour_nxn in Hrun.
  apply attempt_loop_Tour in Hrun as (a & s0 & _ & Hp & Hrun); [|done].
  destruct (attempt_trail a s0 b Hp Hrun) as (Hn & p & (Hfill & Hmv & Hfirst) & Hlen).
  pose proof (full_fill_complete n b p Hn Hfill Hlen) as Hcb.
  pose proof Hfill as (_ & _ & Hbd & Hvis & _).
  assert (∀ (i : nat) c, Z.of_nat i < n * n → in_bounds n c →
            board_get b c.1 c.2 = Some (Z.of_nat i + 1) → p !! i = Some c) as Hat.
  { intros i c Hi Hc Hget.
    destruct (lookup_lt_is_Some_2 p i) as [c0 Hc0]; [lia|].
    rewrite Hc0. f_equal. apply (complete_board_inj n b); [done| |done|].
    - by eapply Hbd, list_elem_of_lookup_2.
    - rewrite Hget. by apply Hvis. }
  split.
  - intros k c c' Hk Hc Hc' Hget Hget'.
    apply (Hmv (Z.to_nat (k - 1))); [lia|apply Hat|apply Hat]; try done; try lia.
    + by replace (Z.of_nat (Z.to_nat (k - 1)) + 1) with k by lia.
    + by replace (Z.of_nat (S (Z.to_nat (k - 1))) + 1) with (k + 1) by lia.
  - intros c Hc Hget. apply Hfirst.
    destruct (decide (1 < n * n)) as [Hbig|Hsmall].
    + apply Hat; [lia|done|done].
    + destruct (complete_board_cell n b c Hcb Hc) as (k & Hk & Hrange).
      assert (k = 2) by congruence. lia.
Qed.

End Trail.

(** ** Concrete runs of the further properties *)

Lemma returned_board_complete_witness :
  (generate_knights_tour_nxn 5 (-1) 0 1 ([] : list nat)).1 = Tour wrapped_5x5 ∧
  complete_board 5 wrapped_5x5 ∧ board_get wrapped_5x5 (wrap 5 (-1)) (wrap 5 0) = Some 1.
Proof.
  assert ((generate_knights_tour_nxn 5 (-1) 0 1 ([] : list nat)).1 = Tour wrapped_5x5)
    as Hrun by (by vm_compute).
  split; [done|].
  destruct (returned_board_complete 5 (-1) 0 1 ([] : list nat) wrapped_5x5 Hrun)
    as (_ & ? & _ & ?).
  split; assumption.
Defined.

Lemma odd_start_no_tour_witness :
  in_bounds 5 (1, 0) ∧ Z.odd 5 = true ∧ Z.odd (1 + 0) = true ∧
  (generate_knights_tour_nxn 5 1 0 3 ([] : list nat)).1 = NoTour.
Proof.
  assert (in_bounds 5 (1, 0)) as Hb by (unfold in_bounds; simpl; lia).
  split_and!; [done..|].
  by apply (odd_start_no_tour 5 1 0 3 ([] : list nat) Hb).
Defined.

Lemma small_board_no_tour_witness :
  in_bounds 3 (0, 0) ∧ 2 ≤ 3 ≤ 3 ∧
  (generate_knights_tour_nxn 3 0 0 2 ([] : list nat)).1 = NoTour.
Proof.
  assert (in_bounds 3 (0, 0)) as Hb by (unfold in_bounds; simpl; lia).
  assert (2 ≤ 3 ≤ 3) as Hn by lia.
  split_and!; [done..|].
  by apply (small_board_no_tour 3 0 0 2 ([] : list nat) Hb Hn).
Defined.

Lemma project_partial_board_witness :
  shaped 2 [[1; -1]; [-1; 2]] ∧
  ∃ mp, project [[1; -1]; [-1; 2]] 2 = Some mp ∧ length mp = 4%nat.
Proof.
  assert (shaped (Z.to_nat 2) [[1; -1]; [-1; 2]]) as Hs.
  { split; [done|]. by repeat constructor. }
  assert (∀ (c : Z * Z) k, in_bounds 2 c →
            board_get [[1; -1]; [-1; 2]] c.1 c.2 = Some k → k ≤ 2 * 2) as Hle.
  { intros [x y] k [Hx Hy]. simpl in *.
    assert (x = 0 ∨ x = 1) as [-> | ->] by lia;
      assert (y = 0 ∨ y = 1) as [-> | ->] by lia;
      vm_compute; intros [= <-]; done. }
  split; [done|].
  destruct (project_partial_board 2 [[1; -1]; [-1; 2]] Hs Hle) as (mp & Hmp & Hl & _).
  exists mp. split; assumption.
Defined.

Lemma project_raises_witness :
  in_bounds 2 (1, 1) ∧ board_get [[1; 4]; [3; 5]] 1 1 = Some 5 ∧ 2 * 2 < 5 ∧
  project [[1; 4]; [3; 5]] 2 = None.
Proof.
  assert (in_bounds 2 (1, 1)) as Hb by (unfold in_bounds; simpl; lia).
  assert (2 * 2 < 5) as Hbig by lia.
  split_and!; [done..|].
  by apply (project_raises 2 [[1; 4]; [3; 5]] (1, 1) 5 Hb eq_refl Hbig).
Defined.

Lemma project_recovers_tour_witness :
  in_bounds 5 (0, 0) ∧
  (generate_knights_tour_nxn 5 0 0 1 ([] : list nat)).1 = Tour tour_5x5 ∧
  ∃ p, project tour_5x5 5 = Some (Some <$> p) ∧ knights_tour 5 (0, 0) p.
Proof.
  assert (in_bounds 5 (0, 0)) as Hb by (unfold in_bounds; simpl; lia).
  assert ((generate_knights_tour_nxn 5 0 0 1 ([] : list nat)).1 = Tour tour_5x5) as Hrun
    by (by vm_compute).
  split_and!; [done..|].
  destruct (project_recovers_tour 5 0 0 1 ([] : list nat) tour_5x5 Hb Hrun)
    as (p & Hp & Ht & _).
  exists p. split; assumption.
Defined.

Lemma moves_legal_from_any_start_witness :
  (generate_knights_tour_nxn 5 (-1) 0 1 ([] : list nat)).1 = Tour wrapped_5x5 ∧
  (in_bounds 5 (1, 1) → board_get wrapped_5x5 1 1 = Some 2 →
   (1 - -1, 1 - 0) ∈ KNIGHT_MOVES).
Proof.
  assert ((generate_knights_tour_nxn 5 (-1) 0 1 ([] : list nat)).1 = Tour wrapped_5x5)
    as Hrun by (by vm_compute).
  split; [done|].
  destruct (moves_legal_from_any_start 5 (-1) 0 1 ([] : list nat) wrapped_5x5 Hrun)
    as [_ Hfirst].
  apply (Hfirst (1, 1)).
Defined.

Lemma square_size_bounds_witness :
  5 ≤ 12 ∧ 30 ≤ KnightTourGUI.square_size_for 12 ≤ 60 ∧
  (12 * KnightTourGUI.square_size_for 12 ≤ 480 ↔ 12 ≤ 16).
Proof. split; [lia|]. apply square_size_bounds. lia. Defined.

Lemma tour_5x5_path_NoDup : NoDup tour_5x5_path.
Proof. apply (bool_decide_unpack _). by vm_compute. Qed.

Lemma started_5x5_showing : KnightTourGUI.showing tour_5x5_path 0 started_5x5.
Proof. by apply showing_start. Qed.

Lemma ticks_follow_path_witness :
  NoDup tour_5x5_path ∧ KnightTourGUI.showing tour_5x5_path 0 started_5x5 ∧
  KnightTourGUI.is_paused started_5x5 = false ∧
  (0 + 3 < length tour_5x5_path)%nat ∧
  ∃ self', KnightTourGUI.ticks 3 started_5x5 = Returns self' ∧
           KnightTourGUI.showing tour_5x5_path (0 + 3) self'.
Proof.
  assert (0 + 3 < length tour_5x5_path)%nat as Hlt by (simpl; lia).
  split_and!; [apply tour_5x5_path_NoDup|apply started_5x5_showing|done|done|].
  destruct (ticks_follow_path tour_5x5_path 0 3 started_5x5 tour_5x5_path_NoDup
              started_5x5_showing eq_refl Hlt) as (self' & Ht & Hs & _).
  exists self'. split; assumption.
Defined.

Lemma single_square_showing : KnightTourGUI.showing [(0, 0)] 0 single_square.
Proof. by apply (showing_start [(0, 0)]). Qed.

Lemma animation_ends_witness :
  NoDup [(0, 0)] ∧ KnightTourGUI.showing [(0, 0)] 0 single_square ∧
  KnightTourGUI.is_paused single_square = false ∧ 1%nat = length [(0, 0)] ∧
  ∃ self', KnightTourGUI.animate_moves single_square = Returns (self', Some AnimationDone) ∧
           KnightTourGUI.timer_active self' = false.
Proof.
  assert (NoDup [(0, 0)]) as Hnd by apply NoDup_singleton.
  split_and!; [done|apply single_square_showing|done|done|].
  destruct (animation_ends [(0, 0)] 0 single_square Hnd single_square_showing
              eq_refl eq_refl) as (self' & Ha & Ht & _).
  exists self'. split; assumption.
Defined.

(** The animation of [started_5x5] run to its end: the 25th timer event
    is the one that reports "Done". *)
Lemma finished_5x5_reached :
  KnightTourGUI.ticks 24 started_5x5
  = Returns (KnightTourGUI.Build 5 60 (Some tour_5x5) (Some <$> tour_5x5_path) 24 600
               false true (KnightTourGUI.board_widget finished_5x5)) ∧
  KnightTourGUI.animate_moves
    (KnightTourGUI.Build 5 60 (Some tour_5x5) (Some <$> tour_5x5_path) 24 600
       false true (KnightTourGUI.board_widget finished_5x5))
  = Returns (finished_5x5, Some AnimationDone) ∧
  KnightTourGUI.ticks 25 started_5x5 = Returns finished_5x5.
Proof. split_and!; by vm_compute. Qed.

Lemma finished_5x5_loaded : KnightTourGUI.loaded tour_5x5_path finished_5x5.
Proof. split; [done|by eexists]. Qed.

Lemma tour_5x5_path_nonempty : tour_5x5_path ≠ [].
Proof. done. Qed.

Lemma reset_replays_witness :
  NoDup tour_5x5_path ∧ tour_5x5_path ≠ [] ∧
  KnightTourGUI.loaded tour_5x5_path finished_5x5 ∧
  KnightTourGUI.current_move_index finished_5x5 = Z.of_nat (length tour_5x5_path) ∧
  ∃ self', KnightTourGUI.reset_animation finished_5x5 = Returns self' ∧
           KnightTourGUI.showing tour_5x5_path 0 self' ∧
           KnightTourGUI.is_paused self' = true ∧
           KnightTourGUI.timer_active self' = false ∧
           ∃ self'', KnightTourGUI.ticks 3 (KnightTourGUI.play_animation self')
                     = Returns self'' ∧
                     KnightTourGUI.showing tour_5x5_path 3 self''.
Proof.
  assert (3 < length tour_5x5_path)%nat as Hk by (simpl; lia).
  split_and!;
    [apply tour_5x5_path_NoDup|apply tour_5x5_path_nonempty|apply finished_5x5_loaded|
     reflexivity|].
  destruct (reset_replays tour_5x5_path finished_5x5 tour_5x5_path_NoDup
              tour_5x5_path_nonempty finished_5x5_loaded)
    as (self' & Hr & Hs & Hp & Ht & Hplay).
  destruct (Hplay 3%nat Hk) as (self'' & Hticks & Hs'').
  exists self'. split; [assumption|]. split; [assumption|]. split; [assumption|].
  split; [assumption|]. exists self''. split; assumption.
Defined.

Lemma pause_freezes_witness :
  KnightTourGUI.board_widget started_5x5
    = Some (BoardWidget.Build 5 60 tour_5x5 (0, 0) None ∅) ∧
  KnightTourGUI.is_paused started_5x5 = false ∧
  KnightTourGUI.timer_active started_5x5 = true ∧
  KnightTourGUI.ticks 4 (KnightTourGUI.pause_animation started_5x5)
    = Returns (KnightTourGUI.pause_animation started_5x5) ∧
  KnightTourGUI.play_animation (KnightTourGUI.pause_animation started_5x5) = started_5x5.
Proof.
  split_and!; [done..| |];
    by apply (pause_freezes started_5x5 (BoardWidget.Build 5 60 tour_5x5 (0, 0) None ∅) 4).
Defined.

Lemma start_tour_rejects_witness :
  (∀ size row col : Z,
     Some 4 = Some size → Some 0 = Some row → Some 0 = Some col →
     ¬ (5 ≤ size ∧ 0 ≤ row < size ∧ 0 ≤ col < size)) ∧
  KnightTourGUI.start_tour (Some 4) (Some 0) (Some 0) started_5x5 ([] : list nat)
  = Returns (started_5x5, Some InputError, []).
Proof.
  assert (∀ size row col : Z,
     Some 4 = Some size → Some 0 = Some row → Some 0 = Some col →
     ¬ (5 ≤ size ∧ 0 ≤ row < size ∧ 0 ≤ col < size)) as Hbad
    by (intros size row col [= <-] _ _; lia).
  split; [done|].
  by apply (start_tour_rejects (Some 4) (Some 0) (Some 0) started_5x5 ([] : list nat)).
Defined.

Lemma start_tour_accepted_witness :
  5 ≤ 5 ∧ 0 ≤ 0 < 5 ∧ 0 ≤ 0 < 5 ∧
  ∃ r, KnightTourGUI.start_tour (Some 5) (Some 0) (Some 0) KnightTourGUI.init
         ([] : list nat) = Returns r.
Proof.
  assert (5 ≤ 5) as Hsize by lia. assert (0 ≤ 0 < 5) as Hrange by lia.
  split_and!; [lia..|].
  pose proof (start_tour_accepted 5 0 0 KnightTourGUI.init ([] : list nat)
                Hsize Hrange Hrange) as Hrun.
  destruct (generate_knights_tour_nxn 5 0 0 100 ([] : list nat)).1 as [b| |].
  - destruct Hrun as (p & self' & _ & _ & _ & Hst & _). by eexists.
  - by eexists.
  - done.
Defined.

Lemma trail_matches_board_witness :
  5 ≤ 5 ∧ 0 ≤ 0 < 5 ∧
  KnightTourGUI.start_tour (Some 5) (Some 0) (Some 0) KnightTourGUI.init ([] : list nat)
  = Returns (started_5x5, None, []) ∧
  (2 < Z.to_nat (5 * 5))%nat ∧
  ∃ self1 w,
    KnightTourGUI.ticks 2 started_5x5 = Returns self1 ∧
    KnightTourGUI.board_widget self1 = Some w ∧
    ∀ c m, BoardWidget.move_numbers w !! c = Some m ↔
           in_bounds 5 c ∧ board_get tour_5x5 c.1 c.2 = Some m ∧ 1 ≤ m ≤ Z.of_nat 2.
Proof.
  assert (5 ≤ 5) as Hsize by lia. assert (0 ≤ 0 < 5) as Hrange by lia.
  assert (KnightTourGUI.start_tour (Some 5) (Some 0) (Some 0) KnightTourGUI.init
            ([] : list nat) = Returns (started_5x5, None, [])) as Hstart
    by (by vm_compute).
  assert (2 < Z.to_nat (5 * 5))%nat as Hk by (simpl; lia).
  split_and!; [done..|].
  destruct (trail_matches_board 5 0 0 KnightTourGUI.init started_5x5 [] [] 2
              Hsize Hrange Hrange Hstart Hk)
    as (self1 & b & w & Hticks & Hboard & Hw & _ & Hnum).
  exists self1, w. split_and!; [done..|].
  assert (KnightTourGUI.board self1 = Some tour_5x5) as Hb.
  { revert Hticks. vm_compute. by intros [= <-]. }
  assert (b = tour_5x5) as -> by congruence. done.
Defined.

(** A run from the corner of the 5 by 5 board with every draw 0: the
    first step, from (0, 0) over the offsets as the first shuffle leaves
    them, goes to (2, 1); the call is the search that returns [tour_5x5],
    and from (1, 0) it is the search that gives up after three attempts. *)
Lemma every_step_follows_warnsdorff_witness :
  (shuffle ([] : list nat) KNIGHT_MOVES).1 ≡ₚ KNIGHT_MOVES ∧
  warnsdorff_choice 5 (shuffle ([] : list nat) KNIGHT_MOVES).1 0 0
    [[1; -1; -1; -1; -1]; [-1; -1; -1; -1; -1]; [-1; -1; -1; -1; -1];
     [-1; -1; -1; -1; -1]; [-1; -1; -1; -1; -1]] (Some (2, 1)) ∧
  warnsdorff_search 5 0 0 (Py.range 0 1) (State ([] : list nat) KNIGHT_MOVES [])
    (Tour tour_5x5) (generate_knights_tour_nxn 5 0 0 1 ([] : list nat)).2 ∧
  warnsdorff_search 5 1 0 (Py.range 0 3) (State ([] : list nat) KNIGHT_MOVES [])
    NoTour (generate_knights_tour_nxn 5 1 0 3 ([] : list nat)).2.
Proof.
  assert ((shuffle ([] : list nat) KNIGHT_MOVES).1 ≡ₚ KNIGHT_MOVES) as Hp
    by apply shuffle_perm.
  split; [exact Hp|]. split; [|split].
  - apply (proj1 (every_step_follows_warnsdorff 5 0 0 1 ([] : list nat))); [exact Hp|].
    by vm_compute.
  - apply (proj1 (proj2 (every_step_follows_warnsdorff 5 0 0 1 ([] : list nat)))).
    apply injective_projections; [by vm_compute|reflexivity].
  - apply (proj1 (proj2 (every_step_follows_warnsdorff 5 1 0 3 ([] : list nat)))).
    apply injective_projections; [by vm_compute|reflexivity].
Defined.

(** The same two runs: from the corner the first attempt succeeds, the
    whole log is that attempt and the board returned is the one its 24
    moves add up to; from (1, 0) three attempts are abandoned and the log
    ends with the third dead end. *)
Lemma generate_bounded_attempts_witness :
  (generate_knights_tour_nxn 5 0 0 1 ([] : list nat)).1 = Tour tour_5x5 ∧
  live_segment 5 0 0 0 (trace (generate_knights_tour_nxn 5 0 0 1 ([] : list nat)).2) ∧
  board_of 5 0 0 (trace (generate_knights_tour_nxn 5 0 0 1 ([] : list nat)).2)
  = Some tour_5x5 ∧
  complete_board 5 tour_5x5 ∧
  (generate_knights_tour_nxn 5 1 0 3 ([] : list nat)).1 = NoTour ∧
  ∃ dead, trace (generate_knights_tour_nxn 5 1 0 3 ([] : list nat)).2 = concat dead ∧
          Forall2 (dead_segment 5 1 0) [0; 1; 2] dead.
Proof.
  assert ((generate_knights_tour_nxn 5 0 0 1 ([] : list nat)).1 = Tour tour_5x5) as Hrun
    by (by vm_compute).
  assert ((generate_knights_tour_nxn 5 1 0 3 ([] : list nat)).1 = NoTour) as Hnone
    by (by vm_compute).
  pose proof (generate_bounded_attempts 5 0 0 1 ([] : list nat)) as Hfound.
  pose proof (generate_bounded_attempts 5 1 0 3 ([] : list nat)) as Hfailed.
  revert Hrun Hnone Hfound Hfailed.
  generalize (generate_knights_tour_nxn 5 0 0 1 ([] : list nat)).
  generalize (generate_knights_tour_nxn 5 1 0 3 ([] : list nat)).
  intros failed found Hrun Hnone
    (dead & last & Ht & Hd & Hle & Hiff & Hres)
    (dead' & last' & Ht' & Hd' & _ & Hiff' & Hres').
  rewrite Hrun in Hiff, Hres. rewrite Hnone in Hres'.
  destruct Hres as (Hlive & Hboard & Hfull).
  destruct dead as [|seg dead].
  - cbn [concat app length Z.of_nat] in Ht, Hlive. rewrite <-Ht in Hlive, Hboard.
    pose proof (proj2 Hiff' Hnone) as Hlen'. rewrite Hlen' in Hd'.
    rewrite Hres', app_nil_r in Ht'.
    split; [exact Hrun|]. split; [exact Hlive|]. split; [exact Hboard|].
    split; [exact Hfull|]. split; [exact Hnone|].
    exists dead'. split; [exact Ht'|exact Hd'].
  - destruct dead as [|seg' dead]; [|exfalso; revert Hle; cbn; lia].
    exfalso. discriminate (proj1 Hiff eq_refl).
Defined.
